(** * asociatividad.py: lexer, recursive-descent parser and interpreter

    A shallow embedding of [src/asociatividad.py] and the properties of its
    three stages: [Lexer] (text to tokens, on demand), [Parser] (precedence
    and associativity encoded in the rules [factor], [power], [term], [expr],
    [assignment]) and [Interpreter] (a tree walk over a mutable dictionary of
    variables).

    Conventions of the embedding:
    - a Python [str] is a Rocq [string]; its characters are the code points
      U+0000 to U+00FF and the predicates [str.isspace], [str.isdigit],
      [str.isalpha], [str.isalnum] are written out on that range;
    - a Python [int] is a [Z]; [float] and [complex] values, their
      arithmetic and [float(text)] belong to the host interpreter and are
      the fields of the classes [HostNumbers] and [Host];
    - a raised exception is a value of [exn]; the [while] loops and the
      mutual recursion of the parser take a fuel argument, and running out
      of it is the separate outcome [Diverge] (shown never to happen);
    - [self.variables] is a [gmap string value]; the interpreter returns it
      next to its result, also when the result is an exception. *)

From Stdlib Require Import ZArith NArith Ascii String List Lia Bool.
From stdpp Require Import base decidable option strings gmap.

Set Default Proof Using "Type".

(** ** Characters *)

Definition code (c : ascii) : N := N_of_ascii c.

Definition between (lo hi : N) (c : ascii) : bool :=
  ((lo <=? code c) && (code c <=? hi))%N.

(** [str.isspace]: TAB..CR, FS..US and space, NEL, NBSP. *)
Definition isspace (c : ascii) : bool :=
  between 9 13 c || between 28 32 c || between 133 133 c || between 160 160 c.

(** [str.isdigit]: 0..9 and the superscripts 2, 3, 1. *)
Definition isdigit (c : ascii) : bool :=
  between 48 57 c || between 178 179 c || between 185 185 c.

(** [str.isalpha]: the letters of Latin-1. *)
Definition isalpha (c : ascii) : bool :=
  between 65 90 c || between 97 122 c || between 170 170 c
  || between 181 181 c || between 186 186 c || between 192 214 c
  || between 216 246 c || between 248 255 c.

(** [str.isalnum]: letters, digits and the vulgar fractions. *)
Definition isalnum (c : ascii) : bool :=
  isalpha c || isdigit c || between 188 190 c.

(** The characters [int(text)] accepts in a run of [isdigit] characters. *)
Definition is_decimal (c : ascii) : bool := between 48 57 c.

Definition digit_value (c : ascii) : Z := Z.of_N (code c) - 48.

Fixpoint int_of_digits (acc : Z) (s : string) : option Z :=
  match s with
  | EmptyString => Some acc
  | String c s' =>
      if is_decimal c then int_of_digits (10 * acc + digit_value c) s'
      else None
  end.

(** [int(text)] on the texts [Lexer.number] builds, runs of [isdigit]
    characters: the decimal value when all of them are decimal digits;
    [None] is ValueError. (A limit of the interpreter on the number of
    digits it converts is a setting of the host and not modelled.) *)
Definition int_of_text (s : string) : option Z :=
  match s with
  | EmptyString => None
  | _ => int_of_digits 0 s
  end.

(** ['.' in text] *)
Fixpoint has_dot (s : string) : bool :=
  match s with
  | EmptyString => false
  | String c s' => Ascii.eqb c "."%char || has_dot s'
  end.

(** ** Token types *)

Inductive TokenType :=
| NUMBER | PLUS | MINUS | MULTIPLY | DIVIDE | POWER | ASSIGN
| LPAREN | RPAREN | IDENTIFIER | EOF.

#[global] Instance TokenType_eq_dec : EqDecision TokenType.
Proof. solve_decision. Defined.

(** ** Outcomes

    [Ok a] is a normal return, [Raise e] a raised exception and [Diverge]
    the exhaustion of the fuel given to a loop or to the parser. *)

Inductive outcome (E A : Type) :=
| Ok (a : A)
| Raise (e : E)
| Diverge.
Arguments Ok {E A} a.
Arguments Raise {E A} e.
Arguments Diverge {E A}.

Definition bind {E A B} (m : outcome E A) (k : A -> outcome E B)
  : outcome E B :=
  match m with
  | Ok a => k a
  | Raise e => Raise e
  | Diverge => Diverge
  end.

Notation "'let*' x ':=' m 'in' k" := (bind m (fun x => k))
  (at level 10, x pattern, m at level 100, k at level 200).

(** ** Numbers, tokens, exceptions and syntax trees *)

(** The values of the host that are not [int]: [float] and [complex]. *)
Class HostNumbers := { inexact : Type }.

Section Data.

Context {numbers : HostNumbers}.

Inductive number :=
| Int (z : Z)
| Inexact (x : inexact).

(** [Token(type, value, position)]. The lexer gives a NUMBER token a number,
    an IDENTIFIER token its text, an operator token its spelling and the EOF
    token [None], so the value is a function of the constructor; [position]
    is never set by the program and stays at its default 0. *)
Inductive Token :=
| TNumber (value : number)
| TIdentifier (value : string)
| TPlus | TMinus | TMultiply | TDivide | TPower | TAssign
| TLParen | TRParen | TEOF.

Definition type (t : Token) : TokenType :=
  match t with
  | TNumber _ => NUMBER
  | TIdentifier _ => IDENTIFIER
  | TPlus => PLUS
  | TMinus => MINUS
  | TMultiply => MULTIPLY
  | TDivide => DIVIDE
  | TPower => POWER
  | TAssign => ASSIGN
  | TLParen => LPAREN
  | TRParen => RPAREN
  | TEOF => EOF
  end.

(** The exceptions of the program: the two [Exception(...)] of [Lexer.error]
    and [Parser.error], [NameError] of [visit_Var], and those of the host's
    conversions and arithmetic. The specification calls them LexError,
    ParseError, UndefinedVariable and DivisionByZero. *)
Inductive exn :=
| InvalidCharacter (position : nat)
| UnexpectedToken (token : Token)
| ValueError
| NameError (name : string)
| ZeroDivisionError
| OverflowError
| TypeError
| AttributeError.

(** ** Abstract syntax *)

(** The dataclasses [BinaryOp], [UnaryOp], [Num], [Var] and [Assign]. The
    annotation [left: Var] of [Assign] is not enforced by the dataclass, so
    the left child is any node. *)
Inductive ASTNode :=
| BinaryOp (left : ASTNode) (op : Token) (right : ASTNode)
| UnaryOp (op : Token) (expr : ASTNode)
| Num (value : number)
| Var (value : string)
| Assign (left : ASTNode) (right : ASTNode).

(** [isinstance(node, Var)] *)
Definition is_Var (node : ASTNode) : bool :=
  match node with
  | Var _ => true
  | _ => false
  end.

(** What a [visit] returns: a number, or [None] when [visit_BinaryOp] or
    [visit_UnaryOp] meets an operator token that none of its branches
    tests for. *)
Inductive value :=
| Number (n : number)
| PyNone.

(** A call either returns or raises. *)
Inductive completion (A : Type) :=
| Returns (a : A)
| Raises (e : exn).
Arguments Returns {A} a.
Arguments Raises {A} e.

End Data.

Arguments Returns {numbers A} a.
Arguments Raises {numbers A} e.

(** ** The host

    [float_of_text] is [float(text)], [None] standing for ValueError.
    [host_arith] is the arithmetic on operands that are not both [int], and
    where two [int] give a [float]: true division, and a power with a
    negative exponent; the operator is named by its token type.
    [host_neg] is [-x] on a [float] or [complex]. *)
Class Host {numbers : HostNumbers} := {
  float_of_text : string -> option inexact;
  host_arith : TokenType -> number -> number -> completion number;
  host_neg : inexact -> inexact
}.

(** A host that has the integers only: no text is a [float] and every
    operation that would leave the integers overflows. The programs run on
    it below stay within the integers. *)
Definition integers_only : HostNumbers := {| inexact := Empty_set |}.

Definition integer_host : @Host integers_only :=
  {| float_of_text := fun _ => None;
     host_arith := fun _ _ _ => Raises OverflowError;
     host_neg := fun x => x |}.

(** What a method of the lexer or the parser answers. *)
Abbreviation result := (outcome exn).

(** [Interpreter.variables]: the entries of the dictionary under a [str]
    key, the only ones [visit_Var] can read. *)
Abbreviation env := (gmap string value).

Section Program.

Context {numbers : HostNumbers} {host : Host}.

(** ** Lexer *)

Record Lexer := {
  text : string;
  pos : nat;
  current_char : option ascii
}.

(** [Lexer.__init__] *)
Definition Lexer_init (text : string) : Lexer :=
  {| text := text;
     pos := 0;
     current_char := match text with
                     | EmptyString => None
                     | _ => String.get 0 text
                     end |}.

(** [Lexer.error] *)
Definition Lexer_error {A} (lx : Lexer) : result A :=
  Raise (InvalidCharacter (pos lx)).

(** [Lexer.advance] *)
Definition advance (lx : Lexer) : Lexer :=
  let pos' := pos lx + 1 in
  if String.length (text lx) <=? pos'
  then {| text := text lx; pos := pos'; current_char := None |}
  else {| text := text lx; pos := pos';
          current_char := String.get pos' (text lx) |}.

(** The characters not yet passed: the fuel of the lexer's loops. *)
Definition remaining (lx : Lexer) : nat := String.length (text lx) - pos lx.

(** [Lexer.skip_whitespace]: the [while] loop. *)
Fixpoint skip_whitespace_loop (fuel : nat) (lx : Lexer) : result Lexer :=
  match current_char lx with
  | Some c =>
      if isspace c then
        match fuel with
        | O => Diverge
        | S fuel' => skip_whitespace_loop fuel' (advance lx)
        end
      else Ok lx
  | None => Ok lx
  end.

Definition skip_whitespace (lx : Lexer) : result Lexer :=
  skip_whitespace_loop (remaining lx) lx.

Definition snoc (s : string) (c : ascii) : string :=
  String.append s (String c EmptyString).

(** [Lexer.number]: the [while] loop that collects digits and dots. *)
Fixpoint number_loop (fuel : nat) (acc : string) (lx : Lexer)
  : result (string * Lexer) :=
  match current_char lx with
  | Some c =>
      if isdigit c || Ascii.eqb c "."%char then
        match fuel with
        | O => Diverge
        | S fuel' => number_loop fuel' (snoc acc c) (advance lx)
        end
      else Ok (acc, lx)
  | None => Ok (acc, lx)
  end.

(** [float(result) if '.' in result else int(result)] *)
Definition number_of_text (s : string) : result number :=
  if has_dot s then
    match float_of_text s with
    | Some x => Ok (Inexact x)
    | None => Raise ValueError
    end
  else
    match int_of_text s with
    | Some z => Ok (Int z)
    | None => Raise ValueError
    end.

Definition Lexer_number (lx : Lexer) : result (number * Lexer) :=
  let* (s, lx') := number_loop (remaining lx) EmptyString lx in
  let* n := number_of_text s in
  Ok (n, lx').

(** [Lexer.identifier] *)
Fixpoint identifier_loop (fuel : nat) (acc : string) (lx : Lexer)
  : result (string * Lexer) :=
  match current_char lx with
  | Some c =>
      if isalnum c || Ascii.eqb c "_"%char then
        match fuel with
        | O => Diverge
        | S fuel' => identifier_loop fuel' (snoc acc c) (advance lx)
        end
      else Ok (acc, lx)
  | None => Ok (acc, lx)
  end.

Definition identifier (lx : Lexer) : result (string * Lexer) :=
  identifier_loop (remaining lx) EmptyString lx.

Definition char_is (oc : option ascii) (c : ascii) : bool :=
  match oc with
  | Some c' => Ascii.eqb c' c
  | None => false
  end.

(** [Lexer.get_next_token]: one pass of the [while] loop per [continue]. *)
Fixpoint get_next_token_loop (fuel : nat) (lx : Lexer)
  : result (Token * Lexer) :=
  match current_char lx with
  | None => Ok (TEOF, lx)
  | Some c =>
      if isspace c then
        match fuel with
        | O => Diverge
        | S fuel' =>
            let* lx' := skip_whitespace lx in
            get_next_token_loop fuel' lx'
        end
      else if isdigit c then
        let* (n, lx') := Lexer_number lx in Ok (TNumber n, lx')
      else if isalpha c || Ascii.eqb c "_"%char then
        let* (s, lx') := identifier lx in Ok (TIdentifier s, lx')
      else if Ascii.eqb c "+"%char then Ok (TPlus, advance lx)
      else if Ascii.eqb c "-"%char then Ok (TMinus, advance lx)
      else if Ascii.eqb c "*"%char then
        let lx1 := advance lx in
        if char_is (current_char lx1) "*"%char
        then Ok (TPower, advance lx1)
        else Ok (TMultiply, lx1)
      else if Ascii.eqb c "/"%char then Ok (TDivide, advance lx)
      else if Ascii.eqb c "="%char then Ok (TAssign, advance lx)
      else if Ascii.eqb c "("%char then Ok (TLParen, advance lx)
      else if Ascii.eqb c ")"%char then Ok (TRParen, advance lx)
      else Lexer_error lx
  end.

Definition get_next_token (lx : Lexer) : result (Token * Lexer) :=
  get_next_token_loop (remaining lx) lx.

(** ** Parser *)

(** The fields [lexer] and [current_token]; the field [variables] of the
    class is written once and never read. *)
Record Parser := {
  lexer : Lexer;
  current_token : Token
}.

(** [Parser.__init__] *)
Definition Parser_init (lx : Lexer) : result Parser :=
  let* (tok, lx') := get_next_token lx in
  Ok {| lexer := lx'; current_token := tok |}.

(** [Parser.error] *)
Definition Parser_error {A} (p : Parser) : result A :=
  Raise (UnexpectedToken (current_token p)).

(** [self.current_token = self.lexer.get_next_token()] *)
Definition next (p : Parser) : result Parser :=
  let* (tok, lx') := get_next_token (lexer p) in
  Ok {| lexer := lx'; current_token := tok |}.

(** [Parser.eat] *)
Definition eat (p : Parser) (token_type : TokenType) : result Parser :=
  if decide (type (current_token p) = token_type) then next p
  else Parser_error p.

(** [type in (a, b)] *)
Definition type_in (t a b : TokenType) : bool :=
  bool_decide (t = a) || bool_decide (t = b).

(** The rules of the grammar, one function per method; [term_loop] and
    [expr_loop] are the [while] loops of [term] and [expr]. Every call
    spends one unit of fuel. *)
Fixpoint factor (fuel : nat) (p : Parser) : result (ASTNode * Parser) :=
  match fuel with
  | O => Diverge
  | S fuel' =>
      let token := current_token p in
      match token with
      | TPlus =>
          let* p1 := eat p PLUS in
          let* (node, p2) := factor fuel' p1 in
          Ok (UnaryOp token node, p2)
      | TMinus =>
          let* p1 := eat p MINUS in
          let* (node, p2) := factor fuel' p1 in
          Ok (UnaryOp token node, p2)
      | TNumber value =>
          let* p1 := eat p NUMBER in
          Ok (Num value, p1)
      | TIdentifier value =>
          let* p1 := eat p IDENTIFIER in
          Ok (Var value, p1)
      | TLParen =>
          let* p1 := eat p LPAREN in
          let* (node, p2) := expr fuel' p1 in
          let* p3 := eat p2 RPAREN in
          Ok (node, p3)
      | _ => Parser_error p
      end
  end

with power (fuel : nat) (p : Parser) : result (ASTNode * Parser) :=
  match fuel with
  | O => Diverge
  | S fuel' =>
      let* (node, p1) := factor fuel' p in
      if decide (type (current_token p1) = POWER) then
        let token := current_token p1 in
        let* p2 := eat p1 POWER in
        let* (rhs, p3) := power fuel' p2 in
        Ok (BinaryOp node token rhs, p3)
      else Ok (node, p1)
  end

with term_loop (fuel : nat) (node : ASTNode) (p : Parser)
  : result (ASTNode * Parser) :=
  match fuel with
  | O => Diverge
  | S fuel' =>
      if type_in (type (current_token p)) MULTIPLY DIVIDE then
        let token := current_token p in
        let* p1 :=
          if decide (type token = MULTIPLY) then eat p MULTIPLY
          else if decide (type token = DIVIDE) then eat p DIVIDE
          else Ok p in
        let* (rhs, p2) := power fuel' p1 in
        term_loop fuel' (BinaryOp node token rhs) p2
      else Ok (node, p)
  end

with term (fuel : nat) (p : Parser) : result (ASTNode * Parser) :=
  match fuel with
  | O => Diverge
  | S fuel' =>
      let* (node, p1) := power fuel' p in
      term_loop fuel' node p1
  end

with expr_loop (fuel : nat) (node : ASTNode) (p : Parser)
  : result (ASTNode * Parser) :=
  match fuel with
  | O => Diverge
  | S fuel' =>
      if type_in (type (current_token p)) PLUS MINUS then
        let token := current_token p in
        let* p1 :=
          if decide (type token = PLUS) then eat p PLUS
          else if decide (type token = MINUS) then eat p MINUS
          else Ok p in
        let* (rhs, p2) := term fuel' p1 in
        expr_loop fuel' (BinaryOp node token rhs) p2
      else Ok (node, p)
  end

with expr (fuel : nat) (p : Parser) : result (ASTNode * Parser) :=
  match fuel with
  | O => Diverge
  | S fuel' =>
      let* (node, p1) := term fuel' p in
      expr_loop fuel' node p1
  end.

(** [Parser.assignment] *)
Fixpoint assignment (fuel : nat) (p : Parser) : result (ASTNode * Parser) :=
  match fuel with
  | O => Diverge
  | S fuel' =>
      let* (node, p1) := expr fuel' p in
      if is_Var node && bool_decide (type (current_token p1) = ASSIGN) then
        let* p2 := eat p1 ASSIGN in
        let* (rhs, p3) := assignment fuel' p2 in
        Ok (Assign node rhs, p3)
      else Ok (node, p1)
  end.

(** Fuel for a whole parse: four nested calls for each token left, the token
    in hand included, and the calls of the entry rule. *)
Definition parse_fuel (p : Parser) : nat :=
  4 * S (remaining (lexer p)) + 5.

(** [Parser.parse] *)
Definition parse (p : Parser) : result (ASTNode * Parser) :=
  assignment (parse_fuel p) p.

(** [Parser(Lexer(text)).parse()], as every caller in the program does. *)
Definition parse_text (s : string) : result (ASTNode * Parser) :=
  let* p := Parser_init (Lexer_init s) in
  parse p.

Definition parse_tree (s : string) : result ASTNode :=
  let* (tree, _) := parse_text s in Ok tree.

(** ** Interpreter *)

Definition lift_number (c : completion number) : completion value :=
  match c with
  | Returns n => Returns (Number n)
  | Raises e => Raises e
  end.

(** [a + b], [a - b], [a * b], [a / b], [a ** b] of Python. *)
Definition py_add (a b : value) : completion value :=
  match a, b with
  | Number (Int x), Number (Int y) => Returns (Number (Int (x + y)))
  | Number m, Number n => lift_number (host_arith PLUS m n)
  | _, _ => Raises TypeError
  end.

Definition py_sub (a b : value) : completion value :=
  match a, b with
  | Number (Int x), Number (Int y) => Returns (Number (Int (x - y)))
  | Number m, Number n => lift_number (host_arith MINUS m n)
  | _, _ => Raises TypeError
  end.

Definition py_mul (a b : value) : completion value :=
  match a, b with
  | Number (Int x), Number (Int y) => Returns (Number (Int (x * y)))
  | Number m, Number n => lift_number (host_arith MULTIPLY m n)
  | _, _ => Raises TypeError
  end.

Definition py_truediv (a b : value) : completion value :=
  match a, b with
  | Number (Int x), Number (Int y) =>
      if (y =? 0)%Z then Raises ZeroDivisionError
      else lift_number (host_arith DIVIDE (Int x) (Int y))
  | Number m, Number n => lift_number (host_arith DIVIDE m n)
  | _, _ => Raises TypeError
  end.

Definition py_pow (a b : value) : completion value :=
  match a, b with
  | Number (Int x), Number (Int y) =>
      if (0 <=? y)%Z then Returns (Number (Int (x ^ y)))
      else if (x =? 0)%Z then Raises ZeroDivisionError
      else lift_number (host_arith POWER (Int x) (Int y))
  | Number m, Number n => lift_number (host_arith POWER m n)
  | _, _ => Raises TypeError
  end.

(** [+a] and [-a] *)
Definition py_pos (a : value) : completion value :=
  match a with
  | Number n => Returns (Number n)
  | PyNone => Raises TypeError
  end.

Definition py_neg (a : value) : completion value :=
  match a with
  | Number (Int x) => Returns (Number (Int (- x)))
  | Number (Inexact x) => Returns (Number (Inexact (host_neg x)))
  | PyNone => Raises TypeError
  end.

(** A method of the interpreter: it reads and writes [self.variables], and
    the dictionary it leaves is there whether it returns or raises. *)
Definition eval (A : Type) : Type := env -> completion A * env.

Definition ret {A} (a : A) : eval A := fun vars => (Returns a, vars).

Definition raise {A} (e : exn) : eval A := fun vars => (Raises e, vars).

Definition ebind {A B} (m : eval A) (k : A -> eval B) : eval B :=
  fun vars =>
    match m vars with
    | (Returns a, vars') => k a vars'
    | (Raises e, vars') => (Raises e, vars')
    end.

Definition pure {A} (c : completion A) : eval A := fun vars => (c, vars).

Notation "'let!' x ':=' m 'in' k" := (ebind m (fun x => k))
  (at level 10, x pattern, m at level 100, k at level 200).

(** [Interpreter.visit_BinaryOp]: both operands are visited, the left one
    first, inside the branch of the operator. *)
Definition visit_BinaryOp (visit : ASTNode -> eval value)
  (left : ASTNode) (op : Token) (right : ASTNode) : eval value :=
  match type op with
  | PLUS =>
      let! a := visit left in let! b := visit right in pure (py_add a b)
  | MINUS =>
      let! a := visit left in let! b := visit right in pure (py_sub a b)
  | MULTIPLY =>
      let! a := visit left in let! b := visit right in pure (py_mul a b)
  | DIVIDE =>
      let! a := visit left in let! b := visit right in pure (py_truediv a b)
  | POWER =>
      let! a := visit left in let! b := visit right in pure (py_pow a b)
  | _ => ret PyNone
  end.

(** [Interpreter.visit_UnaryOp] *)
Definition visit_UnaryOp (visit : ASTNode -> eval value)
  (op : Token) (expr : ASTNode) : eval value :=
  match type op with
  | PLUS => let! a := visit expr in pure (py_pos a)
  | MINUS => let! a := visit expr in pure (py_neg a)
  | _ => ret PyNone
  end.

(** [Interpreter.visit_Num] *)
Definition visit_Num (n : number) : eval value := ret (Number n).

(** [Interpreter.visit_Var] *)
Definition visit_Var (var_name : string) : eval value :=
  fun vars =>
    match vars !! var_name with
    | Some v => (Returns v, vars)
    | None => (Raises (NameError var_name), vars)
    end.

(** [self.variables[var_name] = value] *)
Definition store (var_name : string) (v : value) : eval unit :=
  fun vars => (Returns tt, <[var_name := v]> vars).

(** [Interpreter.visit_Assign]. [node.left.value] is the name of a [Var];
    on a [Num] it is a number, and the entry written under that key is not
    among the [str] keys; the other nodes have no attribute [value]. *)
Definition visit_Assign (visit : ASTNode -> eval value)
  (left right : ASTNode) : eval value :=
  match left with
  | Var var_name =>
      let! v := visit right in
      let! _ := store var_name v in
      ret v
  | Num _ => visit right
  | _ => raise AttributeError
  end.

(** [Interpreter.visit]: the method looked up by the name of the node's
    class; each of the five classes has one. *)
Fixpoint visit (node : ASTNode) : eval value :=
  match node with
  | BinaryOp l op r => visit_BinaryOp visit l op r
  | UnaryOp op e => visit_UnaryOp visit op e
  | Num n => visit_Num n
  | Var name => visit_Var name
  | Assign l r => visit_Assign visit l r
  end.

(** [Interpreter.interpret] *)
Definition interpret (tree : ASTNode) : eval value := visit tree.

(** Parse a text and interpret its tree in a given dictionary, as the
    demonstration and the interactive loop do; [None] when the parse does
    not return a tree. *)
Definition run (s : string) (vars : env) : option (completion value * env) :=
  match parse_tree s with
  | Ok tree => Some (interpret tree vars)
  | _ => None
  end.

End Program.

Notation "'let!' x ':=' m 'in' k" := (ebind m (fun x => k))
  (at level 10, x pattern, m at level 100, k at level 200).

(** * Specification

    The notions the properties below are stated with. *)

Section Specification.

Context {numbers : HostNumbers} {host : Host}.

(** The tree has an [Assign] node. *)
Fixpoint has_Assign (node : ASTNode) : bool :=
  match node with
  | BinaryOp l _ r => has_Assign l || has_Assign r
  | UnaryOp _ e => has_Assign e
  | Num _ | Var _ => false
  | Assign _ _ => true
  end.

(** Every [Assign] node of the tree has a [Var] as its left child. *)
Fixpoint targets_are_variables (node : ASTNode) : bool :=
  match node with
  | BinaryOp l _ r => targets_are_variables l && targets_are_variables r
  | UnaryOp _ e => targets_are_variables e
  | Num _ | Var _ => true
  | Assign l r =>
      is_Var l && targets_are_variables l && targets_are_variables r
  end.

(** The shape of what [assignment] builds: variables assigned in a chain,
    and at its end a tree without [Assign]. *)
Fixpoint assignment_chain (node : ASTNode) : bool :=
  match node with
  | Assign (Var _) r => assignment_chain r
  | _ => negb (has_Assign node)
  end.

(** The writes of the [Assign] nodes completed while [node] is visited in
    [vars], oldest first: an [Assign] counts once its value expression has
    returned, and a node is reached only if what is visited before it has
    returned. *)
Fixpoint completed_assignments (node : ASTNode) (vars : env)
  : list (string * value) :=
  match node with
  | BinaryOp l op r =>
      match type op with
      | PLUS | MINUS | MULTIPLY | DIVIDE | POWER =>
          completed_assignments l vars ++
          match visit l vars with
          | (Returns _, vars1) => completed_assignments r vars1
          | (Raises _, _) => []
          end
      | _ => []
      end
  | UnaryOp op e =>
      match type op with
      | PLUS | MINUS => completed_assignments e vars
      | _ => []
      end
  | Num _ | Var _ => []
  | Assign (Var name) r =>
      completed_assignments r vars ++
      match visit r vars with
      | (Returns v, _) => [(name, v)]
      | (Raises _, _) => []
      end
  | Assign (Num _) r => completed_assignments r vars
  | Assign _ _ => []
  end.

(** The names an [Assign] node of the tree can write. *)
Fixpoint assigned_names (node : ASTNode) : list string :=
  match node with
  | BinaryOp l _ r => assigned_names l ++ assigned_names r
  | UnaryOp _ e => assigned_names e
  | Num _ | Var _ => []
  | Assign (Var name) r => name :: assigned_names r
  | Assign _ r => assigned_names r
  end.

(** The dictionary after a list of writes. *)
Definition write_all (writes : list (string * value)) (vars : env) : env :=
  fold_left (fun m w => <[fst w := snd w]> m) writes vars.

(** Every character of the text is white space. *)
Fixpoint all_space (s : string) : bool :=
  match s with
  | EmptyString => true
  | String c s' => isspace c && all_space s'
  end.

(** The tokens the parser will be handed after the one it holds. *)
Fixpoint ahead (tokens : list Token) (p : Parser) : Prop :=
  match tokens with
  | [] => True
  | tok :: tokens' =>
      exists p', next p = Ok p' /\ current_token p' = tok /\ ahead tokens' p'
  end.

(** The parser holds the first of [tokens] and will be handed the rest. *)
Definition reads (tokens : list Token) (p : Parser) : Prop :=
  match tokens with
  | [] => True
  | tok :: tokens' => current_token p = tok /\ ahead tokens' p
  end.

(** The text is lexed to these tokens, the first of them by the
    construction of the parser: [Parser(Lexer(s))]. *)
Definition lexes_to (s : string) (tokens : list Token) : Prop :=
  exists p, Parser_init (Lexer_init s) = Ok p /\ reads tokens p.

(** The operators by level of precedence. *)
Definition multiplicative (tok : Token) : bool :=
  type_in (type tok) MULTIPLY DIVIDE.

Definition additive (tok : Token) : bool :=
  type_in (type tok) PLUS MINUS.

Definition is_power (tok : Token) : bool := bool_decide (type tok = POWER).

Definition arithmetic (tok : Token) : bool :=
  multiplicative tok || additive tok || is_power tok.

(** A rule recognises [tokens] as [node]: run on a parser that reads
    [tokens] and then a token [t] that [follow] admits, it returns [node]
    and stops at [t]. *)
Definition recognises
  (rule : nat -> Parser -> result (ASTNode * Parser))
  (follow : Token -> bool) (tokens : list Token) (node : ASTNode) : Prop :=
  forall p t rest,
    follow t = true -> reads (tokens ++ t :: rest) p ->
    exists fuel p', rule fuel p = Ok (node, p') /\ reads (t :: rest) p'.

(** An operand of a chain: the tokens it is spelled with and the tree
    built from them. *)
Record operand := {
  spelled : list Token;
  built : ASTNode
}.

(** The operands by the rule that parses them, each with the tokens that
    end it: a factor ends anywhere, a power before anything but [**], a
    term before anything but [**], [*] and [/], an expression before
    anything but an arithmetic operator. *)
Definition a_factor (a : operand) : Prop :=
  recognises factor (fun _ => true) (spelled a) (built a).

Definition a_power (a : operand) : Prop :=
  recognises power (fun t => negb (is_power t)) (spelled a) (built a).

Definition a_term (a : operand) : Prop :=
  recognises term (fun t => negb (is_power t || multiplicative t))
    (spelled a) (built a).

Definition an_expr (a : operand) : Prop :=
  recognises expr (fun t => negb (arithmetic t)) (spelled a) (built a).

(** An operand that is one token, a number or an identifier, and the tree
    [factor] builds from it. *)
Definition is_operand (tok : Token) : bool :=
  match tok with
  | TNumber _ | TIdentifier _ => true
  | _ => false
  end.

Definition leaf (tok : Token) : ASTNode :=
  match tok with
  | TIdentifier name => Var name
  | TNumber n => Num n
  | _ => Num (Int 0)
  end.

Definition atom (tok : Token) : operand :=
  {| spelled := [tok]; built := leaf tok |}.

(** [a op1 b op2 c ...] as tokens: the first operand, then the pairs of an
    operator and an operand. *)
Definition chain_rest (rest : list (Token * operand)) : list Token :=
  flat_map (fun ob => fst ob :: spelled (snd ob)) rest.

Definition chain_tokens (a : operand) (rest : list (Token * operand))
  : list Token :=
  spelled a ++ chain_rest rest.

(** Every operator of the chain is of the given level and every operand of
    the given kind. *)
Definition chain_of (level : Token -> bool) (kind : operand -> Prop)
  (a : operand) (rest : list (Token * operand)) : Prop :=
  kind a /\ Forall (fun ob => level (fst ob) = true /\ kind (snd ob)) rest.

(** The tree that groups a chain from the left: [(a op1 b) op2 c]. *)
Definition left_fold (a : ASTNode) (rest : list (Token * operand))
  : ASTNode :=
  fold_left (fun acc ob => BinaryOp acc (fst ob) (built (snd ob))) rest a.

(** The tree that groups a chain from the right: [a op1 (b op2 c)]. *)
Fixpoint right_fold (a : ASTNode) (rest : list (Token * operand))
  : ASTNode :=
  match rest with
  | [] => a
  | (op, b) :: rest' => BinaryOp a op (right_fold (built b) rest')
  end.

(** [x1 = x2 = ... =] as tokens, and the assignments nested to the right
    around the tree of the value: [x1 = (x2 = (... = value))]. *)
Definition assign_tokens (names : list string) : list Token :=
  flat_map (fun name => [TIdentifier name; TAssign]) names.

Definition assign_right (names : list string) (node : ASTNode) : ASTNode :=
  fold_right (fun name acc => Assign (Var name) acc) node names.

(** The operation an operator token stands for. *)
Definition apply_op (op : Token) (x y : value) : completion value :=
  match type op with
  | PLUS => py_add x y
  | MINUS => py_sub x y
  | MULTIPLY => py_mul x y
  | DIVIDE => py_truediv x y
  | POWER => py_pow x y
  | _ => Returns PyNone
  end.

(** A chain evaluated from left to right: the value so far, then the next
    operand, then the operation on the two. *)
Definition eval_left_to_right
  (a : eval value) (rest : list (Token * operand)) : eval value :=
  fold_left
    (fun acc ob =>
       let! x := acc in
       let! y := visit (built (snd ob)) in
       pure (apply_op (fst ob) x y))
    rest a.

End Specification.

(** * Properties *)

Section Properties.

Context {numbers : HostNumbers} {host : Host}.

(** ** Outcomes *)

Lemma bind_Ok {E A B} (m : outcome E A) (k : A -> outcome E B) (b : B) :
  bind m k = Ok b <-> exists a, m = Ok a /\ k a = Ok b.
Proof.
  destruct m as [a| |]; simpl; split.
  - intros H. exists a. split; [reflexivity|exact H].
  - intros (a' & Ha & Hk). inversion Ha. subst a'. exact Hk.
  - discriminate.
  - intros (a' & Ha & _). discriminate Ha.
  - discriminate.
  - intros (a' & Ha & _). discriminate Ha.
Qed.

(** ** Lexer: the cursor and the character in hand *)

Definition wf_lexer (lx : Lexer) : Prop :=
  current_char lx = String.get (pos lx) (text lx).

Lemma get_None_ge (s : string) (n : nat) :
  String.get n s = None <-> String.length s <= n.
Proof.
  revert n. induction s as [|c s IH]; intros n; simpl.
  - split; [lia|reflexivity].
  - destruct n as [|n].
    + split; [discriminate|lia].
    + rewrite IH. lia.
Qed.

Lemma Lexer_init_wf (s : string) : wf_lexer (Lexer_init s).
Proof. unfold wf_lexer. destruct s; reflexivity. Qed.

Lemma wf_Some_lt (lx : Lexer) (c : ascii) :
  wf_lexer lx -> current_char lx = Some c -> pos lx < String.length (text lx).
Proof.
  unfold wf_lexer. intros Hwf Hc.
  destruct (Nat.lt_ge_cases (pos lx) (String.length (text lx))) as [H|H];
    [exact H|].
  apply get_None_ge in H. congruence.
Qed.

Lemma advance_text (lx : Lexer) : text (advance lx) = text lx.
Proof. unfold advance. destruct (_ <=? _); reflexivity. Qed.

Lemma advance_pos (lx : Lexer) : pos (advance lx) = pos lx + 1.
Proof. unfold advance. destruct (_ <=? _); reflexivity. Qed.

Lemma advance_wf (lx : Lexer) : wf_lexer (advance lx).
Proof.
  unfold wf_lexer, advance.
  destruct (String.length (text lx) <=? pos lx + 1) eqn:E; simpl.
  - symmetry. apply get_None_ge. apply Nat.leb_le. exact E.
  - reflexivity.
Qed.

Lemma advance_remaining (lx : Lexer) (c : ascii) :
  wf_lexer lx -> current_char lx = Some c ->
  S (remaining (advance lx)) = remaining lx.
Proof.
  intros Hwf Hc. pose proof (wf_Some_lt lx c Hwf Hc) as Hlt.
  unfold remaining. rewrite advance_text, advance_pos. lia.
Qed.

(** What a call of the lexer leaves behind: the same text, a cursor that
    agrees with the character in hand, and no more characters to read than
    before. *)
Definition lexer_step (lx lx' : Lexer) : Prop :=
  wf_lexer lx' /\ text lx' = text lx /\ remaining lx' <= remaining lx.

Lemma lexer_step_refl (lx : Lexer) : wf_lexer lx -> lexer_step lx lx.
Proof. intros H. repeat split; [exact H|lia]. Qed.

Lemma lexer_step_advance (lx lx' : Lexer) (c : ascii) :
  wf_lexer lx -> current_char lx = Some c ->
  lexer_step (advance lx) lx' ->
  lexer_step lx lx' /\ remaining lx' < remaining lx.
Proof.
  intros Hwf Hc (Hwf' & Ht & Hr).
  pose proof (advance_remaining lx c Hwf Hc) as Hs.
  rewrite advance_text in Ht.
  repeat split; [exact Hwf'|exact Ht|lia|lia].
Qed.

Lemma skip_whitespace_loop_ok (fuel : nat) (lx : Lexer) :
  wf_lexer lx -> remaining lx <= fuel ->
  exists lx', skip_whitespace_loop fuel lx = Ok lx' /\ lexer_step lx lx' /\
    forall c, current_char lx' = Some c -> isspace c = false.
Proof.
  revert lx. induction fuel as [|fuel IH]; intros lx Hwf Hfuel.
  - simpl. destruct (current_char lx) as [c|] eqn:Hc.
    + pose proof (advance_remaining lx c Hwf Hc). lia.
    + exists lx. split; [reflexivity|]. split; [apply lexer_step_refl; exact Hwf|].
      intros c Hc'. congruence.
  - simpl. destruct (current_char lx) as [c|] eqn:Hc.
    + destruct (isspace c) eqn:Hsp.
      * pose proof (advance_remaining lx c Hwf Hc) as Hs.
        destruct (IH (advance lx) (advance_wf lx)) as (lx' & Hrun & Hstep & Hns);
          [lia|].
        exists lx'. split; [exact Hrun|]. split; [|exact Hns].
        apply (lexer_step_advance lx lx' c Hwf Hc Hstep).
      * exists lx. split; [reflexivity|].
        split; [apply lexer_step_refl; exact Hwf|].
        intros c' Hc'. congruence.
    + exists lx. split; [reflexivity|].
      split; [apply lexer_step_refl; exact Hwf|].
      intros c Hc'. congruence.
Qed.

Lemma number_loop_ok (fuel : nat) (acc : string) (lx : Lexer) :
  wf_lexer lx -> remaining lx <= fuel ->
  exists s lx', number_loop fuel acc lx = Ok (s, lx') /\ lexer_step lx lx' /\
    forall c, current_char lx = Some c -> isdigit c = true ->
              remaining lx' < remaining lx.
Proof.
  revert acc lx. induction fuel as [|fuel IH]; intros acc lx Hwf Hfuel.
  - simpl. destruct (current_char lx) as [c|] eqn:Hc.
    + pose proof (advance_remaining lx c Hwf Hc). lia.
    + exists acc, lx. split; [reflexivity|].
      split; [apply lexer_step_refl; exact Hwf|]. intros c Hc'. congruence.
  - simpl. destruct (current_char lx) as [c|] eqn:Hc.
    + destruct (isdigit c || Ascii.eqb c ".") eqn:Hcond.
      * pose proof (advance_remaining lx c Hwf Hc) as Hs.
        destruct (IH (snoc acc c) (advance lx) (advance_wf lx))
          as (s & lx' & Hrun & Hstep & _); [lia|].
        exists s, lx'. split; [exact Hrun|].
        destruct (lexer_step_advance lx lx' c Hwf Hc Hstep) as [H1 H2].
        split; [exact H1|]. intros _ _ _. exact H2.
      * exists acc, lx. split; [reflexivity|].
        split; [apply lexer_step_refl; exact Hwf|].
        intros c' Hc' Hd. inversion Hc'. subst c'.
        rewrite Hd in Hcond. discriminate Hcond.
    + exists acc, lx. split; [reflexivity|].
      split; [apply lexer_step_refl; exact Hwf|]. intros c Hc'. congruence.
Qed.

Lemma identifier_loop_ok (fuel : nat) (acc : string) (lx : Lexer) :
  wf_lexer lx -> remaining lx <= fuel ->
  exists s lx', identifier_loop fuel acc lx = Ok (s, lx') /\
    lexer_step lx lx' /\
    forall c, current_char lx = Some c ->
              isalpha c || Ascii.eqb c "_" = true ->
              remaining lx' < remaining lx.
Proof.
  revert acc lx. induction fuel as [|fuel IH]; intros acc lx Hwf Hfuel.
  - simpl. destruct (current_char lx) as [c|] eqn:Hc.
    + pose proof (advance_remaining lx c Hwf Hc). lia.
    + exists acc, lx. split; [reflexivity|].
      split; [apply lexer_step_refl; exact Hwf|]. intros c Hc'. congruence.
  - simpl. destruct (current_char lx) as [c|] eqn:Hc.
    + destruct (isalnum c || Ascii.eqb c "_") eqn:Hcond.
      * pose proof (advance_remaining lx c Hwf Hc) as Hs.
        destruct (IH (snoc acc c) (advance lx) (advance_wf lx))
          as (s & lx' & Hrun & Hstep & _); [lia|].
        exists s, lx'. split; [exact Hrun|].
        destruct (lexer_step_advance lx lx' c Hwf Hc Hstep) as [H1 H2].
        split; [exact H1|]. intros _ _ _. exact H2.
      * exists acc, lx. split; [reflexivity|].
        split; [apply lexer_step_refl; exact Hwf|].
        intros c' Hc' Hd. inversion Hc'. subst c'.
        unfold isalnum in Hcond.
        apply orb_true_iff in Hd. destruct Hd as [Hd|Hd].
        -- rewrite Hd in Hcond. discriminate Hcond.
        -- rewrite Hd in Hcond. rewrite orb_true_r in Hcond.
           discriminate Hcond.
    + exists acc, lx. split; [reflexivity|].
      split; [apply lexer_step_refl; exact Hwf|]. intros c Hc'. congruence.
Qed.

Lemma lexer_step_advance1 (lx : Lexer) (c : ascii) :
  wf_lexer lx -> current_char lx = Some c ->
  lexer_step lx (advance lx) /\ remaining (advance lx) < remaining lx.
Proof.
  intros Hwf Hc. apply (lexer_step_advance lx (advance lx) c Hwf Hc).
  apply lexer_step_refl. apply advance_wf.
Qed.

Lemma lexer_step_trans (a b c : Lexer) :
  lexer_step a b -> lexer_step b c -> lexer_step a c.
Proof.
  intros (_ & Ht1 & Hr1) (Hwf & Ht2 & Hr2).
  repeat split; [exact Hwf|congruence|lia].
Qed.

(** What [get_next_token] answers: never [Diverge]; and a token other than
    EOF has used up at least one character. *)
Definition token_step (lx : Lexer) (r : result (Token * Lexer)) : Prop :=
  match r with
  | Ok (tok, lx') =>
      lexer_step lx lx' /\ (type tok <> EOF -> remaining lx' < remaining lx)
  | Raise _ => True
  | Diverge => False
  end.

Lemma char_is_Some (oc : option ascii) (c : ascii) :
  char_is oc c = true -> oc = Some c.
Proof.
  destruct oc as [c'|]; simpl; [|discriminate].
  intros H. apply Ascii.eqb_eq in H. congruence.
Qed.

Lemma number_of_text_defined (s : string) : number_of_text s <> Diverge.
Proof.
  unfold number_of_text.
  destruct (has_dot s); [destruct (float_of_text s)|destruct (int_of_text s)];
    discriminate.
Qed.

Lemma get_next_token_loop_nonspace (fuel : nat) (lx : Lexer) :
  wf_lexer lx ->
  (forall c, current_char lx = Some c -> isspace c = false) ->
  token_step lx (get_next_token_loop fuel lx).
Proof.
  intros Hwf Hns.
  assert (Hone : forall tok c, current_char lx = Some c ->
            token_step lx (Ok (tok, advance lx))).
  { intros tok c Hc. simpl.
    destruct (lexer_step_advance1 lx c Hwf Hc) as [H1 H2].
    split; [exact H1|]. intros _. exact H2. }
  destruct fuel as [|fuel]; simpl;
    (destruct (current_char lx) as [c|] eqn:Hc;
     [|simpl; split; [apply lexer_step_refl; exact Hwf|];
       intros H; exfalso; apply H; reflexivity]);
    (rewrite (Hns c eq_refl));
    (destruct (isdigit c) eqn:Hdig;
     [unfold Lexer_number;
      destruct (number_loop_ok (remaining lx) EmptyString lx Hwf (le_n _))
        as (s & lx' & -> & Hstep & Hlt); simpl;
      pose proof (number_of_text_defined s) as Hdef;
      destruct (number_of_text s) as [n| |]; simpl;
      [split; [exact Hstep|]; intros _; apply (Hlt c Hc Hdig)
      |exact I
      |apply Hdef; reflexivity]
     |]);
    (destruct (isalpha c || Ascii.eqb c "_") eqn:Hal;
     [unfold identifier;
      destruct (identifier_loop_ok (remaining lx) EmptyString lx Hwf (le_n _))
        as (s & lx' & -> & Hstep & Hlt); simpl;
      split; [exact Hstep|]; intros _; apply (Hlt c Hc Hal)
     |]);
    (destruct (Ascii.eqb c "+"); [apply (Hone _ c eq_refl)|]);
    (destruct (Ascii.eqb c "-"); [apply (Hone _ c eq_refl)|]);
    (destruct (Ascii.eqb c "*");
     [destruct (char_is (current_char (advance lx)) "*") eqn:Hstar;
      [apply char_is_Some in Hstar;
       destruct (lexer_step_advance1 lx c Hwf Hc) as [H1 H2];
       destruct (lexer_step_advance1 (advance lx) "*" (advance_wf lx) Hstar)
         as [H3 H4];
       simpl; split; [apply (lexer_step_trans _ _ _ H1 H3)|intros _; lia]
      |apply (Hone _ c eq_refl)]
     |]);
    (destruct (Ascii.eqb c "/"); [apply (Hone _ c eq_refl)|]);
    (destruct (Ascii.eqb c "="); [apply (Hone _ c eq_refl)|]);
    (destruct (Ascii.eqb c "("); [apply (Hone _ c eq_refl)|]);
    (destruct (Ascii.eqb c ")"); [apply (Hone _ c eq_refl)|]);
    exact I.
Qed.

Lemma token_step_trans (a b : Lexer) (r : result (Token * Lexer)) :
  lexer_step a b -> token_step b r -> token_step a r.
Proof.
  intros Hab. destruct r as [[tok lx']| |]; simpl; [|exact id|exact id].
  intros [Hstep Hlt]. split; [apply (lexer_step_trans _ _ _ Hab Hstep)|].
  intros Hne. destruct Hab as (_ & _ & Hr). specialize (Hlt Hne). lia.
Qed.

Lemma get_next_token_ok (lx : Lexer) :
  wf_lexer lx -> token_step lx (get_next_token lx).
Proof.
  intros Hwf. unfold get_next_token.
  destruct (current_char lx) as [c|] eqn:Hc.
  - destruct (isspace c) eqn:Hsp.
    + pose proof (advance_remaining lx c Hwf Hc) as Hs.
      rewrite <- Hs. simpl. rewrite Hc, Hsp. unfold skip_whitespace.
      destruct (skip_whitespace_loop_ok (remaining lx) lx Hwf (le_n _))
        as (lx1 & -> & Hstep & Hns).
      simpl. apply (token_step_trans lx lx1); [exact Hstep|].
      apply get_next_token_loop_nonspace; [apply Hstep|exact Hns].
    + apply get_next_token_loop_nonspace; [exact Hwf|].
      intros c' Hc'. congruence.
  - apply get_next_token_loop_nonspace; [exact Hwf|].
    intros c' Hc'. congruence.
Qed.

(** ** Parser: termination *)

(** A property of what a call answers when it returns, with [Diverge]
    excluded. *)
Definition holds {A} (Q : A -> Prop) (r : result A) : Prop :=
  match r with
  | Ok a => Q a
  | Raise _ => True
  | Diverge => False
  end.

Lemma holds_bind {A B} (Q1 : A -> Prop) (Q : B -> Prop)
  (m : result A) (k : A -> result B) :
  holds Q1 m -> (forall a, m = Ok a -> Q1 a -> holds Q (k a)) ->
  holds Q (bind m k).
Proof.
  destruct m as [a| |]; simpl; intros H1 Hk;
    [apply (Hk a eq_refl H1)|exact I|exact H1].
Qed.

Lemma holds_weaken {A} (Q1 Q2 : A -> Prop) (r : result A) :
  (forall a, Q1 a -> Q2 a) -> holds Q1 r -> holds Q2 r.
Proof. intros HQ. destruct r; simpl; [apply HQ|exact id|exact id]. Qed.

Lemma holds_defined {A} (Q : A -> Prop) (r : result A) :
  holds Q r -> r <> Diverge.
Proof. destruct r; simpl; [discriminate|discriminate|intros []]. Qed.

Definition wf_parser (p : Parser) : Prop := wf_lexer (lexer p).

(** The tokens left to parse are at most [size p]: the token in hand unless
    it is EOF, and one for each character not yet read. *)
Definition size (p : Parser) : nat :=
  (if decide (type (current_token p) = EOF) then 0 else 1)
  + remaining (lexer p).

Lemma eat_next (p : Parser) (ty : TokenType) :
  type (current_token p) = ty -> eat p ty = next p.
Proof. intros H. unfold eat, next. rewrite decide_True by exact H. reflexivity. Qed.

Lemma next_ok (p : Parser) :
  wf_parser p -> type (current_token p) <> EOF ->
  holds (fun p' => wf_parser p' /\ size p' < size p) (next p).
Proof.
  intros Hwf Hne. unfold next.
  pose proof (get_next_token_ok (lexer p) Hwf) as Hstep.
  destruct (get_next_token (lexer p)) as [[tok lx']| |]; simpl in *;
    [|exact I|exact Hstep].
  destruct Hstep as [(Hwf' & _ & Hle) Hlt].
  split; [exact Hwf'|]. unfold size; simpl.
  rewrite (decide_False (P := type (current_token p) = EOF)) by exact Hne.
  destruct (decide (type tok = EOF)) as [_|Hn]; [lia|].
  specialize (Hlt Hn). lia.
Qed.

Lemma eat_ok (p : Parser) (ty : TokenType) :
  wf_parser p -> ty <> EOF ->
  holds (fun p' => wf_parser p' /\ size p' < size p) (eat p ty).
Proof.
  intros Hwf Hne. unfold eat.
  destruct (decide (type (current_token p) = ty)) as [Heq|_]; [|exact I].
  apply next_ok; [exact Hwf|congruence].
Qed.

Lemma factor_S (fuel : nat) (p : Parser) :
  factor (S fuel) p =
  match current_token p with
  | TPlus =>
      let* p1 := eat p PLUS in
      let* (node, p2) := factor fuel p1 in
      Ok (UnaryOp (current_token p) node, p2)
  | TMinus =>
      let* p1 := eat p MINUS in
      let* (node, p2) := factor fuel p1 in
      Ok (UnaryOp (current_token p) node, p2)
  | TNumber value => let* p1 := eat p NUMBER in Ok (Num value, p1)
  | TIdentifier value => let* p1 := eat p IDENTIFIER in Ok (Var value, p1)
  | TLParen =>
      let* p1 := eat p LPAREN in
      let* (node, p2) := expr fuel p1 in
      let* p3 := eat p2 RPAREN in
      Ok (node, p3)
  | _ => Parser_error p
  end.
Proof. reflexivity. Qed.

Lemma power_S (fuel : nat) (p : Parser) :
  power (S fuel) p =
  let* (node, p1) := factor fuel p in
  if decide (type (current_token p1) = POWER) then
    let* p2 := eat p1 POWER in
    let* (rhs, p3) := power fuel p2 in
    Ok (BinaryOp node (current_token p1) rhs, p3)
  else Ok (node, p1).
Proof. reflexivity. Qed.

Lemma term_loop_S (fuel : nat) (node : ASTNode) (p : Parser) :
  term_loop (S fuel) node p =
  if type_in (type (current_token p)) MULTIPLY DIVIDE then
    let* p1 :=
      if decide (type (current_token p) = MULTIPLY) then eat p MULTIPLY
      else if decide (type (current_token p) = DIVIDE) then eat p DIVIDE
      else Ok p in
    let* (rhs, p2) := power fuel p1 in
    term_loop fuel (BinaryOp node (current_token p) rhs) p2
  else Ok (node, p).
Proof. reflexivity. Qed.

Lemma term_S (fuel : nat) (p : Parser) :
  term (S fuel) p =
  let* (node, p1) := power fuel p in term_loop fuel node p1.
Proof. reflexivity. Qed.

Lemma expr_loop_S (fuel : nat) (node : ASTNode) (p : Parser) :
  expr_loop (S fuel) node p =
  if type_in (type (current_token p)) PLUS MINUS then
    let* p1 :=
      if decide (type (current_token p) = PLUS) then eat p PLUS
      else if decide (type (current_token p) = MINUS) then eat p MINUS
      else Ok p in
    let* (rhs, p2) := term fuel p1 in
    expr_loop fuel (BinaryOp node (current_token p) rhs) p2
  else Ok (node, p).
Proof. reflexivity. Qed.

Lemma expr_S (fuel : nat) (p : Parser) :
  expr (S fuel) p =
  let* (node, p1) := term fuel p in expr_loop fuel node p1.
Proof. reflexivity. Qed.

Lemma assignment_S (fuel : nat) (p : Parser) :
  assignment (S fuel) p =
  let* (node, p1) := expr fuel p in
  if is_Var node && bool_decide (type (current_token p1) = ASSIGN) then
    let* p2 := eat p1 ASSIGN in
    let* (rhs, p3) := assignment fuel p2 in
    Ok (Assign node rhs, p3)
  else Ok (node, p1).
Proof. reflexivity. Qed.

Lemma type_in_cases (t a b : TokenType) :
  type_in t a b = true -> t = a \/ t = b.
Proof.
  unfold type_in. intros H. apply orb_true_iff in H.
  destruct H as [H|H]; apply bool_decide_eq_true in H; auto.
Qed.

(** The operator a loop has just tested for is eaten under its own type. *)
Lemma loop_eat (p : Parser) (a b : TokenType) :
  type_in (type (current_token p)) a b = true ->
  (if decide (type (current_token p) = a) then eat p a
   else if decide (type (current_token p) = b) then eat p b
   else Ok p) = next p.
Proof.
  intros H. apply type_in_cases in H.
  destruct (decide (type (current_token p) = a)) as [Ha|Ha];
    [apply eat_next; exact Ha|].
  destruct (decide (type (current_token p) = b)) as [Hb|Hb];
    [apply eat_next; exact Hb|].
  destruct H; contradiction.
Qed.

(** A rule that returns leaves a well-formed parser with fewer than [n]
    tokens to go; and it does not run out of fuel. *)
Definition parsed (n : nat) (r : result (ASTNode * Parser)) : Prop :=
  holds (fun a => wf_parser (snd a) /\ size (snd a) < n) r.

Ltac step_next :=
  eapply holds_bind;
  [ first [ apply eat_ok; [assumption|discriminate]
          | apply next_ok; [assumption|congruence] ]
  | let H := fresh in
    intros ?p _ H; cbv beta in H; destruct H as [? ?] ].

Ltac step_call IH :=
  eapply holds_bind;
  [ apply IH; [assumption|lia]
  | let H := fresh in
    intros [?node ?p] _ H; cbv beta in H; destruct H as [? ?]; simpl in * ].

Lemma rules_terminate (fuel : nat) :
  (forall p, wf_parser p -> 4 * size p + 1 <= fuel ->
             parsed (size p) (factor fuel p)) /\
  (forall p, wf_parser p -> 4 * size p + 2 <= fuel ->
             parsed (size p) (power fuel p)) /\
  (forall node p, wf_parser p -> 4 * size p + 1 <= fuel ->
             parsed (S (size p)) (term_loop fuel node p)) /\
  (forall p, wf_parser p -> 4 * size p + 3 <= fuel ->
             parsed (size p) (term fuel p)) /\
  (forall node p, wf_parser p -> 4 * size p + 1 <= fuel ->
             parsed (S (size p)) (expr_loop fuel node p)) /\
  (forall p, wf_parser p -> 4 * size p + 4 <= fuel ->
             parsed (size p) (expr fuel p)).
Proof.
  induction fuel as [|fuel (IHf & IHp & IHtl & IHt & IHel & IHe)].
  { repeat split; intros; lia. }
  unfold parsed in *.
  split; [|split; [|split; [|split; [|split]]]].
  - intros p Hwf Hfuel. rewrite factor_S.
    destruct (current_token p) eqn:Htok; try exact I.
    + step_next. simpl. split; [assumption|lia].
    + step_next. simpl. split; [assumption|lia].
    + step_next. step_call IHf. split; [assumption|lia].
    + step_next. step_call IHf. split; [assumption|lia].
    + step_next. step_call IHe. step_next. simpl. split; [assumption|lia].
  - intros p Hwf Hfuel. rewrite power_S.
    step_call IHp || step_call IHf.
    destruct (decide (type (current_token p0) = POWER)) as [Hpow|_].
    + step_next. step_call IHp. split; [assumption|lia].
    + simpl. split; [assumption|lia].
  - intros node p Hwf Hfuel. rewrite term_loop_S.
    destruct (type_in _ _ _) eqn:Hin; [|simpl; split; [assumption|lia]].
    rewrite (loop_eat _ _ _ Hin).
    assert (type (current_token p) <> EOF)
      by (apply type_in_cases in Hin; destruct Hin; congruence).
    step_next. step_call IHp.
    apply (holds_weaken (fun a => wf_parser (snd a) /\ size (snd a) < S (size p1)));
      [intros a [? ?]; split; [assumption|lia]|].
    apply IHtl; [assumption|lia].
  - intros p Hwf Hfuel. rewrite term_S.
    step_call IHp.
    apply (holds_weaken (fun a => wf_parser (snd a) /\ size (snd a) < S (size p0)));
      [intros a [? ?]; split; [assumption|lia]|].
    apply IHtl; [assumption|lia].
  - intros node p Hwf Hfuel. rewrite expr_loop_S.
    destruct (type_in _ _ _) eqn:Hin; [|simpl; split; [assumption|lia]].
    rewrite (loop_eat _ _ _ Hin).
    assert (type (current_token p) <> EOF)
      by (apply type_in_cases in Hin; destruct Hin; congruence).
    step_next. step_call IHt.
    apply (holds_weaken (fun a => wf_parser (snd a) /\ size (snd a) < S (size p1)));
      [intros a [? ?]; split; [assumption|lia]|].
    apply IHel; [assumption|lia].
  - intros p Hwf Hfuel. rewrite expr_S.
    step_call IHt.
    apply (holds_weaken (fun a => wf_parser (snd a) /\ size (snd a) < S (size p0)));
      [intros a [? ?]; split; [assumption|lia]|].
    apply IHel; [assumption|lia].
Qed.

Lemma assignment_terminates (fuel : nat) (p : Parser) :
  wf_parser p -> 4 * size p + 5 <= fuel ->
  parsed (size p) (assignment fuel p).
Proof.
  revert p. induction fuel as [|fuel IH]; intros p Hwf Hfuel; [lia|].
  unfold parsed in *. rewrite assignment_S.
  destruct (rules_terminate fuel) as (_ & _ & _ & _ & _ & IHe).
  unfold parsed in IHe.
  step_call IHe.
  destruct (is_Var node && bool_decide (type (current_token p0) = ASSIGN)).
  - step_next. step_call IH. split; [assumption|lia].
  - simpl. split; [assumption|lia].
Qed.

Lemma size_le_remaining (p : Parser) : size p <= S (remaining (lexer p)).
Proof. unfold size. destruct (decide _); lia. Qed.

Lemma parse_terminates (p : Parser) :
  wf_parser p -> parsed (size p) (parse p).
Proof.
  intros Hwf. apply assignment_terminates; [exact Hwf|].
  pose proof (size_le_remaining p). unfold parse_fuel. lia.
Qed.

Lemma Parser_init_ok (s : string) :
  holds wf_parser (Parser_init (Lexer_init s)).
Proof.
  unfold Parser_init.
  pose proof (get_next_token_ok (Lexer_init s) (Lexer_init_wf s)) as H.
  destruct (get_next_token (Lexer_init s)) as [[tok lx']| |]; simpl in *;
    [apply H|exact I|exact H].
Qed.

(** The parser returns a tree or raises, on every text. *)
Lemma parse_text_terminates (s : string) : parse_text s <> Diverge.
Proof.
  unfold parse_text.
  apply (holds_defined (fun a => wf_parser (snd a))).
  eapply holds_bind; [apply Parser_init_ok|].
  intros p _ Hwf. cbv beta in Hwf.
  eapply holds_weaken; [|apply (parse_terminates p Hwf)].
  intros a [H _]. exact H.
Qed.

(** ** Parser: more fuel gives the same answer *)

Definition approx {A} (r r' : result A) : Prop := r <> Diverge -> r' = r.

Lemma approx_refl {A} (r : result A) : approx r r.
Proof. intros _. reflexivity. Qed.

Lemma approx_trans {A} (a b c : result A) :
  approx a b -> approx b c -> approx a c.
Proof. unfold approx. intros Hab Hbc Ha. rewrite <- (Hab Ha). apply Hbc. rewrite (Hab Ha). exact Ha. Qed.

Lemma approx_bind {A B} (m m' : result A) (k k' : A -> result B) :
  approx m m' -> (forall a, approx (k a) (k' a)) ->
  approx (bind m k) (bind m' k').
Proof.
  unfold approx. intros Hm Hk H.
  destruct m as [a| |]; simpl in *.
  - rewrite Hm by discriminate. simpl. apply Hk. exact H.
  - rewrite Hm by discriminate. reflexivity.
  - contradiction.
Qed.

Ltac approx_steps :=
  repeat first
    [ apply approx_refl
    | assumption
    | match goal with
      | |- approx (bind _ _) (bind _ _) => apply approx_bind; [|intros ?]
      | |- approx (match ?x with _ => _ end) _ => destruct x
      | H : forall p, approx (?f _ p) _ |- approx (?f _ ?q) _ => apply H
      | H : forall n p, approx (?f _ n p) _ |- approx (?f _ ?m ?q) _ => apply H
      end ].

Lemma rules_fuel_S (fuel : nat) :
  (forall p, approx (factor fuel p) (factor (S fuel) p)) /\
  (forall p, approx (power fuel p) (power (S fuel) p)) /\
  (forall node p,
     approx (term_loop fuel node p) (term_loop (S fuel) node p)) /\
  (forall p, approx (term fuel p) (term (S fuel) p)) /\
  (forall node p,
     approx (expr_loop fuel node p) (expr_loop (S fuel) node p)) /\
  (forall p, approx (expr fuel p) (expr (S fuel) p)).
Proof.
  induction fuel as [|fuel (IHf & IHp & IHtl & IHt & IHel & IHe)].
  { repeat split; intros; intros H; exfalso; apply H; reflexivity. }
  split; [|split; [|split; [|split; [|split]]]].
  - intros p. rewrite (factor_S fuel), (factor_S (S fuel)). approx_steps.
  - intros p. rewrite (power_S fuel), (power_S (S fuel)). approx_steps.
  - intros node p. rewrite (term_loop_S fuel), (term_loop_S (S fuel)).
    approx_steps.
  - intros p. rewrite (term_S fuel), (term_S (S fuel)). approx_steps.
  - intros node p. rewrite (expr_loop_S fuel), (expr_loop_S (S fuel)).
    approx_steps.
  - intros p. rewrite (expr_S fuel), (expr_S (S fuel)). approx_steps.
Qed.

Lemma rules_fuel_le (fuel fuel' : nat) :
  fuel <= fuel' ->
  (forall p, approx (factor fuel p) (factor fuel' p)) /\
  (forall p, approx (power fuel p) (power fuel' p)) /\
  (forall node p,
     approx (term_loop fuel node p) (term_loop fuel' node p)) /\
  (forall p, approx (term fuel p) (term fuel' p)) /\
  (forall node p,
     approx (expr_loop fuel node p) (expr_loop fuel' node p)) /\
  (forall p, approx (expr fuel p) (expr fuel' p)).
Proof.
  induction 1 as [|fuel' _ (IHf & IHp & IHtl & IHt & IHel & IHe)].
  { repeat split; intros; apply approx_refl. }
  destruct (rules_fuel_S fuel') as (Sf & Sp & Stl & St & Sel & Se).
  repeat split; intros; eapply approx_trans; eauto.
Qed.

Lemma assignment_fuel_S (fuel : nat) (p : Parser) :
  approx (assignment fuel p) (assignment (S fuel) p).
Proof.
  revert p. induction fuel as [|fuel IH]; intros p.
  { intros H. exfalso. apply H. reflexivity. }
  destruct (rules_fuel_S fuel) as (_ & _ & _ & _ & _ & Se).
  rewrite (assignment_S fuel), (assignment_S (S fuel)).
  apply approx_bind; [apply Se|]. intros [node p1].
  destruct (is_Var node && _); [|apply approx_refl].
  apply approx_bind; [apply approx_refl|]. intros p2.
  apply approx_bind; [apply IH|]. intros a. apply approx_refl.
Qed.

Lemma assignment_fuel_le (fuel fuel' : nat) (p : Parser) :
  fuel <= fuel' -> approx (assignment fuel p) (assignment fuel' p).
Proof.
  induction 1 as [|fuel' _ IH]; [apply approx_refl|].
  eapply approx_trans; [exact IH|apply assignment_fuel_S].
Qed.

Lemma approx_Ok {A} (r r' : result A) (a : A) :
  approx r r' -> r = Ok a -> r' = Ok a.
Proof. intros H E. rewrite <- E. apply H. rewrite E. discriminate. Qed.

(** What the entry rule answers with some fuel is what [parse] answers. *)
Lemma parse_of_assignment (fuel : nat) (p : Parser) (r : ASTNode * Parser) :
  wf_parser p -> assignment fuel p = Ok r -> parse p = Ok r.
Proof.
  intros Hwf Hrun. unfold parse.
  destruct (Nat.le_ge_cases fuel (parse_fuel p)) as [Hle|Hge].
  - apply (approx_Ok _ _ _ (assignment_fuel_le _ _ p Hle) Hrun).
  - pose proof (assignment_fuel_le _ _ p Hge) as Happ.
    rewrite <- Hrun. symmetry. apply Happ.
    apply (holds_defined _ _ (parse_terminates p Hwf)).
Qed.

(** ** Interpreter *)

Lemma visit_BinaryOp_arith (l r : ASTNode) (op : Token) :
  arithmetic op = true ->
  visit (BinaryOp l op r) =
  (let! x := visit l in let! y := visit r in pure (apply_op op x y)).
Proof.
  unfold arithmetic, multiplicative, additive, is_power, type_in, apply_op.
  simpl. unfold visit_BinaryOp.
  destruct (type op); simpl; first [reflexivity|discriminate].
Qed.

Lemma visit_pure (node : ASTNode) (vars : env) :
  has_Assign node = false -> snd (visit node vars) = vars.
Proof.
  revert vars.
  induction node as [l IHl op r IHr|op e IHe|n|name|l IHl r IHr];
    intros vars Hno; simpl in Hno.
  - apply orb_false_iff in Hno. destruct Hno as [Hl Hr].
    specialize (IHl vars Hl).
    simpl. unfold visit_BinaryOp, ebind, pure, ret.
    destruct (type op); try reflexivity;
      (destruct (visit l vars) as [[a|ex] vars1]; simpl in IHl; subst vars1;
       [|reflexivity];
       specialize (IHr vars Hr);
       destruct (visit r vars) as [[b|ex] vars2]; simpl in IHr; subst vars2;
       reflexivity).
  - specialize (IHe vars Hno).
    simpl. unfold visit_UnaryOp, ebind, pure, ret.
    destruct (type op); try reflexivity;
      (destruct (visit e vars) as [[a|ex] vars1]; simpl in IHe; subst vars1;
       reflexivity).
  - reflexivity.
  - simpl. unfold visit_Var. destruct (vars !! name); reflexivity.
  - discriminate Hno.
Qed.

(** C9. A tree without an Assignment node is evaluated purely: visiting it
    leaves the dictionary of variables as it was, so that visiting it a
    second time in the dictionary left by the first gives the same answer,
    a value or an exception, and again leaves the dictionary unchanged. *)
Theorem interpret_without_Assign_idempotent (tree : ASTNode) (vars : env) :
  has_Assign tree = false ->
  snd (interpret tree vars) = vars /\
  interpret tree (snd (interpret tree vars)) = interpret tree vars /\
  snd (interpret tree (snd (interpret tree vars))) = vars.
Proof.
  intros Hno. unfold interpret.
  pose proof (visit_pure tree vars Hno) as Hpure.
  rewrite Hpure. repeat split; assumption.
Qed.

(** C7. Visiting a Variable-reference node returns the value the
    dictionary holds for the name when the name is bound, and raises
    NameError with the name when it is not; the text "x" interpreted in the
    empty dictionary raises NameError for "x". *)
Theorem visit_Var_lookup (name : string) (vars : env) :
  (forall v, vars !! name = Some v ->
             interpret (Var name) vars = (Returns v, vars)) /\
  (vars !! name = None ->
   interpret (Var name) vars = (Raises (NameError name), vars)) /\
  parse_tree "x" = Ok (Var "x") /\
  run "x" ∅ = Some (Raises (NameError "x"), ∅).
Proof.
  unfold interpret. simpl. unfold visit_Var.
  split; [intros v ->; reflexivity|].
  split; [intros ->; reflexivity|].
  split; vm_compute; reflexivity.
Qed.

Lemma visit_Assign_Var (name : string) (e : ASTNode) (vars : env) :
  visit (Assign (Var name) e) vars =
  match visit e vars with
  | (Returns v, vars') => (Returns v, <[name := v]> vars')
  | (Raises ex, vars') => (Raises ex, vars')
  end.
Proof.
  simpl. unfold ebind, store, ret.
  destruct (visit e vars) as [[v|ex] vars']; reflexivity.
Qed.

(** ** Parser: the trees it builds *)

(** A property of what a call answers, if it returns. *)
Definition when_ok {A} (Q : A -> Prop) (r : result A) : Prop :=
  match r with
  | Ok a => Q a
  | _ => True
  end.

Lemma when_ok_bind {A B} (Q1 : A -> Prop) (Q : B -> Prop)
  (m : result A) (k : A -> result B) :
  when_ok Q1 m -> (forall a, Q1 a -> when_ok Q (k a)) ->
  when_ok Q (bind m k).
Proof.
  destruct m as [a| |]; simpl; intros H1 Hk; [apply (Hk a H1)|exact I|exact I].
Qed.

Lemma when_ok_any {A} (r : result A) : when_ok (fun _ => True) r.
Proof. destruct r; exact I. Qed.

Lemma when_ok_elim {A} (Q : A -> Prop) (r : result A) (a : A) :
  when_ok Q r -> r = Ok a -> Q a.
Proof. intros H ->. exact H. Qed.

Ltac skip_token :=
  eapply when_ok_bind; [apply when_ok_any|intros ?p _].

Ltac use_call IH :=
  eapply when_ok_bind;
  [ apply IH; try assumption
  | let H := fresh "Hcall" in intros [?node ?p] H; cbv beta in H; simpl in H ].

(** The rules below [assignment] build trees without [Assign] nodes. *)
Lemma rules_no_Assign (fuel : nat) :
  (forall p, when_ok (fun a => has_Assign (fst a) = false) (factor fuel p)) /\
  (forall p, when_ok (fun a => has_Assign (fst a) = false) (power fuel p)) /\
  (forall node p, has_Assign node = false ->
     when_ok (fun a => has_Assign (fst a) = false) (term_loop fuel node p)) /\
  (forall p, when_ok (fun a => has_Assign (fst a) = false) (term fuel p)) /\
  (forall node p, has_Assign node = false ->
     when_ok (fun a => has_Assign (fst a) = false) (expr_loop fuel node p)) /\
  (forall p, when_ok (fun a => has_Assign (fst a) = false) (expr fuel p)).
Proof.
  induction fuel as [|fuel (IHf & IHp & IHtl & IHt & IHel & IHe)].
  { repeat split; intros; exact I. }
  split; [|split; [|split; [|split; [|split]]]].
  - intros p. rewrite factor_S.
    destruct (current_token p); try exact I.
    + skip_token. reflexivity.
    + skip_token. reflexivity.
    + skip_token. use_call IHf. exact Hcall.
    + skip_token. use_call IHf. exact Hcall.
    + skip_token. use_call IHe. skip_token. exact Hcall.
  - intros p. rewrite power_S. use_call IHf.
    destruct (decide _); [|exact Hcall].
    skip_token. use_call IHp. simpl. rewrite Hcall, Hcall0. reflexivity.
  - intros node p Hnode. rewrite term_loop_S.
    destruct (type_in _ _ _); [|exact Hnode].
    skip_token. use_call IHp. apply IHtl. simpl. rewrite Hnode, Hcall.
    reflexivity.
  - intros p. rewrite term_S. use_call IHp. apply IHtl. exact Hcall.
  - intros node p Hnode. rewrite expr_loop_S.
    destruct (type_in _ _ _); [|exact Hnode].
    skip_token. use_call IHt. apply IHel. simpl. rewrite Hnode, Hcall.
    reflexivity.
  - intros p. rewrite expr_S. use_call IHt. apply IHel. exact Hcall.
Qed.

Lemma assignment_builds_chain (fuel : nat) (p : Parser) :
  when_ok (fun a => assignment_chain (fst a) = true) (assignment fuel p).
Proof.
  revert p. induction fuel as [|fuel IH]; intros p; [exact I|].
  rewrite assignment_S.
  destruct (rules_no_Assign fuel) as (_ & _ & _ & _ & _ & IHe).
  use_call IHe.
  destruct (is_Var node && _) eqn:Hvar.
  - skip_token. use_call IH. simpl.
    apply andb_true_iff in Hvar. destruct Hvar as [Hvar _].
    destruct node; try discriminate Hvar. exact Hcall0.
  - simpl. clear Hvar.
    destruct node; simpl in Hcall |- *;
      first [discriminate Hcall|rewrite Hcall; reflexivity|reflexivity].
Qed.

Lemma no_Assign_targets (node : ASTNode) :
  has_Assign node = false -> targets_are_variables node = true.
Proof.
  induction node as [l IHl op r IHr|op e IHe|n|name|l IHl r IHr]; simpl;
    intros H; try reflexivity.
  - apply orb_false_iff in H. destruct H as [Hl Hr].
    rewrite (IHl Hl), (IHr Hr). reflexivity.
  - apply IHe. exact H.
  - discriminate H.
Qed.

Lemma chain_targets (node : ASTNode) :
  assignment_chain node = true -> targets_are_variables node = true.
Proof.
  induction node as [l IHl op r IHr|op e IHe|n|name|l IHl r IHr];
    intros H; try reflexivity;
    try (apply no_Assign_targets; simpl in H;
         apply negb_true_iff in H; exact H).
  destruct l; simpl in H; try discriminate H.
  simpl. apply IHr. exact H.
Qed.

(** C6. Whenever the parser returns a tree for a text, every Assignment
    node of the tree has a Variable-reference node as its left child: the
    rule [assignment] builds an Assignment node only around a node that
    passed its [isinstance] test, while the node type itself admits any
    node there. *)
Theorem parse_targets_are_variables (s : string) (tree : ASTNode) :
  parse_tree s = Ok tree ->
  targets_are_variables tree = true /\
  targets_are_variables (Assign (Num (Int 1)) (Num (Int 2))) = false.
Proof.
  intros Hparse. split; [|reflexivity].
  unfold parse_tree, parse_text in Hparse.
  apply bind_Ok in Hparse. destruct Hparse as ([tree' p'] & Hrun & Hret).
  inversion Hret. subst tree'.
  apply bind_Ok in Hrun. destruct Hrun as (p & _ & Hrun).
  apply chain_targets.
  apply (when_ok_elim _ _ _ (assignment_builds_chain (parse_fuel p) p) Hrun).
Qed.

(** ** Interpreter: what a visit writes *)

Lemma write_all_app (w1 w2 : list (string * value)) (vars : env) :
  write_all (w1 ++ w2) vars = write_all w2 (write_all w1 vars).
Proof. unfold write_all. apply fold_left_app. Qed.

(** On every tree, whether the visit returns or raises, the dictionary it
    leaves is the one it started in with the completed assignments
    written, and nothing else. *)
Lemma visit_writes (node : ASTNode) (vars : env) :
  snd (visit node vars) = write_all (completed_assignments node vars) vars.
Proof.
  revert vars.
  induction node as [l IHl op r IHr|op e IHe|n|name|l IHl r IHr];
    intros vars.
  - simpl. unfold visit_BinaryOp, ebind, pure, ret.
    destruct (type op); try reflexivity;
      (rewrite write_all_app, <- IHl;
       destruct (visit l vars) as [[a|ex] vars1]; simpl; [|reflexivity];
       rewrite <- IHr;
       destruct (visit r vars1) as [[b|ex] vars2]; reflexivity).
  - simpl. unfold visit_UnaryOp, ebind, pure, ret.
    destruct (type op); try reflexivity;
      (rewrite <- IHe;
       destruct (visit e vars) as [[a|ex] vars1]; reflexivity).
  - reflexivity.
  - simpl. unfold visit_Var. destruct (vars !! name); reflexivity.
  - destruct l as [l1 op l2|op l1|n|name|l1 l2]; try reflexivity.
    + simpl. apply IHr.
    + rewrite visit_Assign_Var. simpl.
      rewrite write_all_app, <- IHr.
      destruct (visit r vars) as [[v|ex] vars1]; reflexivity.
Qed.

Lemma no_Assign_completed (node : ASTNode) (vars : env) :
  has_Assign node = false -> completed_assignments node vars = [].
Proof.
  revert vars.
  induction node as [l IHl op r IHr|op e IHe|n|name|l IHl r IHr];
    intros vars H; simpl in H; try reflexivity; try discriminate H.
  - apply orb_false_iff in H. destruct H as [Hl Hr]. simpl.
    rewrite (IHl vars Hl).
    destruct (type op); try reflexivity;
      (destruct (visit l vars) as [[a|ex] vars1]; [apply (IHr _ Hr)|reflexivity]).
  - simpl. rewrite (IHe vars H). destruct (type op); reflexivity.
Qed.

(** In a tree built by [assignment] the value expression of every
    assignment contains the whole rest of the chain, so a visit that raises
    has completed no assignment. *)
Lemma chain_raises_completed (node : ASTNode) (vars : env) (ex : exn) :
  assignment_chain node = true ->
  fst (visit node vars) = Raises ex ->
  completed_assignments node vars = [].
Proof.
  induction node as [l IHl op r IHr|op e IHe|n|name|l IHl r IHr];
    intros Hchain Hraise;
    try (apply no_Assign_completed; simpl in Hchain;
         apply negb_true_iff in Hchain; exact Hchain);
    try reflexivity.
  destruct l; simpl in Hchain; try discriminate Hchain.
  rewrite visit_Assign_Var in Hraise. simpl.
  destruct (visit r vars) as [[v|ex'] vars1] eqn:Hr; simpl in Hraise.
  - discriminate Hraise.
  - rewrite (IHr Hchain Hraise). reflexivity.
Qed.

Lemma parse_tree_chain (s : string) (tree : ASTNode) :
  parse_tree s = Ok tree -> assignment_chain tree = true.
Proof.
  intros Hparse. unfold parse_tree, parse_text in Hparse.
  apply bind_Ok in Hparse. destruct Hparse as ([tree' p'] & Hrun & Hret).
  inversion Hret. subst tree'.
  apply bind_Ok in Hrun. destruct Hrun as (p & _ & Hrun).
  apply (when_ok_elim _ _ _ (assignment_builds_chain (parse_fuel p) p) Hrun).
Qed.

(** A parsed text whose interpretation raises leaves every variable as it
    was. *)
Lemma parsed_failure_keeps_variables
  (s : string) (tree : ASTNode) (vars : env) (ex : exn) :
  parse_tree s = Ok tree ->
  fst (interpret tree vars) = Raises ex ->
  snd (interpret tree vars) = vars.
Proof.
  intros Hparse Hraise. unfold interpret in *.
  rewrite visit_writes.
  rewrite (chain_raises_completed tree vars ex
             (parse_tree_chain s tree Hparse) Hraise).
  reflexivity.
Qed.

Lemma write_all_frame
  (writes : list (string * value)) (vars : env) (name : string) :
  (forall v, ~ In (name, v) writes) ->
  write_all writes vars !! name = vars !! name.
Proof.
  revert vars. induction writes as [|[x v] writes IH]; intros vars Hnot;
    [reflexivity|].
  unfold write_all. simpl. fold (write_all writes (<[x := v]> vars)).
  rewrite IH.
  - apply lookup_insert_ne. intros ->. apply (Hnot v). left. reflexivity.
  - intros v' Hin. apply (Hnot v'). right. exact Hin.
Qed.

Lemma completed_are_assigned
  (node : ASTNode) (vars : env) (name : string) (v : value) :
  In (name, v) (completed_assignments node vars) ->
  In name (assigned_names node).
Proof.
  revert vars.
  induction node as [l IHl op r IHr|op e IHe|n|x|l IHl r IHr];
    intros vars Hin; simpl in Hin |- *.
  - apply in_or_app.
    destruct (type op); try contradiction;
      (apply in_app_or in Hin; destruct Hin as [Hin|Hin];
       [left; apply (IHl vars Hin)|];
       destruct (visit l vars) as [[a|ex] vars1]; [|contradiction];
       right; apply (IHr vars1 Hin)).
  - destruct (type op); try contradiction; apply (IHe vars Hin).
  - contradiction.
  - contradiction.
  - destruct l as [l1 op l2|op l1|n|x|l1 l2]; try contradiction.
    + apply (IHr vars Hin).
    + apply in_app_or in Hin. destruct Hin as [Hin|Hin].
      * right. apply (IHr vars Hin).
      * destruct (visit r vars) as [[a|ex] vars1]; [|contradiction].
        destruct Hin as [Heq|[]]. inversion Heq. left. reflexivity.
Qed.

(** A visit leaves every name that no [Assign] node of the tree targets
    bound as it was. *)
Lemma visit_frame (node : ASTNode) (vars : env) (name : string) :
  ~ In name (assigned_names node) ->
  snd (visit node vars) !! name = vars !! name.
Proof.
  intros Hnot. rewrite visit_writes. apply write_all_frame.
  intros v Hin. apply Hnot. apply (completed_are_assigned node vars name v Hin).
Qed.

(** C8. When the interpretation of a tree returned by the parser raises,
    the dictionary it leaves is the one it started in with the writes of
    the Assignment nodes that had completed before the exception, in the
    order they completed, and nothing else: an Assignment whose value
    expression raised has written nothing, a completed one is not undone,
    and a name that no completed Assignment wrote is bound as before. *)
Theorem failed_interpret_keeps_completed_assignments
  (s : string) (tree : ASTNode) (vars : env) (ex : exn) :
  parse_tree s = Ok tree ->
  fst (interpret tree vars) = Raises ex ->
  snd (interpret tree vars) =
    write_all (completed_assignments tree vars) vars /\
  forall name,
    (forall v, ~ In (name, v) (completed_assignments tree vars)) ->
    snd (interpret tree vars) !! name = vars !! name.
Proof.
  intros _ _. unfold interpret.
  pose proof (visit_writes tree vars) as Hw.
  split; [exact Hw|].
  intros name Hnot. rewrite Hw. apply write_all_frame. exact Hnot.
Qed.

(** ** Empty and blank texts *)

Lemma all_space_get (s : string) (i : nat) (c : ascii) :
  all_space s = true -> String.get i s = Some c -> isspace c = true.
Proof.
  revert i. induction s as [|c' s IH]; intros i Hall Hget; simpl in *.
  - discriminate Hget.
  - apply andb_true_iff in Hall. destruct Hall as [Hc Hs].
    destruct i as [|i]; [congruence|apply (IH i Hs Hget)].
Qed.

Lemma get_next_token_loop_None (fuel : nat) (lx : Lexer) :
  current_char lx = None -> get_next_token_loop fuel lx = Ok (TEOF, lx).
Proof. intros H. destruct fuel; simpl; rewrite H; reflexivity. Qed.

Lemma get_next_token_all_space (lx : Lexer) :
  wf_lexer lx -> all_space (text lx) = true ->
  exists lx', get_next_token lx = Ok (TEOF, lx') /\ wf_lexer lx' /\
              text lx' = text lx /\ current_char lx' = None.
Proof.
  intros Hwf Hall. unfold get_next_token.
  destruct (current_char lx) as [c|] eqn:Hc.
  - assert (Hsp : isspace c = true).
    { apply (all_space_get (text lx) (pos lx) c Hall). rewrite <- Hwf. exact Hc. }
    rewrite <- (advance_remaining lx c Hwf Hc). simpl. rewrite Hc, Hsp.
    unfold skip_whitespace.
    destruct (skip_whitespace_loop_ok (remaining lx) lx Hwf (le_n _))
      as (lx1 & -> & (Hwf1 & Htext & _) & Hns).
    simpl.
    assert (Hend : current_char lx1 = None).
    { destruct (current_char lx1) as [c1|] eqn:Hc1; [|reflexivity].
      assert (isspace c1 = true).
      { apply (all_space_get (text lx1) (pos lx1) c1);
          [rewrite Htext; exact Hall|rewrite <- Hwf1; exact Hc1]. }
      rewrite (Hns c1 eq_refl) in H. discriminate H. }
    exists lx1. rewrite (get_next_token_loop_None _ lx1 Hend).
    repeat split; assumption.
  - exists lx. rewrite (get_next_token_loop_None _ lx Hc).
    repeat split; assumption.
Qed.

Lemma assignment_at_EOF (fuel : nat) (p : Parser) :
  5 <= fuel -> current_token p = TEOF ->
  assignment fuel p = Raise (UnexpectedToken TEOF).
Proof.
  intros Hfuel Htok.
  do 5 (destruct fuel as [|fuel]; [lia|]).
  rewrite assignment_S, expr_S, term_S, power_S, factor_S, Htok.
  unfold Parser_error. rewrite Htok. reflexivity.
Qed.

(** C10. On the empty text, and on any text made of white space only, the
    lexer returns the end-of-input token, and returns it again when asked
    again; and the parser raises its unexpected-token exception on that
    token, raised by [factor], which the entry rule reaches through [expr],
    [term] and [power] without a token having been eaten. *)
Theorem blank_text_is_unexpected_EOF (s : string) :
  all_space s = true ->
  (exists lx', get_next_token (Lexer_init s) = Ok (TEOF, lx') /\
               get_next_token lx' = Ok (TEOF, lx')) /\
  (forall p, current_token p = TEOF ->
             factor 1 p = Raise (UnexpectedToken TEOF)) /\
  parse_text s = Raise (UnexpectedToken TEOF).
Proof.
  intros Hall.
  destruct (get_next_token_all_space (Lexer_init s) (Lexer_init_wf s))
    as (lx' & Hrun & Hwf' & Htext & Hend);
    [destruct s; exact Hall|].
  split; [|split].
  - exists lx'. split; [exact Hrun|].
    unfold get_next_token. apply get_next_token_loop_None. exact Hend.
  - intros p Htok. rewrite factor_S, Htok. unfold Parser_error.
    rewrite Htok. reflexivity.
  - unfold parse_text, Parser_init. rewrite Hrun. simpl.
    unfold parse. apply assignment_at_EOF; [|reflexivity].
    unfold parse_fuel. lia.
Qed.

(** ** Parser: the token it stops at *)

Definition token_left (a : ASTNode * Parser) : Token := current_token (snd a).

Lemma rules_stop (fuel : nat) :
  (forall p, when_ok (fun a => type (token_left a) <> POWER) (power fuel p)) /\
  (forall node p, type (current_token p) <> POWER ->
     when_ok (fun a => type (token_left a) <> POWER /\
                       multiplicative (token_left a) = false)
             (term_loop fuel node p)) /\
  (forall p,
     when_ok (fun a => type (token_left a) <> POWER /\
                       multiplicative (token_left a) = false)
             (term fuel p)) /\
  (forall node p,
     type (current_token p) <> POWER /\ multiplicative (current_token p) = false ->
     when_ok (fun a => arithmetic (token_left a) = false)
             (expr_loop fuel node p)) /\
  (forall p, when_ok (fun a => arithmetic (token_left a) = false)
                     (expr fuel p)).
Proof.
  induction fuel as [|fuel (IHp & IHtl & IHt & IHel & IHe)].
  { repeat split; intros; exact I. }
  split; [|split; [|split; [|split]]].
  - intros p. rewrite power_S.
    eapply when_ok_bind; [apply when_ok_any|intros [node p1] _].
    destruct (decide _) as [_|Hne]; [|exact Hne].
    skip_token. use_call IHp. exact Hcall.
  - intros node p Hpre. rewrite term_loop_S.
    destruct (type_in _ _ _) eqn:Hin; [|split; [exact Hpre|exact Hin]].
    skip_token. use_call IHp. apply IHtl. exact Hcall.
  - intros p. rewrite term_S. use_call IHp. apply IHtl. exact Hcall.
  - intros node p [Hpow Hmul]. rewrite expr_loop_S.
    destruct (type_in _ _ _) eqn:Hin.
    + skip_token. use_call IHt. apply IHel. exact Hcall.
    + unfold token_left, arithmetic, additive, is_power. simpl.
      rewrite Hmul, Hin. simpl. apply bool_decide_eq_false. exact Hpow.
  - intros p. rewrite expr_S. use_call IHt. apply IHel. exact Hcall.
Qed.

Lemma assignment_stops (fuel : nat) (p : Parser) :
  when_ok (fun a => arithmetic (token_left a) = false /\
                    (type (token_left a) = ASSIGN -> is_Var (fst a) = false))
          (assignment fuel p).
Proof.
  revert p. induction fuel as [|fuel IH]; intros p; [exact I|].
  rewrite assignment_S.
  destruct (rules_stop fuel) as (_ & _ & _ & _ & IHe).
  use_call IHe.
  destruct (is_Var node && _) eqn:Hvar.
  - skip_token. use_call IH. destruct Hcall0 as [Har _].
    split; [exact Har|]. intros _. reflexivity.
  - simpl. split; [exact Hcall|]. unfold token_left. simpl. intros Hass.
    apply andb_false_iff in Hvar. destruct Hvar as [Hvar|Hvar]; [exact Hvar|].
    apply bool_decide_eq_false in Hvar. contradiction.
Qed.

(** C1, as the program has it. [parse] answers what one run of the rule
    [assignment] answers and does not look at the token that run stops at:
    "1 + 2 = 3" parses to the tree of 1 + 2 with the = left in hand,
    unconsumed. What is certain of the token left when [parse] returns is
    that it is none of + - * / **, which the rules always consume, and
    that it is an = only when the tree is not a bare identifier. *)
Theorem parse_stops_without_checking_EOF
  (s : string) (tree : ASTNode) (p' : Parser) :
  parse_text s = Ok (tree, p') ->
  arithmetic (current_token p') = false /\
  (type (current_token p') = ASSIGN -> is_Var tree = false) /\
  parse_text "1 + 2 = 3" =
    Ok (BinaryOp (Num (Int 1)) TPlus (Num (Int 2)),
        {| lexer := {| text := "1 + 2 = 3"; pos := 7;
                       current_char := Some " "%char |};
           current_token := TAssign |}).
Proof.
  intros Hparse. unfold parse_text in Hparse.
  apply bind_Ok in Hparse. destruct Hparse as (p & _ & Hrun).
  pose proof (when_ok_elim _ _ _ (assignment_stops (parse_fuel p) p) Hrun)
    as [Har Hass].
  split; [exact Har|]. split; [exact Hass|].
  vm_compute. reflexivity.
Qed.


(** ** Parser: what the rules recognise *)

Lemma rules_more (fuel fuel' : nat) :
  fuel <= fuel' ->
  (forall p r, factor fuel p = Ok r -> factor fuel' p = Ok r) /\
  (forall p r, power fuel p = Ok r -> power fuel' p = Ok r) /\
  (forall node p r,
     term_loop fuel node p = Ok r -> term_loop fuel' node p = Ok r) /\
  (forall p r, term fuel p = Ok r -> term fuel' p = Ok r) /\
  (forall node p r,
     expr_loop fuel node p = Ok r -> expr_loop fuel' node p = Ok r) /\
  (forall p r, expr fuel p = Ok r -> expr fuel' p = Ok r).
Proof.
  intros Hle.
  destruct (rules_fuel_le fuel fuel' Hle) as (Hf & Hp & Htl & Ht & Hel & He).
  repeat split; intros; eapply approx_Ok; eauto.
Qed.

Lemma factor_more (fuel fuel' : nat) (p : Parser) (r : ASTNode * Parser) :
  factor fuel p = Ok r -> fuel <= fuel' -> factor fuel' p = Ok r.
Proof. intros H Hle. apply (rules_more fuel fuel' Hle). exact H. Qed.

Lemma power_more (fuel fuel' : nat) (p : Parser) (r : ASTNode * Parser) :
  power fuel p = Ok r -> fuel <= fuel' -> power fuel' p = Ok r.
Proof. intros H Hle. apply (rules_more fuel fuel' Hle). exact H. Qed.

Lemma term_loop_more
  (fuel fuel' : nat) (node : ASTNode) (p : Parser) (r : ASTNode * Parser) :
  term_loop fuel node p = Ok r -> fuel <= fuel' ->
  term_loop fuel' node p = Ok r.
Proof. intros H Hle. apply (rules_more fuel fuel' Hle). exact H. Qed.

Lemma term_more (fuel fuel' : nat) (p : Parser) (r : ASTNode * Parser) :
  term fuel p = Ok r -> fuel <= fuel' -> term fuel' p = Ok r.
Proof. intros H Hle. apply (rules_more fuel fuel' Hle). exact H. Qed.

Lemma expr_loop_more
  (fuel fuel' : nat) (node : ASTNode) (p : Parser) (r : ASTNode * Parser) :
  expr_loop fuel node p = Ok r -> fuel <= fuel' ->
  expr_loop fuel' node p = Ok r.
Proof. intros H Hle. apply (rules_more fuel fuel' Hle). exact H. Qed.

Lemma expr_more (fuel fuel' : nat) (p : Parser) (r : ASTNode * Parser) :
  expr fuel p = Ok r -> fuel <= fuel' -> expr fuel' p = Ok r.
Proof. intros H Hle. apply (rules_more fuel fuel' Hle). exact H. Qed.

(** Reading on: the parser that holds the first of two or more tokens gets
    the second by [next]. *)
Lemma reads_step (x : Token) (l : list Token) (p : Parser) :
  l <> [] -> reads (x :: l) p ->
  current_token p = x /\ exists p1, next p = Ok p1 /\ reads l p1.
Proof.
  destruct l as [|y l]; [contradiction|]. intros _ (Htok & p1 & Hn & Hy & Hr).
  split; [exact Htok|]. exists p1. repeat split; assumption.
Qed.

Lemma reads_head (x : Token) (l : list Token) (p : Parser) :
  reads (x :: l) p -> current_token p = x.
Proof. intros [H _]. exact H. Qed.

Lemma app_cons_not_nil {A} (l r : list A) (x : A) : l ++ x :: r <> [].
Proof. destruct l; discriminate. Qed.

Lemma factor_token (fuel : nat) (a : Token) (p p' : Parser) :
  is_operand a = true -> current_token p = a -> next p = Ok p' ->
  factor (S fuel) p = Ok (leaf a, p').
Proof.
  intros Hop Htok Hnext. rewrite factor_S, Htok.
  destruct a; try discriminate Hop.
  - rewrite (eat_next p NUMBER) by (rewrite Htok; reflexivity).
    rewrite Hnext. reflexivity.
  - rewrite (eat_next p IDENTIFIER) by (rewrite Htok; reflexivity).
    rewrite Hnext. reflexivity.
Qed.

(** A number or an identifier is a factor. *)
Lemma atom_a_factor (a : Token) : is_operand a = true -> a_factor (atom a).
Proof.
  intros Hop p t rest _ Hreads. cbn [atom spelled built app] in Hreads.
  apply reads_step in Hreads; [|discriminate].
  destruct Hreads as (Htok & p1 & Hnext & Hreads1).
  exists 1, p1. split; [|exact Hreads1].
  apply factor_token; assumption.
Qed.

(** A sign before a factor is a factor: the unary operation on it. *)
Lemma sign_a_factor (sign : Token) (a : operand) :
  sign = TPlus \/ sign = TMinus -> a_factor a ->
  a_factor {| spelled := sign :: spelled a; built := UnaryOp sign (built a) |}.
Proof.
  intros Hsign Ha p t rest Hfollow Hreads. cbn [spelled built app] in Hreads.
  apply reads_step in Hreads; [|apply app_cons_not_nil].
  destruct Hreads as (Htok & p1 & Hnext & Hreads1).
  destruct (Ha p1 t rest Hfollow Hreads1) as (fuel & p' & Hrun & Hleft).
  exists (S fuel), p'. split; [|exact Hleft].
  rewrite factor_S, Htok.
  destruct Hsign as [-> | ->].
  - rewrite (eat_next p PLUS) by (rewrite Htok; reflexivity).
    rewrite Hnext. cbn [bind]. rewrite Hrun. reflexivity.
  - rewrite (eat_next p MINUS) by (rewrite Htok; reflexivity).
    rewrite Hnext. cbn [bind]. rewrite Hrun. reflexivity.
Qed.

(** An expression between parentheses is a factor, with the tree of the
    expression. *)
Lemma parenthesised_a_factor (a : operand) :
  an_expr a ->
  a_factor {| spelled := TLParen :: spelled a ++ [TRParen];
              built := built a |}.
Proof.
  intros Ha p t rest _ Hreads. cbn [spelled built app] in Hreads.
  rewrite <- app_assoc in Hreads. cbn [app] in Hreads.
  apply reads_step in Hreads; [|apply app_cons_not_nil].
  destruct Hreads as (Htok & p1 & Hnext & Hreads1).
  destruct (Ha p1 TRParen (t :: rest) eq_refl Hreads1)
    as (fuel & p2 & Hrun & Hreads2).
  apply reads_step in Hreads2; [|discriminate].
  destruct Hreads2 as (Htok2 & p3 & Hnext2 & Hreads3).
  exists (S fuel), p3. split; [|exact Hreads3].
  rewrite factor_S, Htok.
  rewrite (eat_next p LPAREN) by (rewrite Htok; reflexivity).
  rewrite Hnext. cbn [bind]. rewrite Hrun. cbn [bind].
  rewrite (eat_next p2 RPAREN) by (rewrite Htok2; reflexivity).
  rewrite Hnext2. reflexivity.
Qed.

(** The token after an operand of a chain: the next operator of the chain,
    or the token after the chain. *)
Lemma chain_rest_head (level : Token -> bool) (kind : operand -> Prop)
  (P : Token -> Prop) (rest : list (Token * operand)) (t : Token)
  (tl : list Token) :
  (forall t', level t' = true -> P t') -> P t ->
  Forall (fun ob => level (fst ob) = true /\ kind (snd ob)) rest ->
  exists t' tl', chain_rest rest ++ t :: tl = t' :: tl' /\ P t'.
Proof.
  intros Hlevel Ht Hall. destruct rest as [|[op b] rest].
  - exists t, tl. split; [reflexivity|exact Ht].
  - inversion Hall as [|ob rest' [Hop _] _]. subst.
    exists op. eexists. split; [reflexivity|]. apply Hlevel. exact Hop.
Qed.

(** A chain of factors joined by [**] is a power: the tree grouped from
    the right. *)
Lemma power_chain (rest : list (Token * operand)) :
  forall a : operand,
    chain_of is_power a_factor a rest ->
    a_power {| spelled := chain_tokens a rest;
               built := right_fold (built a) rest |}.
Proof.
  induction rest as [|[op b] rest IH]; intros a [Ha Hall] p t tl Hfollow Hreads;
    cbn [spelled built] in *; unfold chain_tokens in Hreads;
    rewrite <- app_assoc in Hreads.
  - cbn [chain_rest flat_map app] in Hreads.
    destruct (Ha p t tl eq_refl Hreads) as (fuel & p1 & Hrun & Hreads1).
    exists (S fuel), p1. split; [|exact Hreads1].
    rewrite power_S, Hrun. cbn [bind].
    apply negb_true_iff, bool_decide_eq_false in Hfollow.
    rewrite (reads_head _ _ _ Hreads1).
    rewrite decide_False by exact Hfollow. reflexivity.
  - inversion Hall as [|ob rest' [Hop Hb] Hrest]. subst. simpl in Hop, Hb.
    change (chain_rest ((op, b) :: rest) ++ t :: tl)
      with (op :: (chain_tokens b rest ++ t :: tl)) in Hreads.
    destruct (Ha p op _ eq_refl Hreads) as (fuel0 & p1 & Hrun0 & Hreads1).
    apply reads_step in Hreads1; [|apply app_cons_not_nil].
    destruct Hreads1 as (Htok1 & p2 & Hnext1 & Hreads2).
    destruct (IH b (conj Hb Hrest) p2 t tl Hfollow Hreads2)
      as (fuel1 & p' & Hrun1 & Hleft).
    exists (S (Nat.max fuel0 fuel1)), p'. split; [|exact Hleft].
    rewrite power_S.
    rewrite (factor_more _ (Nat.max fuel0 fuel1) _ _ Hrun0) by lia.
    cbn [bind]. apply bool_decide_eq_true in Hop.
    rewrite Htok1. rewrite decide_True by exact Hop.
    rewrite (eat_next p1 POWER) by (rewrite Htok1; exact Hop).
    rewrite Hnext1. cbn [bind].
    rewrite (power_more _ (Nat.max fuel0 fuel1) _ _ Hrun1) by lia.
    reflexivity.
Qed.

Lemma multiplicative_not_power (t : Token) :
  multiplicative t = true -> negb (is_power t) = true.
Proof.
  unfold multiplicative, is_power. intros H. apply type_in_cases in H.
  destruct H as [H|H]; rewrite H; reflexivity.
Qed.

Lemma additive_not_tighter (t : Token) :
  additive t = true -> negb (is_power t || multiplicative t) = true.
Proof.
  unfold additive, is_power, multiplicative. intros H.
  apply type_in_cases in H.
  destruct H as [H|H]; rewrite H; reflexivity.
Qed.

Lemma arithmetic_false (t : Token) :
  arithmetic t = false ->
  multiplicative t = false /\ additive t = false /\ is_power t = false.
Proof.
  unfold arithmetic. intros H.
  apply orb_false_iff in H. destruct H as [H Hp].
  apply orb_false_iff in H. destruct H as [Hm Ha].
  repeat split; assumption.
Qed.

(** The loop of [term] on the rest of a chain of powers joined by [*] and
    [/]: the tree grouped from the left. *)
Lemma term_loop_chain (rest : list (Token * operand)) :
  forall (node : ASTNode) (p : Parser) (t : Token) (tl : list Token),
    Forall (fun ob => multiplicative (fst ob) = true /\ a_power (snd ob)) rest ->
    negb (is_power t || multiplicative t) = true ->
    reads (chain_rest rest ++ t :: tl) p ->
    exists fuel p',
      term_loop fuel node p = Ok (left_fold node rest, p') /\
      reads (t :: tl) p'.
Proof.
  induction rest as [|[op b] rest IH]; intros node p t tl Hall Hfollow Hreads.
  - exists 1, p. split; [|exact Hreads].
    apply negb_true_iff, orb_false_iff in Hfollow. destruct Hfollow as [_ Hm].
    rewrite term_loop_S, (reads_head _ _ _ Hreads).
    unfold multiplicative in Hm. rewrite Hm. reflexivity.
  - inversion Hall as [|ob rest' [Hop Hb] Hrest]. subst. simpl in Hop, Hb.
    change (chain_rest ((op, b) :: rest) ++ t :: tl)
      with (op :: ((spelled b ++ chain_rest rest) ++ t :: tl)) in Hreads.
    rewrite <- app_assoc in Hreads.
    destruct (chain_rest_head multiplicative a_power
                (fun t' => negb (is_power t') = true) rest t tl)
      as (t' & tl' & Heq & Ht'); try assumption.
    { apply multiplicative_not_power. }
    { apply negb_true_iff, orb_false_iff in Hfollow.
      destruct Hfollow as [Hp _]. rewrite Hp. reflexivity. }
    rewrite Heq in Hreads.
    apply reads_step in Hreads; [|apply app_cons_not_nil].
    destruct Hreads as (Htok & p1 & Hnext & Hreads1).
    destruct (Hb p1 t' tl' Ht' Hreads1) as (fuel0 & p2 & Hrun0 & Hreads2).
    rewrite <- Heq in Hreads2.
    destruct (IH (BinaryOp node op (built b)) p2 t tl Hrest Hfollow Hreads2)
      as (fuel1 & p' & Hrun1 & Hleft).
    exists (S (Nat.max fuel0 fuel1)), p'. split; [|exact Hleft].
    assert (Hin : type_in (type (current_token p)) MULTIPLY DIVIDE = true)
      by (rewrite Htok; exact Hop).
    rewrite term_loop_S, Hin, (loop_eat _ _ _ Hin), Hnext. cbn [bind].
    rewrite (power_more _ (Nat.max fuel0 fuel1) _ _ Hrun0) by lia.
    cbn [bind]. rewrite Htok.
    apply (term_loop_more _ _ _ _ _ Hrun1). lia.
Qed.

(** A chain of powers joined by [*] and [/] is a term: the tree grouped
    from the left. *)
Lemma term_chain (a : operand) (rest : list (Token * operand)) :
  chain_of multiplicative a_power a rest ->
  a_term {| spelled := chain_tokens a rest;
            built := left_fold (built a) rest |}.
Proof.
  intros [Ha Hall] p t tl Hfollow Hreads.
  cbn [spelled built] in *. unfold chain_tokens in Hreads.
  rewrite <- app_assoc in Hreads.
  destruct (chain_rest_head multiplicative a_power
              (fun t' => negb (is_power t') = true) rest t tl)
    as (t' & tl' & Heq & Ht'); try assumption.
  { apply multiplicative_not_power. }
  { apply negb_true_iff, orb_false_iff in Hfollow.
    destruct Hfollow as [Hp _]. rewrite Hp. reflexivity. }
  rewrite Heq in Hreads.
  destruct (Ha p t' tl' Ht' Hreads) as (fuel0 & p1 & Hrun0 & Hreads1).
  rewrite <- Heq in Hreads1.
  destruct (term_loop_chain rest (built a) p1 t tl Hall Hfollow Hreads1)
    as (fuel1 & p' & Hrun1 & Hleft).
  exists (S (Nat.max fuel0 fuel1)), p'. split; [|exact Hleft].
  rewrite term_S.
  rewrite (power_more _ (Nat.max fuel0 fuel1) _ _ Hrun0) by lia.
  cbn [bind]. apply (term_loop_more _ _ _ _ _ Hrun1). lia.
Qed.

(** The loop of [expr] on the rest of a chain of terms joined by [+] and
    [-]. *)
Lemma expr_loop_chain (rest : list (Token * operand)) :
  forall (node : ASTNode) (p : Parser) (t : Token) (tl : list Token),
    Forall (fun ob => additive (fst ob) = true /\ a_term (snd ob)) rest ->
    negb (arithmetic t) = true ->
    reads (chain_rest rest ++ t :: tl) p ->
    exists fuel p',
      expr_loop fuel node p = Ok (left_fold node rest, p') /\
      reads (t :: tl) p'.
Proof.
  induction rest as [|[op b] rest IH]; intros node p t tl Hall Hfollow Hreads.
  - exists 1, p. split; [|exact Hreads].
    apply negb_true_iff, arithmetic_false in Hfollow.
    destruct Hfollow as (_ & Hadd & _).
    rewrite expr_loop_S, (reads_head _ _ _ Hreads).
    unfold additive in Hadd. rewrite Hadd. reflexivity.
  - inversion Hall as [|ob rest' [Hop Hb] Hrest]. subst. simpl in Hop, Hb.
    change (chain_rest ((op, b) :: rest) ++ t :: tl)
      with (op :: ((spelled b ++ chain_rest rest) ++ t :: tl)) in Hreads.
    rewrite <- app_assoc in Hreads.
    destruct (chain_rest_head additive a_term
                (fun t' => negb (is_power t' || multiplicative t') = true)
                rest t tl)
      as (t' & tl' & Heq & Ht'); try assumption.
    { apply additive_not_tighter. }
    { apply negb_true_iff, arithmetic_false in Hfollow.
      destruct Hfollow as (Hm & _ & Hp). rewrite Hm, Hp. reflexivity. }
    rewrite Heq in Hreads.
    apply reads_step in Hreads; [|apply app_cons_not_nil].
    destruct Hreads as (Htok & p1 & Hnext & Hreads1).
    destruct (Hb p1 t' tl' Ht' Hreads1) as (fuel0 & p2 & Hrun0 & Hreads2).
    rewrite <- Heq in Hreads2.
    destruct (IH (BinaryOp node op (built b)) p2 t tl Hrest Hfollow Hreads2)
      as (fuel1 & p' & Hrun1 & Hleft).
    exists (S (Nat.max fuel0 fuel1)), p'. split; [|exact Hleft].
    assert (Hin : type_in (type (current_token p)) PLUS MINUS = true)
      by (rewrite Htok; exact Hop).
    rewrite expr_loop_S, Hin, (loop_eat _ _ _ Hin), Hnext. cbn [bind].
    rewrite (term_more _ (Nat.max fuel0 fuel1) _ _ Hrun0) by lia.
    cbn [bind]. rewrite Htok.
    apply (expr_loop_more _ _ _ _ _ Hrun1). lia.
Qed.

(** A chain of terms joined by [+] and [-] is an expression: the tree
    grouped from the left. *)
Lemma expr_chain (a : operand) (rest : list (Token * operand)) :
  chain_of additive a_term a rest ->
  an_expr {| spelled := chain_tokens a rest;
             built := left_fold (built a) rest |}.
Proof.
  intros [Ha Hall] p t tl Hfollow Hreads.
  cbn [spelled built] in *. unfold chain_tokens in Hreads.
  rewrite <- app_assoc in Hreads.
  destruct (chain_rest_head additive a_term
              (fun t' => negb (is_power t' || multiplicative t') = true)
              rest t tl)
    as (t' & tl' & Heq & Ht'); try assumption.
  { apply additive_not_tighter. }
  { apply negb_true_iff, arithmetic_false in Hfollow.
    destruct Hfollow as (Hm & _ & Hp). rewrite Hm, Hp. reflexivity. }
  rewrite Heq in Hreads.
  destruct (Ha p t' tl' Ht' Hreads) as (fuel0 & p1 & Hrun0 & Hreads1).
  rewrite <- Heq in Hreads1.
  destruct (expr_loop_chain rest (built a) p1 t tl Hall Hfollow Hreads1)
    as (fuel1 & p' & Hrun1 & Hleft).
  exists (S (Nat.max fuel0 fuel1)), p'. split; [|exact Hleft].
  rewrite expr_S.
  rewrite (term_more _ (Nat.max fuel0 fuel1) _ _ Hrun0) by lia.
  cbn [bind]. apply (expr_loop_more _ _ _ _ _ Hrun1). lia.
Qed.

(** A factor is a power, a power is a term, a term is an expression. *)
Lemma factor_a_power (a : operand) : a_factor a -> a_power a.
Proof.
  intros Ha. assert (chain_of is_power a_factor a []) as Hc by (split; [exact Ha|constructor]).
  pose proof (power_chain [] a Hc) as H.
  unfold a_power in *. cbn [spelled built right_fold] in H.
  unfold chain_tokens in H. cbn [chain_rest flat_map] in H.
  rewrite app_nil_r in H. exact H.
Qed.

Lemma power_a_term (a : operand) : a_power a -> a_term a.
Proof.
  intros Ha. assert (chain_of multiplicative a_power a []) as Hc
    by (split; [exact Ha|constructor]).
  pose proof (term_chain a [] Hc) as H.
  unfold a_term in *. cbn [spelled built] in H.
  unfold chain_tokens in H. cbn [chain_rest flat_map] in H.
  rewrite app_nil_r in H. exact H.
Qed.

Lemma term_an_expr (a : operand) : a_term a -> an_expr a.
Proof.
  intros Ha. assert (chain_of additive a_term a []) as Hc
    by (split; [exact Ha|constructor]).
  pose proof (expr_chain a [] Hc) as H.
  unfold an_expr in *. cbn [spelled built] in H.
  unfold chain_tokens in H. cbn [chain_rest flat_map] in H.
  rewrite app_nil_r in H. exact H.
Qed.

Lemma atom_a_power (a : Token) : is_operand a = true -> a_power (atom a).
Proof. intros H. apply factor_a_power, atom_a_factor, H. Qed.

Lemma atom_a_term (a : Token) : is_operand a = true -> a_term (atom a).
Proof. intros H. apply power_a_term, atom_a_power, H. Qed.

Lemma assignment_of_expr (fuel : nat) (p p' : Parser) (node : ASTNode) :
  expr fuel p = Ok (node, p') ->
  is_Var node = false ->
  assignment (S fuel) p = Ok (node, p').
Proof.
  intros Hrun Hnode. rewrite assignment_S, Hrun. cbn [bind].
  rewrite Hnode. reflexivity.
Qed.

(** A text lexed to an expression that is not a bare identifier, and then
    a token that is no arithmetic operator, is parsed to the tree of the
    expression. *)
Lemma parse_an_expr (s : string) (a : operand) (stop : Token) :
  an_expr a -> is_Var (built a) = false ->
  lexes_to s (spelled a ++ [stop]) -> arithmetic stop = false ->
  parse_tree s = Ok (built a).
Proof.
  intros Ha Hnode (p & Hinit & Hreads) Hstop.
  assert (Hwf : wf_parser p).
  { pose proof (Parser_init_ok s) as H. rewrite Hinit in H. exact H. }
  destruct (Ha p stop [] (proj2 (negb_true_iff _) Hstop) Hreads)
    as (fuel & p' & Hrun & _).
  pose proof (assignment_of_expr fuel p p' (built a) Hrun Hnode) as Hass.
  unfold parse_tree, parse_text. rewrite Hinit. cbn [bind].
  rewrite (parse_of_assignment _ p _ Hwf Hass). reflexivity.
Qed.

Lemma left_fold_keeps_not_Var (rest : list (Token * operand)) :
  forall node, is_Var node = false -> is_Var (left_fold node rest) = false.
Proof.
  induction rest as [|ob rest IH]; intros node Hnode; [exact Hnode|].
  apply (IH (BinaryOp node (fst ob) (built (snd ob)))). reflexivity.
Qed.

Lemma left_fold_not_Var (node : ASTNode) (rest : list (Token * operand)) :
  rest <> [] -> is_Var (left_fold node rest) = false.
Proof.
  destruct rest as [|ob rest]; [contradiction|]. intros _.
  apply (left_fold_keeps_not_Var rest
           (BinaryOp node (fst ob) (built (snd ob)))).
  reflexivity.
Qed.

Lemma right_fold_not_Var (node : ASTNode) (rest : list (Token * operand)) :
  rest <> [] -> is_Var (right_fold node rest) = false.
Proof.
  destruct rest as [|[op b] rest]; [contradiction|]. intros _. reflexivity.
Qed.

Lemma visit_left_fold (rest : list (Token * operand)) :
  forall node,
    Forall (fun ob => arithmetic (fst ob) = true) rest ->
    visit (left_fold node rest) = eval_left_to_right (visit node) rest.
Proof.
  induction rest as [|ob rest IH]; intros node Hops; [reflexivity|].
  inversion Hops as [|ob' rest' Hop Hrest]. subst.
  unfold left_fold, eval_left_to_right. simpl.
  rewrite <- (visit_BinaryOp_arith node (built (snd ob)) (fst ob) Hop).
  apply (IH (BinaryOp node (fst ob) (built (snd ob))) Hrest).
Qed.

Lemma chain_operators (level : Token -> bool) (kind : operand -> Prop)
  (rest : list (Token * operand)) :
  (forall t, level t = true -> arithmetic t = true) ->
  Forall (fun ob => level (fst ob) = true /\ kind (snd ob)) rest ->
  Forall (fun ob => arithmetic (fst ob) = true) rest.
Proof.
  intros Hlevel Hall. induction Hall as [|ob rest' [Hop _] _ IH];
    constructor; [apply Hlevel; exact Hop|exact IH].
Qed.

(** C3. A text that is lexed to a chain [a op b op c ...], with all its
    operators among * and / and powers for operands, or all among + and -
    and terms for operands, followed by a token that is no arithmetic
    operator, is parsed to the tree grouped from the left,
    [(a op b) op c]; visiting that tree is evaluating the chain from left
    to right; and "5 - 3 - 2" is parsed to (5 - 3) - 2 and evaluates to
    0. *)
Theorem left_associative_chains
  (s : string) (a : operand) (rest : list (Token * operand)) (stop : Token) :
  lexes_to s (chain_tokens a rest ++ [stop]) ->
  chain_of multiplicative a_power a rest \/ chain_of additive a_term a rest ->
  rest <> [] ->
  arithmetic stop = false ->
  parse_tree s = Ok (left_fold (built a) rest) /\
  interpret (left_fold (built a) rest) =
    eval_left_to_right (visit (built a)) rest /\
  parse_tree "5 - 3 - 2" =
    Ok (BinaryOp (BinaryOp (Num (Int 5)) TMinus (Num (Int 3)))
          TMinus (Num (Int 2))) /\
  run "5 - 3 - 2" ∅ = Some (Returns (Number (Int 0)), ∅).
Proof.
  intros Hlex Hchain Hne Hstop.
  split; [|split; [|split; vm_compute; reflexivity]].
  - apply (parse_an_expr s
             {| spelled := chain_tokens a rest;
                built := left_fold (built a) rest |} stop);
      [|apply left_fold_not_Var; exact Hne|exact Hlex|exact Hstop].
    destruct Hchain as [Hmul|Hadd].
    + apply term_an_expr, term_chain, Hmul.
    + apply expr_chain, Hadd.
  - unfold interpret. apply visit_left_fold.
    destruct Hchain as [[_ Hmul]|[_ Hadd]].
    + apply (chain_operators multiplicative a_power); [|exact Hmul].
      intros t Ht. unfold arithmetic. rewrite Ht. reflexivity.
    + apply (chain_operators additive a_term); [|exact Hadd].
      intros t Ht. unfold arithmetic. rewrite Ht, orb_true_r. reflexivity.
Qed.

(** C2. A text that is lexed to a chain [a ** b ** c ...] of factors with
    two or more power operators, followed by a token that is no arithmetic
    operator, is parsed to the tree grouped from the right,
    [a ** (b ** c)]; and "2 ** 3 ** 2" is parsed to 2 ** (3 ** 2) and
    evaluates to 512. *)
Theorem power_chains_fold_right
  (s : string) (a : operand) (rest : list (Token * operand)) (stop : Token) :
  lexes_to s (chain_tokens a rest ++ [stop]) ->
  chain_of is_power a_factor a rest ->
  2 <= length rest ->
  arithmetic stop = false ->
  parse_tree s = Ok (right_fold (built a) rest) /\
  parse_tree "2 ** 3 ** 2" =
    Ok (BinaryOp (Num (Int 2)) TPower
          (BinaryOp (Num (Int 3)) TPower (Num (Int 2)))) /\
  run "2 ** 3 ** 2" ∅ = Some (Returns (Number (Int 512)), ∅).
Proof.
  intros Hlex Hchain Hlen Hstop.
  split; [|split; vm_compute; reflexivity].
  apply (parse_an_expr s
           {| spelled := chain_tokens a rest;
              built := right_fold (built a) rest |} stop);
    [|apply right_fold_not_Var|exact Hlex|exact Hstop].
  - apply term_an_expr, power_a_term, power_chain, Hchain.
  - intros ->. simpl in Hlen. lia.
Qed.

(** ** Parser: chains of assignments *)

Lemma assignment_more
  (fuel fuel' : nat) (p : Parser) (r : ASTNode * Parser) :
  assignment fuel p = Ok r -> fuel <= fuel' -> assignment fuel' p = Ok r.
Proof.
  intros H Hle. apply (approx_Ok _ _ _ (assignment_fuel_le _ _ p Hle) H).
Qed.

Lemma assignment_chain_parse (names : list string) :
  forall (e : operand) (p : Parser) (stop : Token) (tl : list Token),
    an_expr e -> arithmetic stop = false -> type stop <> ASSIGN ->
    reads (assign_tokens names ++ spelled e ++ stop :: tl) p ->
    exists fuel p',
      assignment fuel p = Ok (assign_right names (built e), p') /\
      reads (stop :: tl) p'.
Proof.
  induction names as [|name names IH]; intros e p stop tl He Hstop Hne Hreads.
  - cbn [assign_tokens flat_map app] in Hreads.
    destruct (He p stop tl (proj2 (negb_true_iff _) Hstop) Hreads)
      as (fuel & p' & Hrun & Hleft).
    exists (S fuel), p'. split; [|exact Hleft].
    rewrite assignment_S, Hrun. cbn [bind].
    rewrite (reads_head _ _ _ Hleft).
    rewrite (bool_decide_eq_false_2 _ Hne), andb_false_r. reflexivity.
  - change (assign_tokens (name :: names) ++ spelled e ++ stop :: tl)
      with (spelled (atom (TIdentifier name)) ++
            TAssign :: (assign_tokens names ++ spelled e ++ stop :: tl))
      in Hreads.
    assert (Hx : an_expr (atom (TIdentifier name)))
      by (apply term_an_expr, atom_a_term; reflexivity).
    destruct (Hx p TAssign _ eq_refl Hreads) as (fuel0 & p1 & Hrun0 & Hreads1).
    apply reads_step in Hreads1;
      [|rewrite app_assoc; apply app_cons_not_nil].
    destruct Hreads1 as (Htok1 & p2 & Hnext1 & Hreads2).
    destruct (IH e p2 stop tl He Hstop Hne Hreads2)
      as (fuel1 & p' & Hrun1 & Hleft).
    exists (S (Nat.max fuel0 fuel1)), p'. split; [|exact Hleft].
    rewrite assignment_S.
    rewrite (expr_more _ (Nat.max fuel0 fuel1) _ _ Hrun0) by lia.
    cbn [bind atom built leaf is_Var]. rewrite Htok1.
    cbn [type]. rewrite bool_decide_eq_true_2 by reflexivity.
    cbn [andb].
    rewrite (eat_next p1 ASSIGN) by (rewrite Htok1; reflexivity).
    rewrite Hnext1. cbn [bind].
    rewrite (assignment_more _ (Nat.max fuel0 fuel1) _ _ Hrun1) by lia.
    reflexivity.
Qed.

(** C5. Visiting an Assignment node visits the value expression first; when
    that returns a value the value is stored under the target's name, over
    any binding the name had, and is returned; when it raises, nothing is
    stored. A chain of assignments [x1 = x2 = ... = value] is parsed
    nested to the right, and "c = b = a = 15" interpreted in the empty
    dictionary returns 15 and leaves a, b and c bound to 15. *)
Theorem visit_Assign_stores (name : string) (e : ASTNode) (vars : env) :
  (forall v vars',
     interpret e vars = (Returns v, vars') ->
     interpret (Assign (Var name) e) vars = (Returns v, <[name := v]> vars')
     /\ (<[name := v]> vars') !! name = Some v) /\
  (forall ex vars',
     interpret e vars = (Raises ex, vars') ->
     interpret (Assign (Var name) e) vars = (Raises ex, vars')) /\
  (forall s names value stop,
     lexes_to s (assign_tokens names ++ spelled value ++ [stop]) ->
     an_expr value -> arithmetic stop = false -> type stop <> ASSIGN ->
     parse_tree s = Ok (assign_right names (built value))) /\
  parse_tree "c = b = a = 15" =
    Ok (Assign (Var "c") (Assign (Var "b")
         (Assign (Var "a") (Num (Int 15))))) /\
  run "c = b = a = 15" ∅ =
    Some (Returns (Number (Int 15)),
          <["c" := Number (Int 15)]>
            (<["b" := Number (Int 15)]>
               (<["a" := Number (Int 15)]> ∅))).
Proof.
  unfold interpret.
  split; [|split; [|split; [|split]]].
  - intros v vars' He. rewrite visit_Assign_Var, He.
    split; [reflexivity|apply lookup_insert_eq].
  - intros ex vars' He. rewrite visit_Assign_Var, He. reflexivity.
  - intros s names value stop (p & Hinit & Hreads) Hval Hstop Hne.
    assert (Hwf : wf_parser p).
    { pose proof (Parser_init_ok s) as H. rewrite Hinit in H. exact H. }
    destruct (assignment_chain_parse names value p stop [] Hval Hstop Hne
                Hreads) as (fuel & p' & Hrun & _).
    unfold parse_tree, parse_text. rewrite Hinit. cbn [bind].
    rewrite (parse_of_assignment _ p _ Hwf Hrun). reflexivity.
  - vm_compute. reflexivity.
  - vm_compute. reflexivity.
Qed.

(** C4, as the program has it. [factor] gives a sign another [factor] as
    its operand, not a [power]: a text lexed to [- a ** b] is parsed to the
    power whose base is the negation of [a]; "-2 ** 2" is parsed to
    (-2) ** 2, and its value is 4. *)
Theorem unary_minus_binds_inside_power :
  (forall s a b stop,
     lexes_to s [TMinus; a; TPower; b; stop] ->
     is_operand a = true -> is_operand b = true ->
     arithmetic stop = false ->
     parse_tree s =
       Ok (BinaryOp (UnaryOp TMinus (leaf a)) TPower (leaf b))) /\
  parse_tree "-2 ** 2" =
    Ok (BinaryOp (UnaryOp TMinus (Num (Int 2))) TPower (Num (Int 2))) /\
  run "-2 ** 2" ∅ = Some (Returns (Number (Int 4)), ∅).
Proof.
  split; [|split; vm_compute; reflexivity].
  intros s a b stop Hlex Ha Hb Hstop.
  pose (minus_a := {| spelled := TMinus :: spelled (atom a);
                      built := UnaryOp TMinus (built (atom a)) |}).
  apply (parse_an_expr s
           {| spelled := chain_tokens minus_a [(TPower, atom b)];
              built := right_fold (built minus_a) [(TPower, atom b)] |}
           stop); [|reflexivity|exact Hlex|exact Hstop].
  apply term_an_expr, power_a_term, power_chain.
  split.
  - apply sign_a_factor; [right; reflexivity|apply atom_a_factor; exact Ha].
  - repeat constructor. apply atom_a_factor. exact Hb.
Qed.

(** ** The scenarios of the demonstration *)

Example mixed_precedence :
  parse_tree "1 + 2 * 3 ** 2 - 4" =
    Ok (BinaryOp
          (BinaryOp (Num (Int 1)) TPlus
             (BinaryOp (Num (Int 2)) TMultiply
                (BinaryOp (Num (Int 3)) TPower (Num (Int 2)))))
          TMinus (Num (Int 4))) /\
  run "1 + 2 * 3 ** 2 - 4" ∅ = Some (Returns (Number (Int 15)), ∅).
Proof. split; vm_compute; reflexivity. Qed.

Example parentheses_leave_no_node :
  parse_tree "(2 ** 3) ** 2" =
    Ok (BinaryOp (BinaryOp (Num (Int 2)) TPower (Num (Int 3)))
          TPower (Num (Int 2))) /\
  run "(2 ** 3) ** 2" ∅ = Some (Returns (Number (Int 64)), ∅).
Proof. split; vm_compute; reflexivity. Qed.

Example division_by_zero :
  run "5 / 0" ∅ = Some (Raises ZeroDivisionError, ∅).
Proof. vm_compute. reflexivity. Qed.

Example premature_end_of_input :
  parse_tree "2 +" = Raise (UnexpectedToken TEOF).
Proof. vm_compute. reflexivity. Qed.

Example unmatched_parenthesis :
  parse_tree "(2 + 3" = Raise (UnexpectedToken TEOF).
Proof. vm_compute. reflexivity. Qed.

Example invalid_character :
  parse_tree "2 @ 3" = Raise (InvalidCharacter 2).
Proof. vm_compute. reflexivity. Qed.

Example assignment_in_parentheses_is_refused :
  parse_tree "(b = 2)" = Raise (UnexpectedToken TAssign).
Proof. vm_compute. reflexivity. Qed.

Example superscript_digit_is_no_number :
  parse_tree (String (ascii_of_nat 178) EmptyString) = Raise ValueError.
Proof. vm_compute. reflexivity. Qed.

(** On a tree that no text is parsed to, an assignment completed before
    the exception stays written. *)
Example completed_assignment_survives :
  interpret
    (BinaryOp (Assign (Var "a") (Num (Int 1))) TPlus (Var "zz")) ∅ =
    (Raises (NameError "zz"), <["a" := Number (Int 1)]> ∅) /\
  completed_assignments
    (BinaryOp (Assign (Var "a") (Num (Int 1))) TPlus (Var "zz")) ∅ =
    [("a", Number (Int 1))].
Proof. split; vm_compute; reflexivity. Qed.

End Properties.

(** * The properties at concrete inputs, on the host of the integers *)

Lemma lexes_5_minus_3_minus_2 :
  @lexes_to integers_only integer_host "5 - 3 - 2"
    (chain_tokens (atom (TNumber (Int 5)))
       [(TMinus, atom (TNumber (Int 3))); (TMinus, atom (TNumber (Int 2)))]
     ++ [TEOF]).
Proof.
  eexists. split; [vm_compute; reflexivity|].
  split; [reflexivity|].
  repeat (eexists; split; [vm_compute; reflexivity|split; [reflexivity|]]).
  exact I.
Defined.

Lemma lexes_2_pow_3_pow_2 :
  @lexes_to integers_only integer_host "2 ** 3 ** 2"
    (chain_tokens (atom (TNumber (Int 2)))
       [(TPower, atom (TNumber (Int 3))); (TPower, atom (TNumber (Int 2)))]
     ++ [TEOF]).
Proof.
  eexists. split; [vm_compute; reflexivity|].
  split; [reflexivity|].
  repeat (eexists; split; [vm_compute; reflexivity|split; [reflexivity|]]).
  exact I.
Defined.

Lemma power_chains_fold_right_witness :
  @parse_tree integers_only integer_host "2 ** 3 ** 2" =
    Ok (right_fold (Num (Int 2))
          [(TPower, atom (TNumber (Int 3)));
           (TPower, atom (TNumber (Int 2)))]).
Proof.
  refine (proj1 (@power_chains_fold_right integers_only integer_host
                   "2 ** 3 ** 2" (atom (TNumber (Int 2)))
                   [(TPower, atom (TNumber (Int 3)));
                    (TPower, atom (TNumber (Int 2)))]
                   TEOF lexes_2_pow_3_pow_2 _ _ _)).
  - split; [apply atom_a_factor; reflexivity|].
    repeat constructor; apply atom_a_factor; reflexivity.
  - simpl. lia.
  - reflexivity.
Defined.

Lemma left_associative_chains_witness :
  @parse_tree integers_only integer_host "5 - 3 - 2" =
    Ok (left_fold (Num (Int 5))
          [(TMinus, atom (TNumber (Int 3)));
           (TMinus, atom (TNumber (Int 2)))]).
Proof.
  refine (proj1 (@left_associative_chains integers_only integer_host
                   "5 - 3 - 2" (atom (TNumber (Int 5)))
                   [(TMinus, atom (TNumber (Int 3)));
                    (TMinus, atom (TNumber (Int 2)))]
                   TEOF lexes_5_minus_3_minus_2 _ _ _)).
  - right. split; [apply atom_a_term; reflexivity|].
    repeat constructor; apply atom_a_term; reflexivity.
  - discriminate.
  - reflexivity.
Defined.


Lemma parse_stops_without_checking_EOF_witness :
  @arithmetic integers_only (@TAssign integers_only) = false.
Proof.
  refine (proj1 (@parse_stops_without_checking_EOF integers_only integer_host
                   "1 + 2 = 3"
                   (BinaryOp (Num (Int 1)) TPlus (Num (Int 2)))
                   {| lexer := {| text := "1 + 2 = 3"; pos := 7;
                                  current_char := Some " "%char |};
                      current_token := TAssign |} _)).
  vm_compute. reflexivity.
Defined.

(** C1, as claimed, fails: on "1 + 2 = 3" the parser raises nothing; it
    returns the tree of 1 + 2 and the = is left in hand. *)
Lemma parse_accepts_text_with_leftover_assign :
  (exists p',
     @parse_text integers_only integer_host "1 + 2 = 3" =
       Ok (BinaryOp (Num (Int 1)) TPlus (Num (Int 2)), p') /\
     current_token p' = TAssign) /\
  ~ (exists e, @parse_text integers_only integer_host "1 + 2 = 3" = Raise e).
Proof.
  split.
  - eexists. split; [vm_compute; reflexivity|reflexivity].
  - intros [e He]. vm_compute in He. discriminate He.
Defined.

Lemma parse_targets_are_variables_witness :
  @targets_are_variables integers_only
    (Assign (Var "c") (Assign (Var "b") (Assign (Var "a") (Num (Int 15)))))
  = true.
Proof.
  refine (proj1 (@parse_targets_are_variables integers_only integer_host
                   "c = b = a = 15" _ _)).
  vm_compute. reflexivity.
Defined.

Lemma failed_interpret_keeps_completed_assignments_witness :
  snd (@interpret integers_only integer_host
         (Assign (Var "a")
            (BinaryOp (Num (Int 1)) TDivide (Num (Int 0)))) ∅) =
  write_all
    (@completed_assignments integers_only integer_host
       (Assign (Var "a")
          (BinaryOp (Num (Int 1)) TDivide (Num (Int 0)))) ∅) ∅.
Proof.
  refine (proj1 (@failed_interpret_keeps_completed_assignments
                   integers_only integer_host "a = 1 / 0" _ ∅
                   ZeroDivisionError _ _)).
  - vm_compute. reflexivity.
  - vm_compute. reflexivity.
Defined.

Lemma interpret_without_Assign_idempotent_witness :
  snd (@interpret integers_only integer_host
         (BinaryOp (Num (Int 1)) TPlus (Var "x")) ∅) = ∅.
Proof.
  refine (proj1 (@interpret_without_Assign_idempotent
                   integers_only integer_host
                   (BinaryOp (Num (Int 1)) TPlus (Var "x")) ∅ _)).
  reflexivity.
Defined.

Lemma blank_text_is_unexpected_EOF_witness :
  @parse_text integers_only integer_host "   " = Raise (UnexpectedToken TEOF).
Proof.
  refine (proj2 (proj2 (@blank_text_is_unexpected_EOF
                          integers_only integer_host "   " _))).
  reflexivity.
Defined.

(** * Further properties of the lexer, the parser and the interpreter *)

Section More.

Context {numbers : HostNumbers} {host : Host}.

(** ** Lexer: progress, end of input, errors *)

(** The characters [get_next_token] has a branch for. *)
Definition recognised (c : ascii) : bool :=
  isspace c || isdigit c || isalpha c || Ascii.eqb c "_"%char
  || Ascii.eqb c "+"%char || Ascii.eqb c "-"%char || Ascii.eqb c "*"%char
  || Ascii.eqb c "/"%char || Ascii.eqb c "="%char || Ascii.eqb c "("%char
  || Ascii.eqb c ")"%char.

(** The position is that of a character of the text that the lexer has no
    branch for. *)
Definition unrecognised_at (s : string) (n : nat) : Prop :=
  exists c, String.get n s = Some c /\ recognised c = false.

Lemma get_next_token_loop_EOF
  (fuel : nat) (lx lx' : Lexer) (tok : Token) :
  get_next_token_loop fuel lx = Ok (tok, lx') -> type tok = EOF ->
  current_char lx' = None.
Proof.
  revert lx. induction fuel as [|fuel IH]; intros lx Hrun Htok; simpl in Hrun;
    (destruct (current_char lx) as [c|] eqn:Hc;
     [|inversion Hrun; subst; exact Hc]);
    (destruct (isspace c);
     [|destruct (isdigit c);
       [destruct (Lexer_number lx) as [[n lx1]| |]; simpl in Hrun;
        inversion Hrun; subst; discriminate Htok|];
       destruct (isalpha c || Ascii.eqb c "_");
       [destruct (identifier lx) as [[s lx1]| |]; simpl in Hrun;
        inversion Hrun; subst; discriminate Htok|];
       repeat match type of Hrun with
         | (if ?b then _ else _) = _ => destruct b
         end;
       inversion Hrun; subst; discriminate Htok]).
  - discriminate Hrun.
  - destruct (skip_whitespace lx) as [lx1| |]; simpl in Hrun;
      [apply (IH lx1 Hrun Htok)|discriminate Hrun|discriminate Hrun].
Qed.

(** X1. The end-of-input token is final: once [get_next_token] has returned
    it, every later call returns it again and leaves the lexer as it is. *)
Theorem EOF_is_final (lx lx' : Lexer) (tok : Token) :
  get_next_token lx = Ok (tok, lx') -> type tok = EOF ->
  tok = TEOF /\ get_next_token lx' = Ok (TEOF, lx').
Proof.
  intros Hrun Htok. split; [destruct tok; try discriminate Htok; reflexivity|].
  unfold get_next_token. apply get_next_token_loop_None.
  apply (get_next_token_loop_EOF _ lx lx' tok Hrun Htok).
Qed.

(** X2. From a lexer whose character in hand is the one under its cursor, as
    [Lexer(text)] builds it and every method leaves it, [get_next_token]
    returns or raises; when it returns, the text is the same, the lexer is
    again such a lexer, and a token other than EOF has used up at least one
    character. *)
Theorem get_next_token_consumes (lx : Lexer) :
  wf_lexer lx ->
  get_next_token lx <> Diverge /\
  forall tok lx',
    get_next_token lx = Ok (tok, lx') ->
    wf_lexer lx' /\ text lx' = text lx /\
    remaining lx' <= remaining lx /\
    (type tok <> EOF -> remaining lx' < remaining lx).
Proof.
  intros Hwf. pose proof (get_next_token_ok lx Hwf) as H.
  split.
  - intros E. rewrite E in H. exact H.
  - intros tok lx' E. rewrite E in H. destruct H as [(H1 & H2 & H3) H4].
    repeat split; assumption.
Qed.

(** What the lexer raises: [Lexer.error] at a character it has no branch
    for, or the ValueError of [int] and [float] on a malformed number. *)
Definition lexer_error (s : string) (e : exn) : Prop :=
  match e with
  | InvalidCharacter n => unrecognised_at s n
  | ValueError => True
  | _ => False
  end.

Lemma get_next_token_loop_raises (fuel : nat) (lx : Lexer) (e : exn) :
  wf_lexer lx ->
  get_next_token_loop fuel lx = Raise e ->
  lexer_error (text lx) e.
Proof.
  revert lx. induction fuel as [|fuel IH]; intros lx Hwf Hrun; simpl in Hrun;
    (destruct (current_char lx) as [c|] eqn:Hc; [|discriminate Hrun]);
    (destruct (isspace c) eqn:E1;
     [|destruct (isdigit c) eqn:E2;
       [unfold Lexer_number in Hrun;
        destruct (number_loop_ok (remaining lx) EmptyString lx Hwf (le_n _))
          as (s & lx1 & E & _);
        rewrite E in Hrun; simpl in Hrun;
        unfold number_of_text in Hrun;
        destruct (has_dot s);
        [destruct (float_of_text s)|destruct (int_of_text s)];
        inversion Hrun; exact I|];
       destruct (isalpha c || Ascii.eqb c "_") eqn:E3;
       [unfold identifier in Hrun;
        destruct (identifier_loop_ok (remaining lx) EmptyString lx Hwf (le_n _))
          as (s & lx1 & E & _);
        rewrite E in Hrun; simpl in Hrun; discriminate Hrun|];
       apply orb_false_iff in E3; destruct E3 as [E3 E3'];
       destruct (Ascii.eqb c "+") eqn:E4; [discriminate Hrun|];
       destruct (Ascii.eqb c "-") eqn:E5; [discriminate Hrun|];
       destruct (Ascii.eqb c "*") eqn:E6;
       [destruct (char_is _ _); discriminate Hrun|];
       destruct (Ascii.eqb c "/") eqn:E7; [discriminate Hrun|];
       destruct (Ascii.eqb c "=") eqn:E8; [discriminate Hrun|];
       destruct (Ascii.eqb c "(") eqn:E9; [discriminate Hrun|];
       destruct (Ascii.eqb c ")") eqn:E10; [discriminate Hrun|];
       unfold Lexer_error in Hrun; inversion Hrun; subst;
       exists c; split; [rewrite <- Hwf; exact Hc|];
       unfold recognised;
       rewrite E1, E2, E3, E3', E4, E5, E6, E7, E8, E9, E10; reflexivity]).
  - discriminate Hrun.
  - unfold skip_whitespace in Hrun.
    destruct (skip_whitespace_loop_ok (remaining lx) lx Hwf (le_n _))
      as (lx1 & E & (Hwf1 & Htext & _) & _).
    rewrite E in Hrun. simpl in Hrun. rewrite <- Htext.
    apply (IH lx1 Hwf1 Hrun).
Qed.

(** ** Parser: what it raises *)

(** What the parser raises: what the lexer raises, or [Parser.error] on a
    token that is neither [+] nor [-]. *)
Definition parser_error (s : string) (e : exn) : Prop :=
  match e with
  | UnexpectedToken tok => additive tok = false
  | _ => lexer_error s e
  end.

(** A property of what a call returns and one of what it raises. *)
Definition sat {A} (Qok : A -> Prop) (Qerr : exn -> Prop) (r : result A)
  : Prop :=
  match r with
  | Ok a => Qok a
  | Raise e => Qerr e
  | Diverge => True
  end.

Lemma sat_bind {A B} (Q1 : A -> Prop) (Q : B -> Prop) (Qerr : exn -> Prop)
  (m : result A) (k : A -> result B) :
  sat Q1 Qerr m -> (forall a, m = Ok a -> Q1 a -> sat Q Qerr (k a)) ->
  sat Q Qerr (bind m k).
Proof.
  destruct m as [a| |]; simpl; intros H1 Hk;
    [apply (Hk a eq_refl H1)|exact H1|exact I].
Qed.

(** The parser over the text [s]. *)
Definition parser_on (s : string) (p : Parser) : Prop :=
  wf_parser p /\ text (lexer p) = s.

Lemma next_sat (s : string) (p : Parser) :
  parser_on s p -> sat (parser_on s) (parser_error s) (next p).
Proof.
  intros [Hwf Htext]. unfold next.
  pose proof (get_next_token_ok (lexer p) Hwf) as Hok.
  destruct (get_next_token (lexer p)) as [[tok lx']|e|] eqn:E; simpl;
    [|
    |exact I].
  - destruct Hok as [(Hwf' & Ht & _) _]. split; [exact Hwf'|].
    simpl. congruence.
  - pose proof (get_next_token_loop_raises _ _ e Hwf E) as He.
    rewrite Htext in He. destruct e; simpl in *; try exact He. contradiction.
Qed.

Lemma eat_sat (s : string) (p : Parser) (ty : TokenType) :
  parser_on s p ->
  additive (current_token p) = false \/ type (current_token p) = ty ->
  sat (parser_on s) (parser_error s) (eat p ty).
Proof.
  intros Hp Hcase. unfold eat.
  destruct (decide (type (current_token p) = ty)) as [Heq|Hne].
  - apply next_sat. exact Hp.
  - simpl. destruct Hcase as [H|H]; [exact H|contradiction].
Qed.

Ltac sat_eat :=
  eapply sat_bind;
  [ apply eat_sat;
    [ assumption
    | first
        [ right; reflexivity
        | right; assumption
        | right;
          match goal with
          | H : current_token ?q = _ |- type (current_token ?q) = _ =>
              rewrite H; reflexivity
          end
        | left; assumption ] ]
  | let H := fresh "Hon" in intros ?p _ H; cbv beta in H ].

Ltac sat_next :=
  eapply sat_bind;
  [ apply next_sat; assumption
  | let H := fresh "Hon" in intros ?p _ H; cbv beta in H ].

Ltac sat_call IH :=
  eapply sat_bind;
  [ apply IH; assumption
  | let E := fresh "Erun" in
    let H := fresh "Hon" in
    intros [?node ?p] E H; cbv beta in H; simpl in H ].

Lemma rules_raise (s : string) (fuel : nat) :
  (forall p, parser_on s p ->
     sat (fun a => parser_on s (snd a)) (parser_error s) (factor fuel p)) /\
  (forall p, parser_on s p ->
     sat (fun a => parser_on s (snd a)) (parser_error s) (power fuel p)) /\
  (forall node p, parser_on s p ->
     sat (fun a => parser_on s (snd a)) (parser_error s)
       (term_loop fuel node p)) /\
  (forall p, parser_on s p ->
     sat (fun a => parser_on s (snd a)) (parser_error s) (term fuel p)) /\
  (forall node p, parser_on s p ->
     sat (fun a => parser_on s (snd a)) (parser_error s)
       (expr_loop fuel node p)) /\
  (forall p, parser_on s p ->
     sat (fun a => parser_on s (snd a)) (parser_error s) (expr fuel p)).
Proof.
  induction fuel as [|fuel (IHf & IHp & IHtl & IHt & IHel & IHe)].
  { repeat split; intros; exact I. }
  split; [|split; [|split; [|split; [|split]]]].
  - intros p Hp. rewrite factor_S.
    destruct (current_token p) eqn:Htok;
      try (unfold Parser_error; rewrite Htok; reflexivity).
    + sat_eat. exact Hon.
    + sat_eat. exact Hon.
    + sat_eat. sat_call IHf. exact Hon0.
    + sat_eat. sat_call IHf. exact Hon0.
    + sat_eat. sat_call IHe.
      destruct (rules_stop fuel) as (_ & _ & _ & _ & Hstop).
      pose proof (when_ok_elim _ _ _ (Hstop p0) Erun) as Har.
      apply arithmetic_false in Har. destruct Har as (_ & Hadd & _).
      unfold token_left in Hadd. simpl in Hadd.
      sat_eat. exact Hon1.
  - intros p Hp. rewrite power_S. sat_call IHf.
    destruct (decide _) as [Hpow|_]; [|exact Hon].
    sat_eat. sat_call IHp. exact Hon1.
  - intros node p Hp. rewrite term_loop_S.
    destruct (type_in _ _ _) eqn:Hin; [|exact Hp].
    rewrite (loop_eat _ _ _ Hin). sat_next. sat_call IHp.
    apply IHtl. exact Hon0.
  - intros p Hp. rewrite term_S. sat_call IHp. apply IHtl. exact Hon.
  - intros node p Hp. rewrite expr_loop_S.
    destruct (type_in _ _ _) eqn:Hin; [|exact Hp].
    rewrite (loop_eat _ _ _ Hin). sat_next. sat_call IHt.
    apply IHel. exact Hon0.
  - intros p Hp. rewrite expr_S. sat_call IHt. apply IHel. exact Hon.
Qed.

Lemma assignment_raises (s : string) (fuel : nat) (p : Parser) :
  parser_on s p ->
  sat (fun a => parser_on s (snd a)) (parser_error s) (assignment fuel p).
Proof.
  revert p. induction fuel as [|fuel IH]; intros p Hp; [exact I|].
  rewrite assignment_S.
  destruct (rules_raise s fuel) as (_ & _ & _ & _ & _ & IHe).
  sat_call IHe.
  destruct (is_Var node && _) eqn:Hvar; [|exact Hon].
  apply andb_true_iff in Hvar. destruct Hvar as [_ Hass].
  apply bool_decide_eq_true in Hass.
  sat_eat. sat_call IH. exact Hon1.
Qed.

Lemma parse_text_raises (s : string) (e : exn) :
  parse_text s = Raise e -> parser_error s e.
Proof.
  intros Hrun.
  assert (H : sat (fun a => parser_on s (snd a)) (parser_error s)
                (parse_text s)).
  { unfold parse_text, Parser_init.
    pose proof (get_next_token_ok _ (Lexer_init_wf s)) as Hok.
    destruct (get_next_token (Lexer_init s)) as [[tok lx']|e'|] eqn:E; simpl;
      [| |exact I].
    - destruct Hok as [(Hwf' & Ht & _) _].
      apply assignment_raises. split; [exact Hwf'|exact Ht].
    - pose proof (get_next_token_loop_raises _ _ e' (Lexer_init_wf s) E) as He.
      destruct e'; simpl in *; try exact He. contradiction. }
  rewrite Hrun in H. exact H.
Qed.

(** X3. The parser raises three kinds of exception and no other: that of the
    lexer at a character it has no branch for, the ValueError of a malformed
    number, and its own at an unexpected token; and the token it calls
    unexpected is never [+] or [-], with which a factor can always begin. *)
Theorem parse_raises_three_kinds (s : string) (e : exn) :
  parse_text s = Raise e ->
  (exists n, e = InvalidCharacter n) \/ e = ValueError \/
  (exists tok, e = UnexpectedToken tok /\ type tok <> PLUS /\
               type tok <> MINUS).
Proof.
  intros Hrun. pose proof (parse_text_raises s e Hrun) as He.
  destruct e; simpl in He; try contradiction.
  - left. eexists. reflexivity.
  - right. right. exists token. split; [reflexivity|].
    unfold additive, type_in in He. apply orb_false_iff in He.
    destruct He as [H1 H2].
    apply bool_decide_eq_false in H1. apply bool_decide_eq_false in H2.
    split; assumption.
  - right. left. reflexivity.
Qed.

(** X4. The position carried by the exception of [Lexer.error], wherever in
    the parse it is raised, is the index of a character of the text, and that
    character is none of those the lexer has a branch for. *)
Theorem invalid_character_position (s : string) (n : nat) :
  parse_text s = Raise (InvalidCharacter n) ->
  n < String.length s /\
  exists c, String.get n s = Some c /\ recognised c = false.
Proof.
  intros Hrun. pose proof (parse_text_raises s _ Hrun) as (c & Hget & Hc).
  split; [|exists c; split; assumption].
  destruct (Nat.lt_ge_cases n (String.length s)) as [H|H]; [exact H|].
  apply get_None_ge in H. congruence.
Qed.

(** X5. The parser returns or raises on every text: the fuel that [parse] is
    given, four units for each character of the text and nine more, is never
    used up, so the calls of the rules never nest deeper than that. (The limit
    of the host on the depth of recursion is not modelled.) *)
Theorem parse_terminates_on_every_text (s : string) :
  parse_text s <> Diverge /\
  forall p, Parser_init (Lexer_init s) = Ok p ->
            parse_fuel p <= 4 * String.length s + 9.
Proof.
  split; [apply parse_text_terminates|].
  intros p Hinit. unfold Parser_init in Hinit.
  pose proof (get_next_token_ok _ (Lexer_init_wf s)) as Hok.
  destruct (get_next_token (Lexer_init s)) as [[tok lx']| |]; simpl in *;
    try discriminate Hinit.
  inversion Hinit. subst p. destruct Hok as [(_ & _ & Hle) _].
  unfold parse_fuel. simpl. unfold remaining in Hle at 2. simpl in Hle.
  lia.
Qed.

(** ** Parser: the operators and the shape of its trees *)

(** Every [BinaryOp] node carries one of the five arithmetic operators and
    every [UnaryOp] node a sign. *)
Fixpoint operators_known (node : ASTNode) : bool :=
  match node with
  | BinaryOp l op r => arithmetic op && operators_known l && operators_known r
  | UnaryOp op e => additive op && operators_known e
  | Num _ | Var _ => true
  | Assign l r => operators_known l && operators_known r
  end.

Ltac skip_token :=
  eapply when_ok_bind; [apply when_ok_any|intros ?p _].

Ltac use_call IH :=
  eapply when_ok_bind;
  [ apply IH; try assumption
  | let H := fresh "Hcall" in intros [?node ?p] H; cbv beta in H; simpl in H ].

Lemma rules_operators (fuel : nat) :
  (forall p,
     when_ok (fun a => operators_known (fst a) = true) (factor fuel p)) /\
  (forall p,
     when_ok (fun a => operators_known (fst a) = true) (power fuel p)) /\
  (forall node p, operators_known node = true ->
     when_ok (fun a => operators_known (fst a) = true)
       (term_loop fuel node p)) /\
  (forall p,
     when_ok (fun a => operators_known (fst a) = true) (term fuel p)) /\
  (forall node p, operators_known node = true ->
     when_ok (fun a => operators_known (fst a) = true)
       (expr_loop fuel node p)) /\
  (forall p,
     when_ok (fun a => operators_known (fst a) = true) (expr fuel p)).
Proof.
  induction fuel as [|fuel (IHf & IHp & IHtl & IHt & IHel & IHe)].
  { repeat split; intros; exact I. }
  split; [|split; [|split; [|split; [|split]]]].
  - intros p. rewrite factor_S.
    destruct (current_token p); try exact I.
    + skip_token. reflexivity.
    + skip_token. reflexivity.
    + skip_token. use_call IHf. exact Hcall.
    + skip_token. use_call IHf. exact Hcall.
    + skip_token. use_call IHe. skip_token. exact Hcall.
  - intros p. rewrite power_S. use_call IHf.
    destruct (decide _) as [Hpow|_]; [|exact Hcall].
    skip_token. use_call IHp. simpl. rewrite Hcall, Hcall0.
    unfold arithmetic, is_power.
    rewrite (bool_decide_eq_true_2 _ Hpow), orb_true_r. reflexivity.
  - intros node p Hnode. rewrite term_loop_S.
    destruct (type_in _ _ _) eqn:Hin; [|exact Hnode].
    skip_token. use_call IHp. apply IHtl. simpl. rewrite Hnode, Hcall.
    unfold arithmetic, multiplicative. rewrite Hin. reflexivity.
  - intros p. rewrite term_S. use_call IHp. apply IHtl. exact Hcall.
  - intros node p Hnode. rewrite expr_loop_S.
    destruct (type_in _ _ _) eqn:Hin; [|exact Hnode].
    skip_token. use_call IHt. apply IHel. simpl. rewrite Hnode, Hcall.
    unfold arithmetic, additive. rewrite Hin, orb_true_r. reflexivity.
  - intros p. rewrite expr_S. use_call IHt. apply IHel. exact Hcall.
Qed.

Lemma assignment_operators (fuel : nat) (p : Parser) :
  when_ok (fun a => operators_known (fst a) = true) (assignment fuel p).
Proof.
  revert p. induction fuel as [|fuel IH]; intros p; [exact I|].
  rewrite assignment_S.
  destruct (rules_operators fuel) as (_ & _ & _ & _ & _ & IHe).
  use_call IHe.
  destruct (is_Var node && _); [|exact Hcall].
  skip_token. use_call IH. simpl. rewrite Hcall, Hcall0. reflexivity.
Qed.

Lemma parse_tree_of_assignment (s : string) (tree : ASTNode) :
  parse_tree s = Ok tree ->
  exists p p', assignment (parse_fuel p) p = Ok (tree, p').
Proof.
  intros Hparse. unfold parse_tree, parse_text in Hparse.
  apply bind_Ok in Hparse. destruct Hparse as ([tree' p'] & Hrun & Hret).
  inversion Hret. subst tree'.
  apply bind_Ok in Hrun. destruct Hrun as (p & _ & Hrun).
  exists p, p'. exact Hrun.
Qed.

Lemma parse_operators_known_aux (s : string) (tree : ASTNode) :
  parse_tree s = Ok tree -> operators_known tree = true.
Proof.
  intros Hparse.
  destruct (parse_tree_of_assignment s tree Hparse) as (p & p' & Hrun).
  apply (when_ok_elim _ _ _ (assignment_operators (parse_fuel p) p) Hrun).
Qed.

(** X6. In a tree the parser returns, the operator of every binary node is one
    of [+ - * / **] and that of every unary node is [+] or [-]: the
    interpreter never meets an operator it has no branch for. *)
Theorem parse_operators_known (s : string) (tree : ASTNode) :
  parse_tree s = Ok tree -> operators_known tree = true.
Proof.
  intros Hparse.
  destruct (parse_tree_of_assignment s tree Hparse) as (p & p' & Hrun).
  apply (when_ok_elim _ _ _ (assignment_operators (parse_fuel p) p) Hrun).
Qed.

(** X7. In a tree the parser returns, the Assignment nodes are at the top and
    nowhere else: the tree is a chain [x1 = (x2 = (... = e))] of assignments
    to variables, possibly empty, around a tree [e] without any Assignment
    node; no operand and no parenthesised expression holds an assignment. *)
Theorem parse_assignments_at_top (s : string) (tree : ASTNode) :
  parse_tree s = Ok tree ->
  exists names e,
    tree = assign_right names e /\ has_Assign e = false.
Proof.
  intros Hparse.
  destruct (parse_tree_of_assignment s tree Hparse) as (p & p' & Hrun).
  pose proof (when_ok_elim _ _ _ (assignment_builds_chain (parse_fuel p) p)
                Hrun) as Hchain.
  simpl in Hchain. clear Hrun Hparse.
  induction tree as [l IHl op r IHr|op e IHe|n|name|l IHl r IHr].
  - exists [], (BinaryOp l op r). split; [reflexivity|].
    simpl in Hchain. apply negb_true_iff in Hchain. exact Hchain.
  - exists [], (UnaryOp op e). split; [reflexivity|].
    simpl in Hchain. apply negb_true_iff in Hchain. exact Hchain.
  - exists [], (Num n). split; reflexivity.
  - exists [], (Var name). split; reflexivity.
  - destruct l as [| | |x|]; simpl in Hchain; try discriminate Hchain.
    destruct (IHr Hchain) as (names & e & -> & He).
    exists (x :: names), e. split; [reflexivity|exact He].
Qed.

(** ** Interpreter: variables, values and exceptions *)

(** X8. When a text is parsed and its interpretation raises, the dictionary of
    variables is left exactly as it was: in a parsed tree every assignment has
    the whole rest of the text as its value, so none is completed before an
    exception. *)
Theorem failed_run_keeps_variables
  (s : string) (vars vars' : env) (ex : exn) :
  run s vars = Some (Raises ex, vars') -> vars' = vars.
Proof.
  unfold run. intros Hrun.
  destruct (parse_tree s) as [tree| |] eqn:Hparse; try discriminate Hrun.
  inversion Hrun as [Hint].
  pose proof (parsed_failure_keeps_variables s tree vars ex Hparse) as H.
  rewrite Hint in H. simpl in H. apply H. reflexivity.
Qed.

(** X9. Interpreting a tree, any tree, changes the binding of no name other
    than the targets of its Assignment nodes, whether it returns or raises. *)
Theorem interpret_changes_only_assigned
  (tree : ASTNode) (vars : env) (name : string) :
  ~ In name (assigned_names tree) ->
  snd (interpret tree vars) !! name = vars !! name.
Proof.
  intros Hnot. unfold interpret. rewrite visit_writes.
  apply write_all_frame. intros v Hin. apply Hnot.
  apply (completed_are_assigned tree vars name v Hin).
Qed.

(** No variable is bound to [None]. *)
Definition numeric (vars : env) : Prop :=
  forall name, vars !! name <> Some PyNone.

(** An exception of the arithmetic of the host. *)
Definition host_raises (e : exn) : Prop :=
  exists op m n, host_arith op m n = Raises e.

(** What the interpreter raises on a parsed tree. *)
Definition interpreter_error (e : exn) : Prop :=
  (exists name, e = NameError name) \/ e = ZeroDivisionError \/ host_raises e.

Lemma lift_number_cases (op : TokenType) (m n : number) :
  match lift_number (host_arith op m n) with
  | Returns v => v <> PyNone
  | Raises e => interpreter_error e
  end.
Proof.
  destruct (host_arith op m n) as [k|e] eqn:E; simpl.
  - discriminate.
  - right. right. exists op, m, n. exact E.
Qed.

Lemma apply_op_cases (op : Token) (x y : value) :
  arithmetic op = true -> x <> PyNone -> y <> PyNone ->
  match apply_op op x y with
  | Returns v => v <> PyNone
  | Raises e => interpreter_error e
  end.
Proof.
  intros Hop Hx Hy.
  destruct x as [m|]; [|contradiction]. destruct y as [n|]; [|contradiction].
  unfold arithmetic, multiplicative, additive, is_power, type_in in Hop.
  unfold apply_op.
  destruct (type op); try discriminate Hop;
    unfold py_add, py_sub, py_mul, py_truediv, py_pow;
    destruct m as [a|a]; destruct n as [b|b];
    try apply lift_number_cases; try discriminate.
  - destruct (b =? 0)%Z; [right; left; reflexivity|apply lift_number_cases].
  - destruct (0 <=? b)%Z; [discriminate|].
    destruct (a =? 0)%Z; [right; left; reflexivity|apply lift_number_cases].
Qed.

Lemma visit_numeric (node : ASTNode) :
  forall vars,
    operators_known node = true -> targets_are_variables node = true ->
    numeric vars ->
    numeric (snd (visit node vars)) /\
    match fst (visit node vars) with
    | Returns v => v <> PyNone
    | Raises e => interpreter_error e
    end.
Proof.
  induction node as [l IHl op r IHr|op e IHe|n|name|l IHl r IHr];
    intros vars Hops Htargets Hnum; simpl in Hops, Htargets.
  - apply andb_true_iff in Hops. destruct Hops as [Hops Hr].
    apply andb_true_iff in Hops. destruct Hops as [Hop Hl].
    apply andb_true_iff in Htargets. destruct Htargets as [Htl Htr].
    rewrite (visit_BinaryOp_arith l r op Hop). unfold ebind, pure.
    destruct (IHl vars Hl Htl Hnum) as [Hnum1 Hres1].
    destruct (visit l vars) as [[x|ex] vars1]; simpl in *;
      [|split; assumption].
    destruct (IHr vars1 Hr Htr Hnum1) as [Hnum2 Hres2].
    destruct (visit r vars1) as [[y|ex] vars2]; simpl in *;
      [|split; assumption].
    split; [exact Hnum2|]. apply apply_op_cases; assumption.
  - apply andb_true_iff in Hops. destruct Hops as [Hop He].
    destruct (IHe vars He Htargets Hnum) as [Hnum1 Hres1].
    unfold additive, type_in in Hop. simpl. unfold visit_UnaryOp, ebind, pure.
    destruct (type op); try discriminate Hop;
      (destruct (visit e vars) as [[x|ex] vars1]; simpl in *;
       [|split; assumption];
       split; [exact Hnum1|];
       destruct x as [[a|a]|]; simpl; try discriminate; contradiction).
  - split; [exact Hnum|]. simpl. discriminate.
  - split; [simpl; unfold visit_Var; destruct (vars !! name); exact Hnum|].
    simpl. unfold visit_Var.
    destruct (vars !! name) as [v|] eqn:Hv; simpl.
    + intros ->. apply (Hnum name Hv).
    + left. exists name. reflexivity.
  - apply andb_true_iff in Hops. destruct Hops as [_ Hr].
    apply andb_true_iff in Htargets. destruct Htargets as [Htl Htr].
    apply andb_true_iff in Htl. destruct Htl as [Hvar _].
    destruct l as [| | |x|]; try discriminate Hvar.
    rewrite visit_Assign_Var.
    destruct (IHr vars Hr Htr Hnum) as [Hnum1 Hres1].
    destruct (visit r vars) as [[v|ex] vars1]; simpl in *;
      [|split; assumption].
    split; [|exact Hres1].
    intros name. destruct (decide (x = name)) as [->|Hne].
    + rewrite lookup_insert_eq. intros E. inversion E. contradiction.
    + rewrite lookup_insert_ne by exact Hne. apply Hnum1.
Qed.

(** X10. Interpreting a parsed text in a dictionary that binds no name to
    [None] never returns [None] and leaves such a dictionary: every value a
    session computes or stores is a number. *)
Theorem interpret_parsed_gives_numbers
  (s : string) (tree : ASTNode) (vars : env) :
  parse_tree s = Ok tree -> numeric vars ->
  numeric (snd (interpret tree vars)) /\
  forall v, fst (interpret tree vars) = Returns v -> exists n, v = Number n.
Proof.
  intros Hparse Hnum.
  assert (Htargets : targets_are_variables tree = true).
  { destruct (parse_tree_of_assignment s tree Hparse) as (p & p' & Hrun).
    apply chain_targets.
    apply (when_ok_elim _ _ _ (assignment_builds_chain (parse_fuel p) p) Hrun). }
  destruct (visit_numeric tree vars (parse_operators_known_aux s tree Hparse)
              Htargets Hnum) as [H1 H2].
  split; [exact H1|]. unfold interpret. intros v Hv. rewrite Hv in H2.
  destruct v as [n|]; [exists n; reflexivity|contradiction].
Qed.

(** X11. Interpreting a parsed text in such a dictionary raises only
    NameError, for a name that is not bound, ZeroDivisionError, or what the
    arithmetic of the host raises on two numbers: the interpreter itself never
    comes to an operation on [None] nor to a target without a name. *)
Theorem interpret_parsed_raises
  (s : string) (tree : ASTNode) (vars : env) (ex : exn) :
  parse_tree s = Ok tree -> numeric vars ->
  fst (interpret tree vars) = Raises ex ->
  (exists name, ex = NameError name) \/ ex = ZeroDivisionError \/
  (exists op m n, host_arith op m n = Raises ex).
Proof.
  intros Hparse Hnum Hraise.
  assert (Htargets : targets_are_variables tree = true).
  { destruct (parse_tree_of_assignment s tree Hparse) as (p & p' & Hrun).
    apply chain_targets.
    apply (when_ok_elim _ _ _ (assignment_builds_chain (parse_fuel p) p) Hrun). }
  destruct (visit_numeric tree vars (parse_operators_known_aux s tree Hparse)
              Htargets Hnum) as [_ H2].
  unfold interpret in Hraise. rewrite Hraise in H2. exact H2.
Qed.

(** The integer a tree denotes when it is built from integer literals with
    the signs, [+], [-], [*], and [**] with an exponent that is not
    negative; [None] for any other tree. *)
Fixpoint integer_value (node : ASTNode) : option Z :=
  match node with
  | Num (Int z) => Some z
  | UnaryOp op e =>
      match type op, integer_value e with
      | PLUS, Some x => Some x
      | MINUS, Some x => Some (- x)%Z
      | _, _ => None
      end
  | BinaryOp l op r =>
      match type op, integer_value l, integer_value r with
      | PLUS, Some x, Some y => Some (x + y)%Z
      | MINUS, Some x, Some y => Some (x - y)%Z
      | MULTIPLY, Some x, Some y => Some (x * y)%Z
      | POWER, Some x, Some y =>
          if (0 <=? y)%Z then Some (x ^ y)%Z else None
      | _, _, _ => None
      end
  | _ => None
  end.

Lemma visit_integer_value (tree : ASTNode) (z : Z) (vars : env) :
  integer_value tree = Some z ->
  visit tree vars = (Returns (Number (Int z)), vars).
Proof.
  revert z.
  induction tree as [l IHl op r IHr|op e IHe|n|name|l IHl r IHr];
    intros z Hval; simpl in Hval.
  - simpl. unfold visit_BinaryOp, ebind, pure.
    destruct (type op); try discriminate Hval;
      destruct (integer_value l) as [x|]; try discriminate Hval;
      destruct (integer_value r) as [y|]; try discriminate Hval;
      rewrite (IHl x eq_refl), (IHr y eq_refl); simpl;
      try (inversion Hval; reflexivity).
    destruct (0 <=? y)%Z; inversion Hval. reflexivity.
  - simpl. unfold visit_UnaryOp, ebind, pure.
    destruct (type op); try discriminate Hval;
      destruct (integer_value e) as [x|]; try discriminate Hval;
      rewrite (IHe x eq_refl); simpl; inversion Hval; reflexivity.
  - destruct n; inversion Hval. reflexivity.
  - discriminate Hval.
  - discriminate Hval.
Qed.

(** X12. Integer arithmetic is exact and cannot fail: a tree of integer
    literals under the signs, [+], [-], [*], and [**] with exponents that are
    not negative, evaluates to the integer it denotes, in every dictionary and
    on every host, and leaves the dictionary as it is. *)
Theorem integer_arithmetic_is_exact (tree : ASTNode) (z : Z) (vars : env) :
  integer_value tree = Some z ->
  interpret tree vars = (Returns (Number (Int z)), vars).
Proof. apply visit_integer_value. Qed.

(** The dictionary after the same value has been stored under each of the
    names, the last name first. *)
Definition store_all (names : list string) (v : value) (vars : env) : env :=
  fold_right (fun name m => <[name := v]> m) vars names.

Lemma visit_assign_right (names : list string) (e : ASTNode) (vars : env) :
  visit (assign_right names e) vars =
  match visit e vars with
  | (Returns v, vars') => (Returns v, store_all names v vars')
  | (Raises ex, vars') => (Raises ex, vars')
  end.
Proof.
  induction names as [|name names IH]; simpl assign_right.
  - destruct (visit e vars) as [[v|ex] vars']; reflexivity.
  - rewrite visit_Assign_Var, IH.
    destruct (visit e vars) as [[v|ex] vars']; reflexivity.
Qed.

Lemma store_all_lookup (names : list string) (v : value) (vars : env)
  (name : string) :
  store_all names v vars !! name =
  if bool_decide (name ∈ names) then Some v else vars !! name.
Proof.
  induction names as [|x names IH]; cbn [store_all fold_right].
  - destruct (bool_decide_reflect (name ∈ [])) as [H|_]; [|reflexivity].
    exfalso. apply (not_elem_of_nil name H).
  - fold (store_all names v vars).
    destruct (decide (x = name)) as [->|Hne].
    + rewrite lookup_insert_eq.
      destruct (bool_decide_reflect (name ∈ name :: names)) as [_|H];
        [reflexivity|].
      exfalso. apply H. apply elem_of_cons. left. reflexivity.
    + rewrite lookup_insert_ne by exact Hne. rewrite IH.
      destruct (bool_decide_reflect (name ∈ names)) as [H1|H1];
        destruct (bool_decide_reflect (name ∈ x :: names)) as [H2|H2];
        try reflexivity; exfalso.
      * apply H2. apply elem_of_cons. right. exact H1.
      * apply elem_of_cons in H2. destruct H2 as [H2|H2];
          [apply Hne; symmetry; exact H2|exact (H1 H2)].
Qed.

(** X13. A chain of assignments [x1 = x2 = ... = e] evaluates [e] once, first;
    when [e] returns a value, the chain returns it, every name of the chain is
    bound to it and every other name is bound as [e] left it; when [e] raises,
    the chain raises the same and no name is written. *)
Theorem assignment_chain_binds_all
  (names : list string) (e : ASTNode) (vars : env) :
  (forall v vars',
     interpret e vars = (Returns v, vars') ->
     fst (interpret (assign_right names e) vars) = Returns v /\
     forall name,
       snd (interpret (assign_right names e) vars) !! name =
       if bool_decide (name ∈ names) then Some v else vars' !! name) /\
  (forall ex vars',
     interpret e vars = (Raises ex, vars') ->
     interpret (assign_right names e) vars = (Raises ex, vars')).
Proof.
  unfold interpret. split.
  - intros v vars' He. rewrite visit_assign_right, He. simpl.
    split; [reflexivity|]. intros name. apply store_all_lookup.
  - intros ex vars' He. rewrite visit_assign_right, He. reflexivity.
Qed.

(** The names a tree mentions: its variables and the names its assignments
    write. *)
Fixpoint names_of (node : ASTNode) : list string :=
  match node with
  | BinaryOp l _ r => names_of l ++ names_of r
  | UnaryOp _ e => names_of e
  | Num _ => []
  | Var name => [name]
  | Assign l r => names_of l ++ names_of r
  end.

Lemma visit_agree (node : ASTNode) (keep : string -> Prop) :
  forall vars1 vars2,
    (forall name, In name (names_of node) -> keep name) ->
    (forall name, keep name -> vars1 !! name = vars2 !! name) ->
    fst (visit node vars1) = fst (visit node vars2) /\
    forall name, keep name ->
      snd (visit node vars1) !! name = snd (visit node vars2) !! name.
Proof.
  induction node as [l IHl op r IHr|op e IHe|n|x|l IHl r IHr];
    intros vars1 vars2 Hkeep Hagree; simpl in Hkeep.
  - assert (Hl : forall name, In name (names_of l) -> keep name)
      by (intros name H; apply Hkeep, in_or_app; left; exact H).
    assert (Hr : forall name, In name (names_of r) -> keep name)
      by (intros name H; apply Hkeep, in_or_app; right; exact H).
    simpl. unfold visit_BinaryOp, ebind, pure, ret.
    destruct (IHl vars1 vars2 Hl Hagree) as [Hf1 Hs1].
    destruct (type op); try (split; [reflexivity|exact Hagree]);
      (destruct (visit l vars1) as [[a|ex] v1];
       destruct (visit l vars2) as [[a'|ex'] v1']; simpl in Hf1, Hs1;
       try discriminate Hf1;
       [inversion Hf1; subst a'
       |split; [exact Hf1|exact Hs1]];
       destruct (IHr v1 v1' Hr Hs1) as [Hf2 Hs2];
       destruct (visit r v1) as [[b|ex] v2];
       destruct (visit r v1') as [[b'|ex'] v2']; simpl in Hf2, Hs2;
       try discriminate Hf2;
       [inversion Hf2; subst b'; split; [reflexivity|exact Hs2]
       |split; [exact Hf2|exact Hs2]]).
  - simpl. unfold visit_UnaryOp, ebind, pure, ret.
    destruct (IHe vars1 vars2 Hkeep Hagree) as [Hf1 Hs1].
    destruct (type op); try (split; [reflexivity|exact Hagree]);
      (destruct (visit e vars1) as [[a|ex] v1];
       destruct (visit e vars2) as [[a'|ex'] v1']; simpl in Hf1, Hs1;
       try discriminate Hf1;
       [inversion Hf1; subst a'; split; [reflexivity|exact Hs1]
       |split; [exact Hf1|exact Hs1]]).
  - split; [reflexivity|exact Hagree].
  - simpl. unfold visit_Var.
    rewrite (Hagree x (Hkeep x (or_introl eq_refl))).
    destruct (vars2 !! x); (split; [reflexivity|exact Hagree]).
  - assert (Hr : forall name, In name (names_of r) -> keep name)
      by (intros name H; apply Hkeep, in_or_app; right; exact H).
    destruct l as [l1 op l2|op l1|n|x|l1 l2];
      try (split; [reflexivity|exact Hagree]).
    + simpl. apply (IHr vars1 vars2 Hr Hagree).
    + rewrite !visit_Assign_Var.
      destruct (IHr vars1 vars2 Hr Hagree) as [Hf1 Hs1].
      destruct (visit r vars1) as [[a|ex] v1];
        destruct (visit r vars2) as [[a'|ex'] v1']; simpl in Hf1, Hs1;
        try discriminate Hf1.
      * inversion Hf1. subst a'. split; [reflexivity|].
        intros name Hname. simpl.
        destruct (decide (x = name)) as [->|Hne].
        -- rewrite !lookup_insert_eq. reflexivity.
        -- rewrite !lookup_insert_ne by exact Hne. apply Hs1. exact Hname.
      * split; [exact Hf1|exact Hs1].
Qed.

(** X14. What interpreting a tree answers depends only on the variables the
    tree mentions: in two dictionaries that agree on them it returns the same
    value or raises the same exception, and it leaves two dictionaries that
    agree on them again. *)
Theorem interpret_depends_on_mentioned_names
  (tree : ASTNode) (vars1 vars2 : env) :
  (forall name, In name (names_of tree) -> vars1 !! name = vars2 !! name) ->
  fst (interpret tree vars1) = fst (interpret tree vars2) /\
  forall name, In name (names_of tree) ->
    snd (interpret tree vars1) !! name = snd (interpret tree vars2) !! name.
Proof.
  intros Hagree. unfold interpret.
  apply (visit_agree tree (fun name => In name (names_of tree)));
    [intros name H; exact H|exact Hagree].
Qed.

(** ** Parser: precedence, signs and parentheses *)

(** [inner] binds tighter than [outer]: [* / **] than [+ -], and [**] than
    [* /]. *)
Definition tighter (inner outer : Token) : bool :=
  additive outer && (multiplicative inner || is_power inner)
  || multiplicative outer && is_power inner.

Lemma parse_an_expr_at_end (s : string) (a : operand) (stop : Token) :
  an_expr a -> lexes_to s (spelled a ++ [stop]) ->
  arithmetic stop = false -> type stop <> ASSIGN ->
  parse_tree s = Ok (built a).
Proof.
  intros Ha (p & Hinit & Hreads) Hstop Hne.
  assert (Hwf : wf_parser p).
  { pose proof (Parser_init_ok s) as H. rewrite Hinit in H. exact H. }
  destruct (assignment_chain_parse [] a p stop [] Ha Hstop Hne Hreads)
    as (fuel & p' & Hrun & _).
  unfold parse_tree, parse_text. rewrite Hinit. cbn [bind].
  rewrite (parse_of_assignment _ p _ Hwf Hrun). reflexivity.
Qed.

Definition binary (a : operand) (op : Token) (b : operand) : operand :=
  {| spelled := spelled a ++ op :: spelled b;
     built := BinaryOp (built a) op (built b) |}.

Lemma binary_power (a b : operand) (op : Token) :
  is_power op = true -> a_factor a -> a_factor b -> a_power (binary a op b).
Proof.
  intros Hop Ha Hb.
  assert (H : chain_of is_power a_factor a [(op, b)])
    by (split; [exact Ha|repeat constructor; assumption]).
  apply power_chain in H. unfold a_power in *. cbn [spelled built] in *.
  unfold chain_tokens, chain_rest in H. cbn [flat_map fst snd] in H.
  rewrite app_nil_r in H. exact H.
Qed.

Lemma binary_term (a b : operand) (op : Token) :
  multiplicative op = true -> a_power a -> a_power b ->
  a_term (binary a op b).
Proof.
  intros Hop Ha Hb.
  assert (H : chain_of multiplicative a_power a [(op, b)])
    by (split; [exact Ha|repeat constructor; assumption]).
  apply term_chain in H. unfold a_term in *. cbn [spelled built] in *.
  unfold chain_tokens, chain_rest in H. cbn [flat_map fst snd] in H.
  rewrite app_nil_r in H. exact H.
Qed.

Lemma binary_expr (a b : operand) (op : Token) :
  additive op = true -> a_term a -> a_term b -> an_expr (binary a op b).
Proof.
  intros Hop Ha Hb.
  assert (H : chain_of additive a_term a [(op, b)])
    by (split; [exact Ha|repeat constructor; assumption]).
  apply expr_chain in H. unfold an_expr in *. cbn [spelled built] in *.
  unfold chain_tokens, chain_rest in H. cbn [flat_map fst snd] in H.
  rewrite app_nil_r in H. exact H.
Qed.

(** X15. Precedence. Of two different operators between three one-token
    operands, the one that binds tighter groups its two operands first,
    whether it comes second, [a + b * c] giving [a + (b * c)], or first, [a *
    b + c] giving [(a * b) + c]. *)
Theorem tighter_operator_groups_first
  (s1 s2 : string) (a b c inner outer stop : Token) :
  is_operand a = true -> is_operand b = true -> is_operand c = true ->
  tighter inner outer = true ->
  arithmetic stop = false ->
  lexes_to s1 [a; outer; b; inner; c; stop] ->
  lexes_to s2 [a; inner; b; outer; c; stop] ->
  parse_tree s1 =
    Ok (BinaryOp (leaf a) outer (BinaryOp (leaf b) inner (leaf c))) /\
  parse_tree s2 =
    Ok (BinaryOp (BinaryOp (leaf a) inner (leaf b)) outer (leaf c)).
Proof.
  intros Ha Hb Hc Htight Hstop Hlex1 Hlex2.
  pose proof (atom_a_factor a Ha) as Fa.
  pose proof (atom_a_factor b Hb) as Fb.
  pose proof (atom_a_factor c Hc) as Fc.
  assert (Hgoal :
    an_expr (binary (atom a) outer (binary (atom b) inner (atom c))) /\
    an_expr (binary (binary (atom a) inner (atom b)) outer (atom c))).
  { unfold tighter in Htight. apply orb_true_iff in Htight.
    destruct Htight as [H|H]; apply andb_true_iff in H; destruct H as [Ho Hi].
    - apply orb_true_iff in Hi. destruct Hi as [Hi|Hi].
      + split; apply binary_expr; try exact Ho;
          repeat first
            [ apply binary_term; [exact Hi| |]
            | apply power_a_term | apply factor_a_power | assumption ].
      + split; apply binary_expr; try exact Ho;
          repeat first
            [ apply power_a_term, binary_power; [exact Hi| |]
            | apply power_a_term | apply factor_a_power | assumption ].
    - split; apply term_an_expr, binary_term; try exact Ho;
        repeat first
          [ apply binary_power; [exact Hi| |]
          | apply factor_a_power | assumption ]. }
  destruct Hgoal as [H1 H2]. split.
  - apply (parse_an_expr s1 _ stop H1); [reflexivity|exact Hlex1|exact Hstop].
  - apply (parse_an_expr s2 _ stop H2); [reflexivity|exact Hlex2|exact Hstop].
Qed.

Definition is_sign (tok : Token) : bool :=
  match tok with
  | TPlus | TMinus => true
  | _ => false
  end.

(** The unary operations of a run of signs, the first sign outermost. *)
Definition signed (signs : list Token) (node : ASTNode) : ASTNode :=
  fold_right UnaryOp node signs.

Lemma signs_a_factor (signs : list Token) (a : operand) :
  forallb is_sign signs = true -> a_factor a ->
  a_factor {| spelled := signs ++ spelled a;
              built := signed signs (built a) |}.
Proof.
  induction signs as [|sign signs IH]; intros Hall Ha.
  - destruct a. exact Ha.
  - simpl in Hall. apply andb_true_iff in Hall. destruct Hall as [Hs Hall].
    apply (sign_a_factor sign
             {| spelled := signs ++ spelled a;
                built := signed signs (built a) |}).
    + destruct sign; try discriminate Hs; [left|right]; reflexivity.
    + apply IH; assumption.
Qed.

Lemma signed_integer_value (signs : list Token) (e : ASTNode) (z : Z) :
  forallb is_sign signs = true -> integer_value e = Some z ->
  integer_value (signed signs e) =
  Some (if Nat.even (count_occ TokenType_eq_dec (map type signs) MINUS)
        then z else (- z)%Z).
Proof.
  intros Hall He. induction signs as [|sign signs IH]; [exact He|].
  simpl in Hall. apply andb_true_iff in Hall. destruct Hall as [Hs Hall].
  specialize (IH Hall). unfold signed in *.
  cbn [fold_right integer_value]. rewrite IH.
  destruct sign; try discriminate Hs; cbn [type map count_occ].
  - destruct (TokenType_eq_dec PLUS MINUS) as [E|_]; [discriminate E|].
    reflexivity.
  - destruct (TokenType_eq_dec MINUS MINUS) as [_|E]; [|contradiction].
    rewrite Nat.even_succ, <- Nat.negb_even.
    destruct (Nat.even _); simpl; f_equal; lia.
Qed.


(** X17. Parentheses. An expression between parentheses is parsed to the tree
    of the expression, with no node for the parentheses; so the rule
    [assignment], which tests only whether that tree is a variable, takes an
    identifier between parentheses for an assignment target. *)
Theorem parentheses_leave_no_trace
  (s1 s2 : string) (a value : operand) (name : string) (stop : Token) :
  an_expr a -> an_expr value ->
  arithmetic stop = false -> type stop <> ASSIGN ->
  lexes_to s1 ((TLParen :: spelled a ++ [TRParen]) ++ [stop]) ->
  lexes_to s2
    ([TLParen; TIdentifier name; TRParen; TAssign] ++ spelled value ++ [stop]) ->
  parse_tree s1 = Ok (built a) /\
  parse_tree s2 = Ok (Assign (Var name) (built value)).
Proof.
  intros Ha Hvalue Hstop Hne Hlex1 (p & Hinit & Hreads). split.
  - apply (parse_an_expr_at_end s1
             {| spelled := TLParen :: spelled a ++ [TRParen];
                built := built a |} stop); try assumption.
    apply term_an_expr, power_a_term, factor_a_power, parenthesised_a_factor.
    exact Ha.
  - assert (Hwf : wf_parser p).
    { pose proof (Parser_init_ok s2) as H. rewrite Hinit in H. exact H. }
    assert (Hx : an_expr {| spelled := [TLParen; TIdentifier name; TRParen];
                            built := Var name |}).
    { apply term_an_expr, power_a_term, factor_a_power.
      apply (parenthesised_a_factor (atom (TIdentifier name))).
      apply term_an_expr, atom_a_term. reflexivity. }
    destruct (Hx p TAssign (spelled value ++ [stop]) eq_refl Hreads)
      as (fuel0 & p1 & Hrun0 & Hreads1).
    apply reads_step in Hreads1; [|apply app_cons_not_nil].
    destruct Hreads1 as (Htok1 & p2 & Hnext1 & Hreads2).
    destruct (assignment_chain_parse [] value p2 stop [] Hvalue Hstop Hne
                Hreads2) as (fuel1 & p' & Hrun1 & _).
    assert (Hrun : assignment (S (Nat.max fuel0 fuel1)) p =
                   Ok (Assign (Var name) (built value), p')).
    { rewrite assignment_S.
      rewrite (expr_more _ (Nat.max fuel0 fuel1) _ _ Hrun0) by lia.
      cbn [bind built is_Var]. rewrite Htok1. cbn [type].
      rewrite bool_decide_eq_true_2 by reflexivity. cbn [andb].
      rewrite (eat_next p1 ASSIGN) by (rewrite Htok1; reflexivity).
      rewrite Hnext1. cbn [bind].
      rewrite (assignment_more _ (Nat.max fuel0 fuel1) _ _ Hrun1) by lia.
      reflexivity. }
    unfold parse_tree, parse_text. rewrite Hinit. cbn [bind].
    rewrite (parse_of_assignment _ p _ Hwf Hrun). reflexivity.
Qed.

(** ** Lexer: from spelling back to tokens *)

Lemma append_empty_r (s : string) : s +:+ EmptyString = s.
Proof.
  induction s as [|c s IH]; [reflexivity|exact (f_equal (String c) IH)].
Qed.

Lemma append_assoc (a b c : string) : (a +:+ b) +:+ c = a +:+ (b +:+ c).
Proof.
  induction a as [|x a IH]; [reflexivity|exact (f_equal (String x) IH)].
Qed.

Lemma length_append (a b : string) :
  String.length (a +:+ b) = String.length a + String.length b.
Proof.
  induction a as [|x a IH]; [reflexivity|exact (f_equal S IH)].
Qed.

Lemma get_append (a b : string) (i : nat) :
  String.get (String.length a + i) (a +:+ b) = String.get i b.
Proof. induction a as [|x a IH]; simpl; [reflexivity|exact IH]. Qed.

(** The lexer has passed some of its text and what is left is [rest]. *)
Definition scans (lx : Lexer) (rest : string) : Prop :=
  wf_lexer lx /\
  exists passed, text lx = passed +:+ rest /\ pos lx = String.length passed.

Lemma Lexer_init_scans (s : string) : scans (Lexer_init s) s.
Proof.
  split; [apply Lexer_init_wf|]. exists EmptyString. split; reflexivity.
Qed.

Lemma scans_current (lx : Lexer) (rest : string) :
  scans lx rest -> current_char lx = String.get 0 rest.
Proof.
  intros (Hwf & passed & Htext & Hpos). rewrite Hwf, Htext, Hpos.
  rewrite <- (Nat.add_0_r (String.length passed)). apply get_append.
Qed.

Lemma scans_remaining (lx : Lexer) (rest : string) :
  scans lx rest -> remaining lx = String.length rest.
Proof.
  intros (_ & passed & Htext & Hpos). unfold remaining.
  rewrite Htext, Hpos, length_append. lia.
Qed.

Lemma scans_advance (lx : Lexer) (c : ascii) (rest : string) :
  scans lx (String c rest) -> scans (advance lx) rest.
Proof.
  intros (Hwf & passed & Htext & Hpos). split; [apply advance_wf|].
  exists (passed +:+ String c EmptyString).
  rewrite advance_text, advance_pos, Htext, Hpos, append_assoc, length_append.
  split; reflexivity.
Qed.

(** Every character of the text satisfies [f]; and the text does not go on
    with a character that satisfies [f]. *)
Fixpoint all_chars (f : ascii -> bool) (s : string) : bool :=
  match s with
  | EmptyString => true
  | String c s' => f c && all_chars f s'
  end.

Definition stops (f : ascii -> bool) (rest : string) : bool :=
  match rest with
  | EmptyString => true
  | String c _ => negb (f c)
  end.

Definition number_char (c : ascii) : bool := isdigit c || Ascii.eqb c ".".

Definition identifier_char (c : ascii) : bool := isalnum c || Ascii.eqb c "_".

Lemma number_loop_collects (s : string) :
  forall (acc rest : string) (lx : Lexer) (fuel : nat),
    all_chars number_char s = true -> stops number_char rest = true ->
    scans lx (s +:+ rest) -> String.length s <= fuel ->
    exists lx', number_loop fuel acc lx = Ok (acc +:+ s, lx') /\
                scans lx' rest.
Proof.
  induction s as [|c s IH]; intros acc rest lx fuel Hall Hstop Hscan Hfuel.
  - exists lx. split; [|exact Hscan]. rewrite append_empty_r.
    pose proof (scans_current lx _ Hscan) as Hc. simpl in Hc.
    destruct rest as [|c rest]; simpl in Hc, Hstop;
      destruct fuel; simpl; rewrite Hc; try reflexivity;
      unfold number_char in Hstop; apply negb_true_iff in Hstop;
      rewrite Hstop; reflexivity.
  - simpl in Hall. apply andb_true_iff in Hall. destruct Hall as [Hc Hall].
    destruct fuel as [|fuel]; [simpl in Hfuel; lia|].
    pose proof (scans_current lx _ Hscan) as Hcur. simpl in Hcur.
    destruct (IH (snoc acc c) rest (advance lx) fuel Hall Hstop
                (scans_advance lx c _ Hscan)) as (lx' & Hrun & Hscan');
      [simpl in Hfuel; lia|].
    exists lx'. split; [|exact Hscan'].
    simpl. rewrite Hcur. unfold number_char in Hc. rewrite Hc, Hrun.
    unfold snoc. rewrite append_assoc. reflexivity.
Qed.

Lemma identifier_loop_collects (s : string) :
  forall (acc rest : string) (lx : Lexer) (fuel : nat),
    all_chars identifier_char s = true -> stops identifier_char rest = true ->
    scans lx (s +:+ rest) -> String.length s <= fuel ->
    exists lx', identifier_loop fuel acc lx = Ok (acc +:+ s, lx') /\
                scans lx' rest.
Proof.
  induction s as [|c s IH]; intros acc rest lx fuel Hall Hstop Hscan Hfuel.
  - exists lx. split; [|exact Hscan]. rewrite append_empty_r.
    pose proof (scans_current lx _ Hscan) as Hc. simpl in Hc.
    destruct rest as [|c rest]; simpl in Hc, Hstop;
      destruct fuel; simpl; rewrite Hc; try reflexivity;
      unfold identifier_char in Hstop; apply negb_true_iff in Hstop;
      rewrite Hstop; reflexivity.
  - simpl in Hall. apply andb_true_iff in Hall. destruct Hall as [Hc Hall].
    destruct fuel as [|fuel]; [simpl in Hfuel; lia|].
    pose proof (scans_current lx _ Hscan) as Hcur. simpl in Hcur.
    destruct (IH (snoc acc c) rest (advance lx) fuel Hall Hstop
                (scans_advance lx c _ Hscan)) as (lx' & Hrun & Hscan');
      [simpl in Hfuel; lia|].
    exists lx'. split; [|exact Hscan'].
    simpl. rewrite Hcur. unfold identifier_char in Hc. rewrite Hc, Hrun.
    unfold snoc. rewrite append_assoc. reflexivity.
Qed.

Lemma skip_whitespace_loop_collects (ws : string) :
  forall (rest : string) (lx : Lexer) (fuel : nat),
    all_space ws = true -> stops isspace rest = true ->
    scans lx (ws +:+ rest) -> String.length ws <= fuel ->
    exists lx', skip_whitespace_loop fuel lx = Ok lx' /\ scans lx' rest.
Proof.
  induction ws as [|c ws IH]; intros rest lx fuel Hall Hstop Hscan Hfuel.
  - exists lx. split; [|exact Hscan].
    pose proof (scans_current lx _ Hscan) as Hc. simpl in Hc.
    destruct rest as [|c rest]; simpl in Hc, Hstop;
      destruct fuel; simpl; rewrite Hc; try reflexivity;
      apply negb_true_iff in Hstop; rewrite Hstop; reflexivity.
  - simpl in Hall. apply andb_true_iff in Hall. destruct Hall as [Hc Hall].
    destruct fuel as [|fuel]; [simpl in Hfuel; lia|].
    pose proof (scans_current lx _ Hscan) as Hcur. simpl in Hcur.
    destruct (IH rest (advance lx) fuel Hall Hstop
                (scans_advance lx c _ Hscan)) as (lx' & Hrun & Hscan');
      [simpl in Hfuel; lia|].
    exists lx'. split; [|exact Hscan'].
    simpl. rewrite Hcur, Hc, Hrun. reflexivity.
Qed.

(** [str(n)] of Python for an integer that is not negative: its decimal
    digits, the most significant first, no sign and no leading zero. *)
Definition digit_char (d : N) : ascii := ascii_of_N (48 + d).

Fixpoint decimal_loop (fuel : nat) (n : N) (acc : string) : string :=
  match fuel with
  | O => acc
  | S fuel' =>
      let acc' := String (digit_char (n mod 10)) acc in
      if (n / 10 =? 0)%N then acc' else decimal_loop fuel' (n / 10) acc'
  end.

Definition decimal (n : N) : string :=
  decimal_loop (S (N.to_nat (N.log2 n))) n EmptyString.

(** [str(z)] of Python for any integer. *)
Definition str_of_int (z : Z) : string :=
  if (z <? 0)%Z then String "-" (decimal (Z.to_N (- z)))
  else decimal (Z.to_N z).

Lemma digit_char_decimal (d : N) :
  (d < 10)%N ->
  is_decimal (digit_char d) = true /\ digit_value (digit_char d) = Z.of_N d.
Proof.
  intros Hd.
  assert (H : (d = 0 \/ d = 1 \/ d = 2 \/ d = 3 \/ d = 4 \/ d = 5 \/ d = 6
               \/ d = 7 \/ d = 8 \/ d = 9)%N) by lia.
  repeat (destruct H as [->|H]; [split; reflexivity|]).
  subst d. split; reflexivity.
Qed.

Lemma decimal_loop_digits (fuel : nat) :
  forall n acc,
    all_chars is_decimal acc = true ->
    all_chars is_decimal (decimal_loop fuel n acc) = true.
Proof.
  induction fuel as [|fuel IH]; intros n acc Hacc; [exact Hacc|].
  assert (Hacc' : all_chars is_decimal (String (digit_char (n mod 10)) acc)
                  = true).
  { simpl. rewrite Hacc.
    destruct (digit_char_decimal (n mod 10)) as [-> _]; [|reflexivity].
    apply N.mod_lt. discriminate. }
  simpl. destruct (n / 10 =? 0)%N; [exact Hacc'|apply IH; exact Hacc'].
Qed.

Lemma decimal_loop_nonempty (fuel : nat) :
  forall n acc, acc <> EmptyString -> decimal_loop fuel n acc <> EmptyString.
Proof.
  induction fuel as [|fuel IH]; intros n acc Hacc; [exact Hacc|].
  simpl. destruct (n / 10 =? 0)%N; [discriminate|apply IH; discriminate].
Qed.

Lemma decimal_nonempty (n : N) : decimal n <> EmptyString.
Proof.
  unfold decimal. simpl.
  destruct (n / 10 =? 0)%N; [discriminate|].
  apply decimal_loop_nonempty. discriminate.
Qed.

Lemma decimal_loop_value (fuel : nat) :
  forall n acc,
    (n < 2 ^ N.of_nat fuel)%N ->
    exists k : Z, (0 <= k)%Z /\
      forall a, int_of_digits a (decimal_loop fuel n acc) =
                int_of_digits (a * 10 ^ k + Z.of_N n) acc.
Proof.
  induction fuel as [|fuel IH]; intros n acc Hn.
  - exists 0%Z. split; [lia|]. intros a. simpl in *.
    assert (n = 0)%N by lia. subst n. f_equal. lia.
  - destruct (digit_char_decimal (n mod 10)) as [Hdec Hval];
      [apply N.mod_lt; discriminate|].
    pose proof (N.div_mod n 10 ltac:(discriminate)) as Hdm.
    simpl decimal_loop. destruct (n / 10 =? 0)%N eqn:Hq.
    + apply N.eqb_eq in Hq. exists 1%Z. split; [lia|]. intros a.
      simpl. rewrite Hdec, Hval. f_equal. lia.
    + apply N.eqb_neq in Hq.
      destruct (IH (n / 10)%N (String (digit_char (n mod 10)) acc))
        as (k & Hk & Heq).
      { rewrite Nat2N.inj_succ, N.pow_succ_r' in Hn.
        apply N.Div0.div_lt_upper_bound. lia. }
      exists (k + 1)%Z. split; [lia|]. intros a.
      rewrite Heq. simpl. rewrite Hdec, Hval. f_equal.
      rewrite Z.pow_add_r by lia.
      assert (Hz : Z.of_N n = (10 * Z.of_N (n / 10) + Z.of_N (n mod 10))%Z)
        by lia.
      rewrite Hz. change (10 ^ 1)%Z with 10%Z. lia.
Qed.

(** [int(str(n))] is [n]. *)
Lemma int_of_text_decimal (n : N) : int_of_text (decimal n) = Some (Z.of_N n).
Proof.
  unfold int_of_text.
  pose proof (decimal_nonempty n) as Hne.
  destruct (decimal n) as [|c s] eqn:E; [contradiction|]. rewrite <- E.
  unfold decimal.
  destruct (decimal_loop_value (S (N.to_nat (N.log2 n))) n EmptyString)
    as (k & _ & Heq).
  { rewrite Nat2N.inj_succ, N2Nat.id.
    destruct n as [|p]; [reflexivity|].
    destruct (N.log2_spec (N.pos p)) as [_ H]; [reflexivity|exact H]. }
  rewrite Heq. reflexivity.
Qed.

Lemma decimal_char_classes (c : ascii) :
  is_decimal c = true ->
  isdigit c = true /\ isspace c = false /\ Ascii.eqb c "." = false.
Proof.
  destruct c as [[] [] [] [] [] [] [] []]; vm_compute; intros H;
    first [discriminate H|repeat split].
Qed.

Lemma identifier_start_classes (c : ascii) :
  isalpha c || Ascii.eqb c "_" = true ->
  isspace c = false /\ isdigit c = false /\ identifier_char c = true.
Proof.
  destruct c as [[] [] [] [] [] [] [] []]; vm_compute; intros H;
    first [discriminate H|repeat split].
Qed.

(** A text the lexer reads as one identifier: a letter or an underscore,
    then letters, digits and underscores. *)
Definition is_identifier (s : string) : bool :=
  match s with
  | EmptyString => false
  | String c s' =>
      (isalpha c || Ascii.eqb c "_") && all_chars identifier_char s'
  end.

(** The spelling of a token: the operators as [get_next_token] matches
    them, an identifier as it is, an integer in decimal. *)
Definition spell (tok : Token) : string :=
  match tok with
  | TNumber (Int z) => decimal (Z.to_N z)
  | TNumber (Inexact _) => EmptyString
  | TIdentifier name => name
  | TPlus => "+"
  | TMinus => "-"
  | TMultiply => "*"
  | TDivide => "/"
  | TPower => "**"
  | TAssign => "="
  | TLParen => "("
  | TRParen => ")"
  | TEOF => EmptyString
  end.

(** The number of digits that [int] converts without a change of the
    host's settings. *)
Definition int_max_str_digits : nat := 4300.

(** The tokens that have a spelling: every token but EOF, a number that is
    not an integer, a negative integer, an integer of more digits than the
    host converts, and an identifier that is not one. *)
Definition spellable (tok : Token) : bool :=
  match tok with
  | TNumber (Int z) =>
      (0 <=? z)%Z
      && (String.length (decimal (Z.to_N z)) <=? int_max_str_digits)
  | TNumber (Inexact _) => false
  | TIdentifier name => is_identifier name
  | TEOF => false
  | _ => true
  end.

(** What comes next in the text does not prolong the token. *)
Definition follows_ok (tok : Token) (rest : string) : bool :=
  match tok with
  | TNumber _ => stops number_char rest
  | TIdentifier _ => stops identifier_char rest
  | TMultiply => stops (fun c => Ascii.eqb c "*") rest
  | _ => true
  end.

Lemma get_next_token_loop_at (fuel : nat) (lx : Lexer) (c : ascii) :
  current_char lx = Some c -> isspace c = false ->
  get_next_token_loop fuel lx =
  if isdigit c then
    let* (n, lx') := Lexer_number lx in Ok (TNumber n, lx')
  else if isalpha c || Ascii.eqb c "_" then
    let* (s, lx') := identifier lx in Ok (TIdentifier s, lx')
  else if Ascii.eqb c "+" then Ok (TPlus, advance lx)
  else if Ascii.eqb c "-" then Ok (TMinus, advance lx)
  else if Ascii.eqb c "*" then
    let lx1 := advance lx in
    if char_is (current_char lx1) "*"
    then Ok (TPower, advance lx1)
    else Ok (TMultiply, lx1)
  else if Ascii.eqb c "/" then Ok (TDivide, advance lx)
  else if Ascii.eqb c "=" then Ok (TAssign, advance lx)
  else if Ascii.eqb c "(" then Ok (TLParen, advance lx)
  else if Ascii.eqb c ")" then Ok (TRParen, advance lx)
  else Lexer_error lx.
Proof.
  intros Hc Hsp. destruct fuel; simpl; rewrite Hc, Hsp; reflexivity.
Qed.

Lemma all_decimal_number_chars (s : string) :
  all_chars is_decimal s = true ->
  all_chars number_char s = true /\ has_dot s = false.
Proof.
  induction s as [|c s IH]; intros H; [split; reflexivity|].
  simpl in H. apply andb_true_iff in H. destruct H as [Hc Hs].
  destruct (decimal_char_classes c Hc) as (Hd & _ & Hdot).
  destruct (IH Hs) as [H1 H2].
  simpl. unfold number_char at 1. rewrite Hd, H1, Hdot, H2.
  split; reflexivity.
Qed.

(** A lexer that has the spelling of a token before it, and after it
    nothing that prolongs the token, returns the token and stops after the
    spelling. *)
Lemma get_next_token_loop_spelled
  (fuel : nat) (tok : Token) (rest : string) (lx : Lexer) :
  spellable tok = true -> follows_ok tok rest = true ->
  scans lx (spell tok +:+ rest) ->
  exists lx', get_next_token_loop fuel lx = Ok (tok, lx') /\ scans lx' rest.
Proof.
  intros Hsp Hfol Hscan.
  pose proof (scans_current lx _ Hscan) as Hcur.
  destruct tok as [[z|x]|name| | | | | | | | |];
    cbn [spellable] in Hsp; try discriminate Hsp;
    try (simpl in Hscan, Hcur;
         rewrite (get_next_token_loop_at fuel lx _ Hcur eq_refl);
         simpl; eexists; split; [reflexivity|];
         repeat (eapply scans_advance); exact Hscan).
  - (* an integer *)
    apply andb_true_iff in Hsp. destruct Hsp as [Hsp _].
    cbn [spell] in Hscan, Hcur.
    pose proof (decimal_loop_digits (S (N.to_nat (N.log2 (Z.to_N z))))
                  (Z.to_N z) EmptyString eq_refl) as Hdigits.
    fold (decimal (Z.to_N z)) in Hdigits.
    pose proof (int_of_text_decimal (Z.to_N z)) as Hint.
    pose proof (decimal_nonempty (Z.to_N z)) as Hne.
    destruct (all_decimal_number_chars _ Hdigits) as [Hnum Hdot].
    destruct (decimal (Z.to_N z)) as [|c s] eqn:E; [contradiction|].
    simpl in Hcur.
    assert (Hc : is_decimal c = true)
      by (simpl in Hdigits; apply andb_true_iff in Hdigits; apply Hdigits).
    destruct (decimal_char_classes c Hc) as (Hd & Hspace & _).
    rewrite (get_next_token_loop_at fuel lx c Hcur Hspace), Hd.
    unfold Lexer_number.
    destruct (number_loop_collects (String c s) EmptyString rest lx
                (remaining lx) Hnum Hfol Hscan) as (lx' & Hrun & Hscan').
    { rewrite (scans_remaining lx _ Hscan), length_append. lia. }
    change (EmptyString +:+ String c s) with (String c s) in Hrun.
    rewrite Hrun. cbn [bind].
    unfold number_of_text. rewrite Hdot, Hint. cbn [bind].
    exists lx'. split; [|exact Hscan'].
    rewrite Z2N.id by (apply Z.leb_le; exact Hsp). reflexivity.
  - (* an identifier *)
    cbn [spell] in Hscan, Hcur.
    destruct name as [|c s]; [discriminate Hsp|].
    cbn [is_identifier] in Hsp. apply andb_true_iff in Hsp.
    destruct Hsp as [Hstart Hrest].
    destruct (identifier_start_classes c Hstart) as (Hspace & Hd & Hic).
    simpl in Hcur.
    rewrite (get_next_token_loop_at fuel lx c Hcur Hspace), Hd, Hstart.
    unfold identifier.
    destruct (identifier_loop_collects (String c s) EmptyString rest lx
                (remaining lx)) as (lx' & Hrun & Hscan');
      [simpl; rewrite Hic, Hrest; reflexivity|exact Hfol|exact Hscan| |].
    { rewrite (scans_remaining lx _ Hscan), length_append. lia. }
    change (EmptyString +:+ String c s) with (String c s) in Hrun.
    rewrite Hrun. cbn [bind].
    exists lx'. split; [reflexivity|exact Hscan'].
  - (* [*], not followed by another *)
    simpl in Hscan, Hcur.
    rewrite (get_next_token_loop_at fuel lx _ Hcur eq_refl). simpl.
    pose proof (scans_advance lx _ _ Hscan) as Hscan1.
    rewrite (scans_current _ _ Hscan1).
    exists (advance lx). split; [|exact Hscan1].
    destruct rest as [|c rest]; [reflexivity|].
    simpl in Hfol |- *. apply negb_true_iff in Hfol. rewrite Hfol.
    reflexivity.
  - (* [**] *)
    simpl in Hscan, Hcur.
    rewrite (get_next_token_loop_at fuel lx _ Hcur eq_refl). simpl.
    pose proof (scans_advance lx _ _ Hscan) as Hscan1.
    rewrite (scans_current _ _ Hscan1). simpl.
    exists (advance (advance lx)). split; [reflexivity|].
    apply (scans_advance _ _ _ Hscan1).
Qed.

Lemma spelled_starts (tok : Token) (rest : string) :
  spellable tok = true -> stops isspace (spell tok +:+ rest) = true.
Proof.
  intros Hsp.
  destruct tok as [[z|x]|name| | | | | | | | |];
    cbn [spellable] in Hsp; try discriminate Hsp; try reflexivity.
  - cbn [spell].
    pose proof (decimal_loop_digits (S (N.to_nat (N.log2 (Z.to_N z))))
                  (Z.to_N z) EmptyString eq_refl) as Hdigits.
    fold (decimal (Z.to_N z)) in Hdigits.
    pose proof (decimal_nonempty (Z.to_N z)) as Hne.
    destruct (decimal (Z.to_N z)) as [|c s]; [contradiction|].
    simpl in Hdigits |- *. apply andb_true_iff in Hdigits.
    destruct (decimal_char_classes c (proj1 Hdigits)) as (_ & Hspace & _).
    rewrite Hspace. reflexivity.
  - cbn [spell]. destruct name as [|c s]; [discriminate Hsp|].
    cbn [is_identifier] in Hsp. apply andb_true_iff in Hsp.
    destruct (identifier_start_classes c (proj1 Hsp)) as (Hspace & _).
    simpl. rewrite Hspace. reflexivity.
Qed.

(** [get_next_token] passes the white space before it and goes on with the
    character after it. *)
Lemma get_next_token_skips (ws rest : string) (lx : Lexer) :
  all_space ws = true -> stops isspace rest = true ->
  scans lx (ws +:+ rest) ->
  exists fuel lx',
    get_next_token lx = get_next_token_loop fuel lx' /\ scans lx' rest.
Proof.
  intros Hall Hstop Hscan. unfold get_next_token.
  destruct ws as [|c ws]; [exists (remaining lx), lx; split; auto|].
  pose proof (scans_remaining lx _ Hscan) as Hrem.
  pose proof (scans_current lx _ Hscan) as Hcur.
  simpl in Hrem, Hcur.
  pose proof Hall as Hc. simpl in Hc. apply andb_true_iff in Hc.
  destruct (skip_whitespace_loop_collects (String c ws) rest lx
              (remaining lx) Hall Hstop Hscan) as (lx' & Hrun & Hscan').
  { rewrite Hrem, length_append. simpl. lia. }
  exists (String.length (ws +:+ rest)), lx'. split; [|exact Hscan'].
  rewrite Hrem at 1. simpl. rewrite Hcur, (proj1 Hc).
  unfold skip_whitespace. rewrite Hrun. reflexivity.
Qed.

(** A text laid out from tokens: before each token some white space,
    possibly none, and white space at the end. *)
Fixpoint layout_text (items : list (string * Token)) (tail : string)
  : string :=
  match items with
  | [] => tail
  | (ws, tok) :: items' => ws +:+ spell tok +:+ layout_text items' tail
  end.

(** The layout can be read back: the white space is white space, every
    token has a spelling, and no token is prolonged by what follows it. *)
Fixpoint layout_ok (items : list (string * Token)) (tail : string) : bool :=
  match items with
  | [] => all_space tail
  | (ws, tok) :: items' =>
      all_space ws && spellable tok
      && follows_ok tok (layout_text items' tail)
      && layout_ok items' tail
  end.

Lemma get_next_token_end (tail : string) (lx : Lexer) :
  all_space tail = true -> scans lx tail ->
  exists lx', get_next_token lx = Ok (TEOF, lx').
Proof.
  intros Hall Hscan.
  destruct (get_next_token_skips tail EmptyString lx Hall eq_refl)
    as (fuel & lx' & Hrun & Hscan').
  { rewrite append_empty_r. exact Hscan. }
  exists lx'. rewrite Hrun.
  pose proof (scans_current lx' _ Hscan') as Hcur. simpl in Hcur.
  destruct fuel; simpl; rewrite Hcur; reflexivity.
Qed.

Lemma get_next_token_layout
  (ws : string) (tok : Token) (rest : string) (lx : Lexer) :
  all_space ws = true -> spellable tok = true -> follows_ok tok rest = true ->
  scans lx (ws +:+ spell tok +:+ rest) ->
  exists lx', get_next_token lx = Ok (tok, lx') /\ scans lx' rest.
Proof.
  intros Hall Hsp Hfol Hscan.
  destruct (get_next_token_skips ws (spell tok +:+ rest) lx Hall
              (spelled_starts tok rest Hsp) Hscan)
    as (fuel & lx1 & Hrun & Hscan1).
  rewrite Hrun. apply get_next_token_loop_spelled; assumption.
Qed.

Lemma hands_out_EOF (n : nat) (p : Parser) :
  current_char (lexer p) = None -> ahead (repeat TEOF n) p.
Proof.
  revert p. induction n as [|n IH]; intros p Hcur; [exact I|].
  simpl. eexists. split; [|split; [|apply IH]].
  - unfold next, get_next_token.
    destruct (remaining (lexer p)); simpl; rewrite Hcur; reflexivity.
  - reflexivity.
  - exact Hcur.
Qed.

Lemma ahead_layout (items : list (string * Token)) (tail : string) (n : nat) :
  forall p,
    layout_ok items tail = true -> scans (lexer p) (layout_text items tail) ->
    ahead (map snd items ++ repeat TEOF (S n)) p.
Proof.
  induction items as [|[ws tok] items IH]; intros p Hok Hscan.
  - simpl in Hok, Hscan.
    destruct (get_next_token_skips tail EmptyString (lexer p) Hok eq_refl)
      as (fuel & lx' & Hrun & Hscan').
    { rewrite append_empty_r. exact Hscan. }
    pose proof (scans_current lx' _ Hscan') as Hcur. simpl in Hcur.
    cbn [map app repeat ahead].
    exists {| lexer := lx'; current_token := TEOF |}.
    split; [|split; [reflexivity|apply hands_out_EOF; exact Hcur]].
    unfold next. rewrite Hrun.
    destruct fuel; simpl; rewrite Hcur; reflexivity.
  - cbn [layout_ok] in Hok. cbn [layout_text] in Hscan.
    repeat (apply andb_true_iff in Hok; destruct Hok as [Hok ?]).
    destruct (get_next_token_layout ws tok _ (lexer p) Hok H1 H0 Hscan)
      as (lx' & Hrun & Hscan').
    cbn [map app snd ahead].
    exists {| lexer := lx'; current_token := tok |}.
    split; [unfold next; rewrite Hrun; reflexivity|].
    split; [reflexivity|]. apply IH; assumption.
Qed.

Lemma lexes_layout
  (items : list (string * Token)) (tail : string) (n : nat) :
  layout_ok items tail = true ->
  lexes_to (layout_text items tail) (map snd items ++ repeat TEOF (S n)).
Proof.
  intros Hok. unfold lexes_to, Parser_init.
  pose proof (Lexer_init_scans (layout_text items tail)) as Hscan.
  destruct items as [|[ws tok] items].
  - simpl in Hok, Hscan.
    destruct (get_next_token_skips tail EmptyString
                (Lexer_init tail) Hok eq_refl)
      as (fuel & lx' & Hrun & Hscan').
    { rewrite append_empty_r. exact Hscan. }
    pose proof (scans_current lx' _ Hscan') as Hcur. simpl in Hcur.
    exists {| lexer := lx'; current_token := TEOF |}.
    split; [|split; [reflexivity|apply hands_out_EOF; exact Hcur]].
    cbn [layout_text]. rewrite Hrun.
    destruct fuel; simpl; rewrite Hcur; reflexivity.
  - pose proof Hok as Hok'. cbn [layout_ok] in Hok'.
    cbn [layout_text] in Hscan.
    repeat (apply andb_true_iff in Hok'; destruct Hok' as [Hok' ?]).
    destruct (get_next_token_layout ws tok _ _ Hok' H1 H0 Hscan)
      as (lx' & Hrun & Hscan').
    exists {| lexer := lx'; current_token := tok |}.
    split; [cbn [layout_text]; rewrite Hrun; reflexivity|].
    split; [reflexivity|]. apply (ahead_layout items tail); assumption.
Qed.

(** X18. The lexer reads a laid-out text back to its tokens, whatever the
    white space between them, and then hands out EOF as often as it is asked.
    *)
Theorem lexer_round_trip
  (items : list (string * Token)) (tail : string) (n : nat) :
  layout_ok items tail = true ->
  lexes_to (layout_text items tail) (map snd items ++ repeat TEOF (S n)).
Proof. apply lexes_layout. Qed.

Lemma space_is_no_identifier_char (c : ascii) :
  isspace c = true -> identifier_char c = false.
Proof.
  destruct c as [[] [] [] [] [] [] [] []]; vm_compute; intros H;
    first [discriminate H|reflexivity].
Qed.

Lemma all_space_stops_identifier (tail : string) :
  all_space tail = true -> stops identifier_char tail = true.
Proof.
  destruct tail as [|c tail]; [reflexivity|]. simpl. intros H.
  apply andb_true_iff in H.
  rewrite (space_is_no_identifier_char c (proj1 H)). reflexivity.
Qed.

(** X19. A text that is one identifier, with white space around it or not, is
    the variable of that name: its value is what the dictionary holds under
    the name, and NameError when it holds nothing. *)
Theorem identifier_text_is_lookup (ws name tail : string) (vars : env) :
  all_space ws = true -> is_identifier name = true ->
  all_space tail = true ->
  parse_tree (ws +:+ name +:+ tail) = Ok (Var name) /\
  run (ws +:+ name +:+ tail) vars =
  Some (match vars !! name with
        | Some v => Returns v
        | None => Raises (NameError name)
        end, vars).
Proof.
  intros Hws Hname Htail.
  assert (Hparse : parse_tree (ws +:+ name +:+ tail) = Ok (Var name)).
  { apply (parse_an_expr_at_end _ (atom (TIdentifier name)) TEOF).
    - apply term_an_expr, atom_a_term. reflexivity.
    - apply (lexes_layout [(ws, TIdentifier name)] tail 0).
      cbn [layout_ok layout_text spellable follows_ok].
      rewrite Hws, Hname, Htail, (all_space_stops_identifier tail Htail).
      reflexivity.
    - reflexivity.
    - discriminate. }
  split; [exact Hparse|].
  unfold run. rewrite Hparse. unfold interpret. cbn [visit].
  unfold visit_Var. destruct (vars !! name); reflexivity.
Qed.

(** X20. A numeral is evaluated to its number: what [str] gives for an
    integer, its decimal digits with a minus sign before them when it is
    negative, is lexed, parsed and interpreted to that integer, and no
    variable is touched. *)
Theorem numeral_evaluates_to_its_number (z : Z) (vars : env) :
  String.length (decimal (Z.to_N (Z.abs z))) <= int_max_str_digits ->
  run (str_of_int z) vars = Some (Returns (Number (Int z)), vars).
Proof.
  intros Hlen. unfold str_of_int.
  destruct (Z.ltb_spec z 0) as [Hneg|Hpos].
  - assert (Hparse :
      parse_tree (String "-" (decimal (Z.to_N (- z)))) =
      Ok (UnaryOp TMinus (Num (Int (- z))))).
    { apply (parse_an_expr_at_end _
               {| spelled := TMinus :: spelled (atom (TNumber (Int (- z))));
                  built := UnaryOp TMinus (built (atom (TNumber (Int (- z)))))
               |} TEOF).
      - apply term_an_expr, power_a_term, factor_a_power, sign_a_factor;
          [right; reflexivity|apply atom_a_factor; reflexivity].
      - pose proof (lexes_layout
                      [(EmptyString, TMinus);
                       (EmptyString, TNumber (Int (- z)))]
                      EmptyString 0) as H.
        cbn [layout_text spell String.append] in H.
        rewrite append_empty_r in H. apply H.
        cbn [layout_ok layout_text spellable follows_ok all_space stops
             andb String.append].
        rewrite Z.abs_neq in Hlen by lia.
        apply Nat.leb_le in Hlen. rewrite Hlen.
        replace (0 <=? - z)%Z with true by (symmetry; apply Z.leb_le; lia).
        reflexivity.
      - reflexivity.
      - discriminate. }
    unfold run. rewrite Hparse. unfold interpret.
    change (Some (Returns (Number (Int (- - z))), vars) =
            Some (Returns (Number (Int z)), vars)).
    rewrite Z.opp_involutive. reflexivity.
  - assert (Hparse :
      parse_tree (decimal (Z.to_N z)) = Ok (Num (Int z))).
    { apply (parse_an_expr_at_end _ (atom (TNumber (Int z))) TEOF).
      - apply term_an_expr, atom_a_term. reflexivity.
      - pose proof (lexes_layout
                      [(EmptyString, TNumber (Int z))] EmptyString 0) as H.
        cbn [layout_text spell String.append] in H.
        rewrite append_empty_r in H. apply H.
        cbn [layout_ok layout_text spellable follows_ok all_space stops
             andb String.append].
        rewrite Z.abs_eq in Hlen by lia.
        apply Nat.leb_le in Hlen. rewrite Hlen.
        replace (0 <=? z)%Z with true by (symmetry; apply Z.leb_le; lia).
        reflexivity.
      - reflexivity.
      - discriminate. }
    unfold run. rewrite Hparse. reflexivity.
Qed.

(** ** The interactive loop *)

(** [str.lower] and [str.strip] on Latin-1 text. *)
Definition lower_char (c : ascii) : ascii :=
  if between 65 90 c || between 192 214 c || between 216 222 c
  then ascii_of_N (code c + 32)
  else c.

Fixpoint lower (s : string) : string :=
  match s with
  | EmptyString => EmptyString
  | String c s' => String (lower_char c) (lower s')
  end.

Fixpoint lstrip (s : string) : string :=
  match s with
  | EmptyString => EmptyString
  | String c s' => if isspace c then lstrip s' else s
  end.

Fixpoint rstrip (s : string) : string :=
  match s with
  | EmptyString => EmptyString
  | String c s' =>
      match rstrip s' with
      | EmptyString => if isspace c then EmptyString else String c EmptyString
      | r => String c r
      end
  end.

Definition strip (s : string) : string := rstrip (lstrip s).

(** How one pass of the [while True] loop of the program ends: at the
    [break], at the [continue], after the prints of a result, or in the
    [except] clause. *)
Inductive answer :=
| Break
| Continue
| Resultado (result : value) (tree : ASTNode)
| Error (e : exn).

Definition quit_words : list string := ["quit"; "exit"; "q"]%string.

(** The body of the loop on the line that [input] returns, in the
    dictionary of the one interpreter of the session. The prints are not
    modelled: they do not touch the dictionary, and an exception in one of
    them ends in the [except] clause like any other. [None] is a pass that
    does not end. *)
Definition loop_body (line : string) (vars : env)
  : option (answer * env) :=
  let text := strip line in
  if bool_decide (lower text ∈ quit_words) then Some (Break, vars)
  else if bool_decide (text = EmptyString) then Some (Continue, vars)
  else
    match parse_tree text with
    | Ok tree =>
        match interpret tree vars with
        | (Returns result, vars') => Some (Resultado result tree, vars')
        | (Raises e, vars') => Some (Error e, vars')
        end
    | Raise e => Some (Error e, vars)
    | Diverge => None
    end.

(** The loop on the lines entered one after the other, up to the first
    that breaks it: the dictionary it has reached. *)
Fixpoint main_loop (lines : list string) (vars : env) : option env :=
  match lines with
  | [] => Some vars
  | line :: lines' =>
      match loop_body line vars with
      | Some (Break, vars') => Some vars'
      | Some (_, vars') => main_loop lines' vars'
      | None => None
      end
  end.

Lemma lstrip_all_space (s : string) :
  all_space s = true -> lstrip s = EmptyString.
Proof.
  induction s as [|c s IH]; [reflexivity|]. simpl. intros H.
  apply andb_true_iff in H. destruct H as [Hc Hs]. rewrite Hc. exact (IH Hs).
Qed.

(** X21. A line of white space only is passed over: the loop goes on to the
    next line with the dictionary as it was, and the text never reaches the
    parser. *)
Theorem blank_line_is_skipped (line : string) (vars : env) :
  all_space line = true -> loop_body line vars = Some (Continue, vars).
Proof.
  intros Hall. unfold loop_body, strip. rewrite (lstrip_all_space line Hall).
  reflexivity.
Qed.

Lemma parse_tree_terminates (s : string) : parse_tree s <> Diverge.
Proof.
  unfold parse_tree. pose proof (parse_text_terminates s) as H.
  destruct (parse_text s) as [[tree p]| |]; simpl; congruence.
Qed.

Lemma loop_body_numeric (line : string) (vars : env) :
  numeric vars ->
  exists a vars', loop_body line vars = Some (a, vars') /\ numeric vars'.
Proof.
  intros Hnum. unfold loop_body.
  destruct (bool_decide _); [exists Break, vars; split; auto|].
  destruct (bool_decide _); [exists Continue, vars; split; auto|].
  pose proof (parse_tree_terminates (strip line)) as Hterm.
  destruct (parse_tree (strip line)) as [tree|e|] eqn:Hparse;
    [|exists (Error e), vars; split; auto|contradiction].
  assert (Htargets : targets_are_variables tree = true).
  { destruct (parse_tree_of_assignment _ tree Hparse) as (p & p' & Hrun).
    apply chain_targets.
    apply (when_ok_elim _ _ _ (assignment_builds_chain (parse_fuel p) p) Hrun). }
  destruct (visit_numeric tree vars (parse_operators_known_aux _ tree Hparse)
              Htargets Hnum) as [H1 _].
  unfold interpret.
  destruct (visit tree vars) as [[v|e] vars']; simpl in H1;
    eexists _, vars'; split; try reflexivity; exact H1.
Qed.

Lemma main_loop_numeric (lines : list string) :
  forall vars,
    numeric vars -> exists vars', main_loop lines vars = Some vars' /\
                                  numeric vars'.
Proof.
  induction lines as [|line lines IH]; intros vars Hnum;
    [exists vars; split; auto|].
  destruct (loop_body_numeric line vars Hnum) as (a & vars1 & Hrun & Hnum1).
  simpl. rewrite Hrun.
  destruct a; try (apply IH; exact Hnum1).
  exists vars1. split; auto.
Qed.

(** X22. A session, whatever lines are entered, gets through every one of them
    up to the first that breaks the loop, and the dictionary it starts empty
    binds every name it comes to hold to a number, never to [None]. *)
Theorem session_binds_numbers (lines : list string) :
  exists vars, main_loop lines ∅ = Some vars /\
               forall name v, vars !! name = Some v -> exists n, v = Number n.
Proof.
  destruct (main_loop_numeric lines ∅) as (vars & Hrun & Hnum).
  { intros name. rewrite lookup_empty. discriminate. }
  exists vars. split; [exact Hrun|].
  intros name [n|] Hv; [exists n; reflexivity|].
  exfalso. exact (Hnum name Hv).
Qed.

Lemma write_all_keeps
  (writes : list (string * value)) (vars : env) (name : string) :
  is_Some (vars !! name) -> is_Some (write_all writes vars !! name).
Proof.
  revert vars. induction writes as [|[x v] writes IH]; intros vars Hsome;
    [exact Hsome|].
  simpl. apply IH. simpl.
  destruct (decide (x = name)) as [->|Hne].
  - rewrite lookup_insert_eq. eexists. reflexivity.
  - rewrite lookup_insert_ne by exact Hne. exact Hsome.
Qed.

Lemma loop_body_keeps
  (line : string) (vars vars' : env) (a : answer) (name : string) :
  loop_body line vars = Some (a, vars') ->
  is_Some (vars !! name) -> is_Some (vars' !! name).
Proof.
  unfold loop_body. intros Hrun Hsome.
  destruct (bool_decide _); [inversion Hrun; subst; exact Hsome|].
  destruct (bool_decide _); [inversion Hrun; subst; exact Hsome|].
  destruct (parse_tree (strip line)) as [tree|e|];
    [|inversion Hrun; subst; exact Hsome|discriminate Hrun].
  pose proof (visit_writes tree vars) as Hw. unfold interpret in Hrun.
  destruct (visit tree vars) as [[v|e] vars1]; simpl in Hw;
    inversion Hrun; subst; apply write_all_keeps; exact Hsome.
Qed.

(** X23. A session never unsets a variable: a name that the dictionary binds
    is bound after any lines, to the same value or another. *)
Theorem session_never_unsets
  (lines : list string) (vars vars' : env) (name : string) :
  main_loop lines vars = Some vars' ->
  is_Some (vars !! name) -> is_Some (vars' !! name).
Proof.
  revert vars. induction lines as [|line lines IH]; intros vars Hrun Hsome.
  - inversion Hrun. subst. exact Hsome.
  - simpl in Hrun.
    destruct (loop_body line vars) as [[a vars1]|] eqn:Hbody;
      [|discriminate Hrun].
    pose proof (loop_body_keeps line vars vars1 a name Hbody Hsome) as H1.
    destruct a; try (apply (IH vars1 Hrun H1)).
    inversion Hrun. subst. exact H1.
Qed.

End More.

(** * The further properties at concrete inputs, on the host of the integers *)

#[local] Existing Instances integers_only integer_host.

Ltac lex_by_running :=
  eexists; split; [vm_compute; reflexivity|];
  split; [reflexivity|];
  repeat (eexists; split; [vm_compute; reflexivity|split; [reflexivity|]]);
  exact I.

Lemma EOF_is_final_witness :
  TEOF = TEOF /\
  get_next_token (advance (advance (Lexer_init "  "))) =
  Ok (TEOF, advance (advance (Lexer_init "  "))).
Proof.
  refine (EOF_is_final (Lexer_init "  ") _ TEOF _ _); reflexivity.
Defined.

Lemma get_next_token_consumes_witness :
  get_next_token (Lexer_init "12+3") <> Diverge /\
  forall tok lx',
    get_next_token (Lexer_init "12+3") = Ok (tok, lx') ->
    wf_lexer lx' /\ text lx' = "12+3" /\
    remaining lx' <= 4 /\
    (type tok <> EOF -> remaining lx' < 4).
Proof.
  refine (get_next_token_consumes (Lexer_init "12+3") _). reflexivity.
Defined.

Lemma parse_raises_three_kinds_witness :
  (exists n, UnexpectedToken TEOF = InvalidCharacter n) \/
  UnexpectedToken TEOF = ValueError \/
  (exists tok, UnexpectedToken TEOF = UnexpectedToken tok /\
               type tok <> PLUS /\ type tok <> MINUS).
Proof.
  refine (parse_raises_three_kinds "2 +" (UnexpectedToken TEOF) _).
  vm_compute. reflexivity.
Defined.

Lemma invalid_character_position_witness :
  2 < String.length "2 $ 3" /\
  exists c, String.get 2 "2 $ 3" = Some c /\ recognised c = false.
Proof.
  refine (invalid_character_position "2 $ 3" 2 _).
  vm_compute. reflexivity.
Defined.

Lemma parse_operators_known_witness :
  operators_known
    (BinaryOp (Num (Int 1)) TPlus
       (BinaryOp (UnaryOp TMinus (Num (Int 2))) TMultiply (Num (Int 3))))
  = true.
Proof.
  refine (parse_operators_known "1 + -2 * 3" _ _).
  vm_compute. reflexivity.
Defined.

Lemma parse_assignments_at_top_witness :
  exists names e,
    Assign (Var "a") (Assign (Var "b") (BinaryOp (Num (Int 1)) TPlus (Var "c")))
    = assign_right names e /\ has_Assign e = false.
Proof.
  refine (parse_assignments_at_top "a = b = 1 + c" _ _).
  vm_compute. reflexivity.
Defined.

Lemma failed_run_keeps_variables_witness :
  (<["a" := Number (Int 1)]> ∅ : env) = <["a" := Number (Int 1)]> ∅.
Proof.
  refine (failed_run_keeps_variables "a = b = a / 0"
            (<["a" := Number (Int 1)]> ∅) _ ZeroDivisionError _).
  vm_compute. reflexivity.
Defined.

Lemma interpret_changes_only_assigned_witness :
  snd (interpret (Assign (Var "x") (BinaryOp (Var "y") TPlus (Num (Int 1))))
         (<["y" := Number (Int 1)]> ∅)) !! "y" =
  (<["y" := Number (Int 1)]> ∅ : env) !! "y".
Proof.
  refine (interpret_changes_only_assigned _ _ "y" _).
  simpl. intros [H|[]]. discriminate H.
Defined.

Lemma numeric_empty : numeric (∅ : env).
Proof. intros name H. rewrite lookup_empty in H. discriminate H. Defined.

Lemma interpret_parsed_gives_numbers_witness :
  numeric (snd (interpret (Assign (Var "x") (Num (Int 2))) ∅)) /\
  forall v, fst (interpret (Assign (Var "x") (Num (Int 2))) ∅) = Returns v ->
            exists n, v = Number n.
Proof.
  refine (interpret_parsed_gives_numbers "x = 2" _ ∅ _ numeric_empty).
  vm_compute. reflexivity.
Defined.

Lemma interpret_parsed_raises_witness :
  (exists name, NameError "y" = NameError name) \/
  NameError "y" = ZeroDivisionError \/
  (exists op m n, host_arith op m n = Raises (NameError "y")).
Proof.
  refine (interpret_parsed_raises "1 + y" _ ∅ (NameError "y") _
            numeric_empty _).
  - vm_compute. reflexivity.
  - vm_compute. reflexivity.
Defined.

Lemma integer_arithmetic_is_exact_witness :
  interpret
    (BinaryOp (UnaryOp TMinus (Num (Int 2))) TPower (Num (Int 3))) ∅ =
  (Returns (Number (Int (-8))), ∅).
Proof.
  refine (integer_arithmetic_is_exact _ (-8) ∅ _). reflexivity.
Defined.

Lemma interpret_depends_on_mentioned_names_witness :
  fst (interpret (BinaryOp (Var "x") TPlus (Num (Int 1)))
         (<["x" := Number (Int 1)]> ∅)) =
  fst (interpret (BinaryOp (Var "x") TPlus (Num (Int 1)))
         (<["y" := Number (Int 2)]> (<["x" := Number (Int 1)]> ∅))) /\
  forall name, In name ["x"] ->
    snd (interpret (BinaryOp (Var "x") TPlus (Num (Int 1)))
           (<["x" := Number (Int 1)]> ∅)) !! name =
    snd (interpret (BinaryOp (Var "x") TPlus (Num (Int 1)))
           (<["y" := Number (Int 2)]> (<["x" := Number (Int 1)]> ∅))) !! name.
Proof.
  refine (interpret_depends_on_mentioned_names
            (BinaryOp (Var "x") TPlus (Num (Int 1)))
            (<["x" := Number (Int 1)]> ∅)
            (<["y" := Number (Int 2)]> (<["x" := Number (Int 1)]> ∅)) _).
  simpl. intros name [<-|[]]. vm_compute. reflexivity.
Defined.

Lemma lexes_1_plus_2_times_3 :
  lexes_to "1 + 2 * 3"
    [TNumber (Int 1); TPlus; TNumber (Int 2); TMultiply; TNumber (Int 3);
     TEOF].
Proof. lex_by_running. Defined.

Lemma lexes_1_times_2_plus_3 :
  lexes_to "1 * 2 + 3"
    [TNumber (Int 1); TMultiply; TNumber (Int 2); TPlus; TNumber (Int 3);
     TEOF].
Proof. lex_by_running. Defined.

Lemma tighter_operator_groups_first_witness :
  parse_tree "1 + 2 * 3" =
    Ok (BinaryOp (Num (Int 1)) TPlus
          (BinaryOp (Num (Int 2)) TMultiply (Num (Int 3)))) /\
  parse_tree "1 * 2 + 3" =
    Ok (BinaryOp (BinaryOp (Num (Int 1)) TMultiply (Num (Int 2))) TPlus
          (Num (Int 3))).
Proof.
  refine (tighter_operator_groups_first "1 + 2 * 3" "1 * 2 + 3"
            (TNumber (Int 1)) (TNumber (Int 2)) (TNumber (Int 3))
            TMultiply TPlus TEOF _ _ _ _ _
            lexes_1_plus_2_times_3 lexes_1_times_2_plus_3);
    reflexivity.
Defined.

Lemma lexes_minus_minus_5 :
  lexes_to "- -5"
    (([TMinus; TMinus] ++ spelled (atom (TNumber (Int 5)))) ++ [TEOF]).
Proof. lex_by_running. Defined.


Lemma lexes_parenthesised_7 :
  lexes_to "(7)"
    ((TLParen :: spelled (atom (TNumber (Int 7))) ++ [TRParen]) ++ [TEOF]).
Proof. lex_by_running. Defined.

Lemma lexes_parenthesised_target :
  lexes_to "(x) = 5"
    ([TLParen; TIdentifier "x"; TRParen; TAssign]
     ++ spelled (atom (TNumber (Int 5))) ++ [TEOF]).
Proof. lex_by_running. Defined.

Lemma parentheses_leave_no_trace_witness :
  parse_tree "(7)" = Ok (Num (Int 7)) /\
  parse_tree "(x) = 5" = Ok (Assign (Var "x") (Num (Int 5))).
Proof.
  refine (parentheses_leave_no_trace "(7)" "(x) = 5"
            (atom (TNumber (Int 7))) (atom (TNumber (Int 5))) "x" TEOF
            _ _ _ _ lexes_parenthesised_7 lexes_parenthesised_target).
  - apply term_an_expr, atom_a_term. reflexivity.
  - apply term_an_expr, atom_a_term. reflexivity.
  - reflexivity.
  - discriminate.
Defined.

Lemma lexer_round_trip_witness :
  lexes_to "12** x_1	*(y ) "
    [TNumber (Int 12); TPower; TIdentifier "x_1"; TMultiply; TLParen;
     TIdentifier "y"; TRParen; TEOF; TEOF].
Proof.
  refine (lexer_round_trip
            [("", TNumber (Int 12)); ("", TPower); (" ", TIdentifier "x_1");
             ("	", TMultiply); ("", TLParen); ("", TIdentifier "y");
             (" ", TRParen)]%string " " 1 _).
  vm_compute. reflexivity.
Defined.

Lemma identifier_text_is_lookup_witness :
  parse_tree " total_2  " = Ok (Var "total_2") /\
  run " total_2  " ∅ = Some (Raises (NameError "total_2"), ∅).
Proof.
  refine (identifier_text_is_lookup " " "total_2" "  " ∅ _ _ _); reflexivity.
Defined.

Lemma numeral_evaluates_to_its_number_witness :
  run "-42" ∅ = Some (Returns (Number (Int (-42))), ∅).
Proof.
  refine (numeral_evaluates_to_its_number (-42) ∅ _).
  apply Nat.leb_le. vm_compute. reflexivity.
Defined.

Lemma blank_line_is_skipped_witness :
  loop_body "   " ∅ = Some (Continue, ∅).
Proof.
  refine (blank_line_is_skipped "   " ∅ _). reflexivity.
Defined.

Lemma session_never_unsets_witness :
  is_Some ((<["y" := Number (Int 3)]> (<["x" := Number (Int 2)]> ∅) : env)
           !! "x").
Proof.
  refine (session_never_unsets ["x = 2"; "x / 0"; "y = x + 1"; "quit"; "x"]
            (<["x" := Number (Int 1)]> ∅) _ "x" _ _).
  - vm_compute. reflexivity.
  - vm_compute. eexists. reflexivity.
Defined.
